(** * Timeline, caption scaling and subtitle layout of the reels render service

    A shallow embedding of the algorithmic core of [server.js]: the text
    helpers [assEscape] and [wrapByChars], the caption normalizer
    [normalizeAndScaleCaptions], and the timing arithmetic of the [/render]
    handler (effective audio length, the four slide segments, the slideshow
    and total durations, the subtitle events, the crossfade guards and
    offsets).

    Modelling conventions.
    - A JavaScript string is the list of its UTF-16 code units ([jsstring]).
    - Millisecond quantities are integers in the program (they come out of
      [Math.round] or are sums and differences of such values); they are
      modelled by [Z], on which [Math.round] is the identity.  The model
      coincides with IEEE-754 double arithmetic as long as the values stay
      below 2^53.  Numbers that reach the program from outside are of type
      [number]: an integer, an infinity, or NaN.
    - The two genuinely fractional computations, the scale factor
      [audioMs / totalDur] and the crossfade offsets in seconds, are
      computed in binary64 with the reference implementation [SpecFloat].
    - A property read on [undefined] raises a TypeError in JavaScript;
      array reads that the source dereferences are modelled by list lookups
      in the [option] monad, [None] standing for the exception. *)

From Stdlib Require Import ZArith Lia QArith Qround Qminmax Qabs.
From Stdlib Require Import Floats.SpecFloat.
From Stdlib Require DecimalString.
From stdpp Require Import base option list sorting strings.

Local Open Scope Z_scope.

(** ** JavaScript strings *)

Module JsString.

Definition jsstring := list N.

(** Code units of an ASCII literal. *)
Fixpoint str (s : string) : jsstring :=
  match s with
  | EmptyString => []
  | String a r => Ascii.N_of_ascii a :: str r
  end.

Definition SPACE : N := 32%N.

(** The class [\s] of regular expressions, also what [trim] strips:
    WhiteSpace and LineTerminator code points. *)
Definition isWhiteSpace (c : N) : bool :=
  ((9 <=? c) && (c <=? 13) || (c =? 32) || (c =? 160) || (c =? 5760)
   || (8192 <=? c) && (c <=? 8202) || (c =? 8232) || (c =? 8233)
   || (c =? 8239) || (c =? 8287) || (c =? 12288) || (c =? 65279))%N.

Fixpoint trimStart (s : jsstring) : jsstring :=
  match s with
  | [] => []
  | c :: r => if isWhiteSpace c then trimStart r else s
  end.

Definition trimEnd (s : jsstring) : jsstring :=
  reverse (trimStart (reverse s)).

(** [s.trim()] *)
Definition trim (s : jsstring) : jsstring := trimEnd (trimStart s).

(** [s.replace(/\s+/g, " ")]; [inRun] tells that the previous code unit
    was white space already replaced. *)
Fixpoint collapseFrom (inRun : bool) (s : jsstring) : jsstring :=
  match s with
  | [] => []
  | c :: r =>
      if isWhiteSpace c
      then (if inRun then collapseFrom true r else SPACE :: collapseFrom true r)
      else c :: collapseFrom false r
  end.

Definition collapseWhiteSpace (s : jsstring) : jsstring := collapseFrom false s.

(** [s.replace(/\r?\n/g, " ")] *)
Fixpoint replaceNewlines (s : jsstring) : jsstring :=
  match s with
  | [] => []
  | 13%N :: 10%N :: r => SPACE :: replaceNewlines r
  | c :: r =>
      if (c =? 10)%N then SPACE :: replaceNewlines r else c :: replaceNewlines r
  end.

(** [s.split(sep)] for a separator of one code unit. *)
Fixpoint split (sep : N) (s : jsstring) : list jsstring :=
  match s with
  | [] => [[]]
  | c :: r =>
      if (c =? sep)%N then [] :: split sep r
      else match split sep r with
           | w :: ws => (c :: w) :: ws
           | [] => [[c]]
           end
  end.

(** [parts.join(sep)] *)
Fixpoint join (sep : jsstring) (parts : list jsstring) : jsstring :=
  match parts with
  | [] => []
  | [p] => p
  | p :: rest => p ++ sep ++ join sep rest
  end.

(** Truthiness of a string: [Boolean(s)], [!s] is its negation. *)
Definition nonEmpty (s : jsstring) : bool :=
  match s with [] => false | _ => true end.

(** [s.length] *)
Definition len (s : jsstring) : Z := Z.of_nat (length s).

(** [s.includes(sub)] *)
Fixpoint startsWith (sub s : jsstring) : bool :=
  match sub, s with
  | [], _ => true
  | _ :: _, [] => false
  | a :: sub', b :: s' => (a =? b)%N && startsWith sub' s'
  end.

Fixpoint includes (s sub : jsstring) : bool :=
  startsWith sub s || match s with [] => false | _ :: r => includes r sub end.

(** Decimal digits of a non-negative integer, as [String(n)] prints it. *)
Definition digitsOf (n : N) : jsstring :=
  str (DecimalString.NilZero.string_of_uint (N.to_uint n)).

(** [s.padStart(2, "0")] *)
Definition padStart2 (s : jsstring) : jsstring :=
  match s with
  | [] => str "00"
  | [c] => 48%N :: [c]
  | _ => s
  end.

End JsString.
Export JsString.

(** ** JavaScript numbers and values *)

Module JsValue.

(** The numbers the model distinguishes: integers (millisecond values),
    the two infinities and NaN.  Integer arithmetic on them is written
    with the operations of [Z]; it is the arithmetic of the code as long
    as the values stay below 2^53 in magnitude, where binary64 is exact
    on integers.  Fractions are not represented. *)
Inductive number :=
| NaN
| Infinity (negative : bool)
| Finite (z : Z).

(** The values a parsed request body is made of. *)
Unset Elimination Schemes.
Inductive jsval :=
| JUndefined
| JNull
| JBool (b : bool)
| JNumber (n : number)
| JString (s : jsstring)
| JArray (elems : list jsval)
| JObject (props : list (jsstring * jsval)).
Set Elimination Schemes.

(** [Array.isArray(v)] *)
Definition isArray (v : jsval) : bool :=
  match v with JArray _ => true | _ => false end.

(** Own property of an object (the first binding of the key). *)
Fixpoint getProp (props : list (jsstring * jsval)) (key : jsstring) : jsval :=
  match props with
  | [] => JUndefined
  | (k, v) :: rest => if bool_decide (k = key) then v else getProp rest key
  end.

(** [c?.key] for the keys [start_ms], [end_ms] and [text], which no
    primitive wrapper or array prototype defines. *)
Definition optGet (c : jsval) (key : jsstring) : jsval :=
  match c with
  | JObject props => getProp props key
  | _ => JUndefined
  end.

(** [String(x)] of a number, for integers below 10^21. *)
Definition numberToString (x : number) : jsstring :=
  match x with
  | NaN => str "NaN"
  | Infinity false => str "Infinity"
  | Infinity true => str "-Infinity"
  | Finite (Zneg p) => str "-" ++ digitsOf (Npos p)
  | Finite z => digitsOf (Z.to_N z)
  end.

(** [String(v)], when the conversion returns (see [conversionThrows]). *)
Fixpoint toString (v : jsval) : jsstring :=
  match v with
  | JUndefined => str "undefined"
  | JNull => str "null"
  | JBool true => str "true"
  | JBool false => str "false"
  | JNumber n => numberToString n
  | JString s => s
  | JArray elems =>
      join (str ",")
        (map (fun e => match e with
                       | JUndefined | JNull => []
                       | _ => toString e
                       end) elems)
  | JObject _ => str "[object Object]"
  end.

Definition isDigit (c : N) : bool := ((48 <=? c) && (c <=? 57))%N.

Fixpoint digitsValue (acc : Z) (s : jsstring) : option Z :=
  match s with
  | [] => Some acc
  | c :: r => if isDigit c then digitsValue (10 * acc + Z.of_N (c - 48)) r else None
  end.

Definition unsignedToNumber (s : jsstring) : number :=
  if bool_decide (s = str "Infinity") then Infinity false
  else match s with
       | [] => NaN
       | _ => match digitsValue 0 s with Some z => Finite z | None => NaN end
       end.

Definition negate (x : number) : number :=
  match x with
  | NaN => NaN
  | Infinity s => Infinity (negb s)
  | Finite z => Finite (- z)
  end.

(** [Number(s)] of a string: white space is stripped, the empty string is
    0, a signed decimal integer or [Infinity] is its value, and a string
    without any digit is not a number.  The other numeric spellings
    (fraction, exponent, radix prefix) denote numbers the model does not
    represent; they are read as not-a-number here, which is not what the
    code does: [plainNumeric] tells the strings that are read exactly. *)
Definition stringToNumber (s : jsstring) : number :=
  match trim s with
  | [] => Finite 0
  | 43%N :: r => unsignedToNumber r
  | 45%N :: r => negate (unsignedToNumber r)
  | t => unsignedToNumber t
  end.

(** [Number(v)], when the conversion returns (see [conversionThrows]). *)
Definition toNumber (v : jsval) : number :=
  match v with
  | JUndefined => NaN
  | JNull => Finite 0
  | JBool b => Finite (if b then 1 else 0)
  | JNumber n => n
  | JString s => stringToNumber s
  | JArray _ => stringToNumber (toString v)
  | JObject _ => NaN
  end.

(** Whether an object has an own property [key]. *)
Fixpoint hasOwn (props : list (jsstring * jsval)) (key : jsstring) : bool :=
  match props with
  | [] => false
  | (k, _) :: rest => bool_decide (k = key) || hasOwn rest key
  end.

(** [String(v)] and [Number(v)] throw a TypeError exactly when [v] is an
    object with an own [toString] property (the value of a parsed property
    is never callable, and the inherited [valueOf] returns the object
    itself), or an array one of whose elements, joined into its string,
    throws. *)
Fixpoint conversionThrows (v : jsval) : bool :=
  match v with
  | JArray elems =>
      existsb (fun e => match e with
                        | JUndefined | JNull => false
                        | _ => conversionThrows e
                        end) elems
  | JObject props => hasOwn props (str "toString")
  | _ => false
  end.

(** [String(v)]; [None] is the TypeError. *)
Definition jsString (v : jsval) : option jsstring :=
  if conversionThrows v then None else Some (toString v).

(** [Number(v)]; [None] is the TypeError. *)
Definition jsNumber (v : jsval) : option number :=
  if conversionThrows v then None else Some (toNumber v).

(** [Boolean(v)] *)
Definition truthy (v : jsval) : bool :=
  match v with
  | JUndefined | JNull => false
  | JBool b => b
  | JNumber NaN => false
  | JNumber (Finite z) => negb (z =? 0)
  | JNumber (Infinity _) => true
  | JString s => nonEmpty s
  | JArray _ | JObject _ => true
  end.

(** [a || b] *)
Definition orElse (a b : jsval) : jsval := if truthy a then a else b.

End JsValue.
Export JsValue.

(** ** Binary64 arithmetic *)

Module Double.

Definition prec : Z := 53.
Definition emax : Z := 1024.

Definition double := spec_float.

(** The double nearest to an integer (the integer itself below 2^53). *)
Definition ofZ (z : Z) : double := binary_normalize prec emax z 0 false.

Definition div : double -> double -> double := SFdiv prec emax.
Definition mul : double -> double -> double := SFmul prec emax.
Definition sub : double -> double -> double := SFsub prec emax.

(** [Math.round(x)]: the integer nearest to [x], ties towards +Infinity. *)
Definition round (x : double) : number :=
  match x with
  | S754_nan => NaN
  | S754_infinity s => Infinity s
  | S754_zero _ => Finite 0
  | S754_finite s m e =>
      let sm := if s then Zneg m else Zpos m in
      match e with
      | Zneg k => Finite ((2 * sm + 2 ^ Zpos k) / 2 ^ (Zpos k + 1))
      | _ => Finite (sm * 2 ^ e)
      end
  end.

(** [Math.ceil(x)] *)
Definition ceil (x : double) : number :=
  match x with
  | S754_nan => NaN
  | S754_infinity s => Infinity s
  | S754_zero _ => Finite 0
  | S754_finite s m e =>
      let sm := if s then Zneg m else Zpos m in
      match e with
      | Zneg k => Finite (- ((- sm) / 2 ^ Zpos k))
      | _ => Finite (sm * 2 ^ e)
      end
  end.

(** [Math.max(a, b)] *)
Definition max (a b : double) : double :=
  match SFcompare a b with
  | None => S754_nan
  | Some Lt => b
  | Some Gt => a
  | Some Eq =>
      match a, b with
      | S754_zero true, S754_zero false => b
      | _, _ => a
      end
  end.

(** Strictly above zero. *)
Definition isPositive (x : double) : bool := SFltb (S754_zero false) x.

(** The double 1.0. *)
Definition one : double := S754_finite false 4503599627370496 (-52).

(** The integer held by a number that is known to be finite (0 stands
    for the others, which the uses below exclude). *)
Definition toZ (x : number) : Z :=
  match x with Finite z => z | _ => 0 end.

(** The rational number a finite double stands for, [(-1)^s * m * 2^e]
    (0 for the others). *)
Definition toQ (x : double) : Q :=
  match x with
  | S754_finite s m e =>
      let sm := if s then Zneg m else Zpos m in
      match e with
      | Zneg k => Qmake sm (2 ^ k)%positive
      | _ => inject_Z (sm * 2 ^ e)
      end
  | _ => 0%Q
  end.

(** A positive finite double in units of 2^-256: an integer when the
    exponent is -256 or more. *)
Definition scaled (x : double) : Z :=
  match x with
  | S754_finite false m e => Zpos m * 2 ^ (e + 256)
  | _ => 0
  end.

End Double.

(** ** server.js: text helpers *)

(** [Math.round] on a value that is an integer already, the only finite
    values of the model. *)
Definition Math_round (z : Z) : Z := z.

Definition replaceAll (c : N) (by_ : jsstring) (s : jsstring) : jsstring :=
  flat_map (fun x => if (x =? c)%N then by_ else [x]) s.

Definition assEscape (t : jsval) : jsstring :=
  replaceAll 125 (str "\}")
    (replaceAll 123 (str "\{")
       (replaceAll 92 (str "\\")
          (trim (collapseWhiteSpace
                   (replaceNewlines (toString (orElse t (JString [])))))))).

(** The first loop of [wrapByChars]: [words] are the words still to be
    read; the result is [(lines, cur)] when the loop is left, by [break] or
    at the end of the words. *)
Fixpoint wrapLoop (maxCharsPerLine maxLines : Z) (words : list jsstring)
    (lines : list jsstring) (cur : jsstring) : list jsstring * jsstring :=
  match words with
  | [] => (lines, cur)
  | w :: rest =>
      let cand := if nonEmpty cur then cur ++ str " " ++ w else w in
      if len cand <=? maxCharsPerLine
      then wrapLoop maxCharsPerLine maxLines rest lines cand
      else
        let lines' := if nonEmpty cur then lines ++ [cur] else lines in
        if Z.of_nat (length lines') >=? maxLines - 1
        then (lines', w)
        else wrapLoop maxCharsPerLine maxLines rest lines' w
  end.

(** The loop over [restWords]: append while the candidate fits, then
    [break]. *)
Fixpoint fillLast (maxCharsPerLine : Z) (restWords : list jsstring)
    (last : jsstring) : jsstring :=
  match restWords with
  | [] => last
  | w :: rest =>
      let cand := last ++ str " " ++ w in
      if len cand <=? maxCharsPerLine
      then fillLast maxCharsPerLine rest cand
      else last
  end.

(** [s.split(" ").filter(Boolean).length] *)
Definition countWords (s : jsstring) : nat :=
  length (filter (fun w => Is_true (nonEmpty w)) (split SPACE s)).

(** The array [lines] when [wrapByChars] reaches its last two statements,
    for the collapsed and trimmed, non-empty text [t]. *)
Definition wrapLines (t : jsstring) (maxCharsPerLine maxLines : Z) : list jsstring :=
  let words := split SPACE t in
  let '(lines, cur) := wrapLoop maxCharsPerLine maxLines words [] [] in
  if nonEmpty cur && (Z.of_nat (length lines) <? maxLines)
  then
    let usedWords := (countWords (join (str " ") lines) + countWords cur)%nat in
    let remaining := trim (join (str " ") (drop usedWords words)) in
    let cur' :=
      if nonEmpty remaining
      then fillLast maxCharsPerLine (split SPACE remaining) cur
      else cur in
    lines ++ [cur']
  else lines.

Definition wrapByChars (text : jsval) (maxCharsPerLine maxLines : Z) : jsstring :=
  let t := trim (collapseWhiteSpace (toString (orElse text (JString [])))) in
  if negb (nonEmpty t) then []
  else
    let lines := wrapLines t maxCharsPerLine maxLines in
    if bool_decide (length lines = 0%nat) then t
    else join (str "\N") lines.

(** ** server.js: [normalizeAndScaleCaptions] *)

(** [{ dur_ms, text }], the elements of [items] and of [scaled]. *)
Record item := Item { text_of : jsstring; dur_ms : Z }.

(** [{ start_ms, end_ms, text }], the elements of the result. *)
Record caption := Caption { start_ms : Z; end_ms : Z; text : jsstring }.

(** The test and the [push] of the filtering loop: [None] is [continue].
    The subtraction is exact for a duration below 2^53. *)
Definition keepOrSkip (start end_ : number) (txt : jsstring) : option item :=
  match start, end_ with
  | Finite s, Finite e =>
      if (e <=? s) || negb (nonEmpty txt) then None
      else Some (Item txt (e - s))
  | _, _ => None
  end.

(** One turn of the filtering loop: the outer [None] is a TypeError thrown
    by one of the three conversions, the inner one is [continue]. *)
Definition readCaption (c : jsval) : option (option item) :=
  start ← jsNumber (optGet c (str "start_ms"));
  end_ ← jsNumber (optGet c (str "end_ms"));
  txt ← jsString (orElse (optGet c (str "text")) (JString []));
  Some (keepOrSkip start end_ (trim txt)).

(** The filtering loop; [None] is a TypeError. *)
Fixpoint collectItems (captions : list jsval) : option (list item) :=
  match captions with
  | [] => Some []
  | c :: rest =>
      r ← readCaption c;
      items ← collectItems rest;
      Some (match r with Some it => it :: items | None => items end)
  end.

(** The branch taken when [audioMs] is not a positive finite number;
    [cur + dur] is exact while the running total stays below 2^53. *)
Fixpoint layOut (cur : Z) (items : list item) : list caption :=
  match items with
  | [] => []
  | it :: rest =>
      let dur := Z.max 1 (Math_round (dur_ms it)) in
      Caption cur (cur + dur) (text_of it) :: layOut (cur + dur) rest
  end.

Definition totalDurOf (items : list item) : Z :=
  fold_left (fun acc it => acc + Z.max 1 (Math_round (dur_ms it))) items 0.

(** [minSegMs] for the target [audioMs] and [n] items;
    [Math.floor(audioMs / n)] is the integer quotient. *)
Definition minSegMsFor (audioMs : Z) (n : Z) : Z :=
  let minSegMs := 600 in
  let maxPossibleMin := audioMs / n in
  if maxPossibleMin <=? 0 then 80
  else if minSegMs >? maxPossibleMin then Z.max 80 maxPossibleMin
  else minSegMs.

(** [Math.round(d * factor)], the one place where the fractional factor is
    used; the product of two positive finite doubles below 2^53 is finite. *)
Definition roundScaled (d : Z) (factor : Double.double) : Z :=
  Double.toZ (Double.round (Double.mul (Double.ofZ d) factor)).

Definition scaleItem (minSegMs : Z) (factor : Double.double) (it : item) : item :=
  let d := Z.max 1 (Math_round (dur_ms it)) in
  Item (text_of it) (Z.max minSegMs (roundScaled d factor)).

Definition sumDur (scaled : list item) : Z :=
  fold_left (fun acc x => acc + dur_ms x) scaled 0.

(** [.sort((a, b) => b.d - a.d)] on the pairs [{ i, d }]: the sort is
    stable, equal durations keep their order. *)
Fixpoint insertDesc (x : nat * Z) (l : list (nat * Z)) : list (nat * Z) :=
  match l with
  | [] => [x]
  | y :: r => if x.2 <? y.2 then y :: insertDesc x r else x :: l
  end.

Definition sortDesc (l : list (nat * Z)) : list (nat * Z) :=
  foldr insertDesc [] l.

Definition sortedIdx (scaled : list item) : list nat :=
  fst <$> sortDesc (imap (fun i x => (i, dur_ms x)) scaled).

Definition reduceAt (i : nat) (floor_ : Z) (scaled : list item) (over : Z)
    : option (list item * Z) :=
  x ← scaled !! i;
  let canReduce := Z.max 0 (dur_ms x - floor_) in
  let reduceBy := Z.min canReduce over in
  Some (<[i := Item (text_of x) (dur_ms x - reduceBy)]> scaled, over - reduceBy).

(** [for (const i of idx) { if (over <= 0) break; ... }] *)
Fixpoint reduceToFloor (minSegMs : Z) (idx : list nat) (scaled : list item)
    (over : Z) : option (list item * Z) :=
  match idx with
  | [] => Some (scaled, over)
  | i :: rest =>
      if over <=? 0 then Some (scaled, over)
      else
        '(scaled', over') ← reduceAt i minSegMs scaled over;
        reduceToFloor minSegMs rest scaled' over'
  end.

(** [for (let i = scaled.length - 1; i >= 0 && over > 0; i--)], with
    [k = i + 1]. *)
Fixpoint reduceToOne (k : nat) (scaled : list item) (over : Z)
    : option (list item * Z) :=
  match k with
  | O => Some (scaled, over)
  | S i =>
      if over >? 0
      then
        '(scaled', over') ← reduceAt i 1 scaled over;
        reduceToOne i scaled' over'
      else Some (scaled, over)
  end.

(** The adjustment of [scaled] to the target. *)
Definition adjust (audioMs minSegMs : Z) (scaled : list item) : option (list item) :=
  let sum := sumDur scaled in
  if sum >? audioMs then
    '(scaled1, over1) ← reduceToFloor minSegMs (sortedIdx scaled) scaled (sum - audioMs);
    if over1 >? 0
    then '(scaled2, _) ← reduceToOne (length scaled1) scaled1 over1; Some scaled2
    else Some scaled1
  else if sum <? audioMs then
    let last := (length scaled - 1)%nat in
    x ← scaled !! last;
    Some (<[last := Item (text_of x) (dur_ms x + (audioMs - sum))]> scaled)
  else Some scaled.

(** The final loop; [rest = []] is [i === scaled.length - 1]. *)
Fixpoint emit (audioMs : Z) (cur : Z) (scaled : list item) : list caption :=
  match scaled with
  | [] => []
  | x :: rest =>
      let dur := Z.max 1 (Math_round (dur_ms x)) in
      let start_ms := cur in
      let end_ms := match rest with [] => audioMs | _ => start_ms + dur end in
      Caption start_ms end_ms (text_of x) :: emit audioMs end_ms rest
  end.

(** [if (out.length) out[out.length - 1].end_ms = audioMs] *)
Definition forceLastEnd (audioMs : Z) (out : list caption) : list caption :=
  match out !! (length out - 1)%nat with
  | Some c => <[(length out - 1)%nat := Caption (start_ms c) audioMs (text c)]> out
  | None => out
  end.

Definition scaleToTarget (items : list item) (audioMs : Z) : option (list caption) :=
  let totalDur := totalDurOf items in
  if totalDur <=? 0 then Some []
  else
    let factor := Double.div (Double.ofZ audioMs) (Double.ofZ totalDur) in
    let n := Z.of_nat (length items) in
    let minSegMs := minSegMsFor audioMs n in
    let scaled := scaleItem minSegMs factor <$> items in
    scaled' ← adjust audioMs minSegMs scaled;
    Some (forceLastEnd audioMs (emit audioMs 0 scaled')).

(** [Number.isFinite(audioMs) && audioMs > 0] *)
Definition knownPositive (audioMs : number) : bool :=
  match audioMs with Finite a => 0 <? a | _ => false end.

(** The function after its first loop, for the [items] the loop kept. *)
Definition resize (items : list item) (audioMs : number) : option (list caption) :=
  if bool_decide (length items = 0%nat) then Some []
  else if negb (knownPositive audioMs) then Some (layOut 0 items)
  else scaleToTarget items (Double.toZ audioMs).

(** [None] is a thrown exception. *)
Definition normalizeAndScaleCaptions (captions : jsval) (audioMs : number)
    : option (list caption) :=
  match captions with
  | JArray elems =>
      items ← collectItems elems;
      resize items audioMs
  | _ => Some []
  end.

(** ** server.js: the timing arithmetic of the [/render] handler *)

(** [effectiveAudioMs] before the segments are planned: the probed length,
    or the end of the last caption when the probe failed. *)
Definition effectiveAudioMs (audioMs : number) (scaledCaptions : list caption) : Z :=
  if negb (knownPositive audioMs)
  then
    let lastEnd :=
      match last scaledCaptions with
      | Some c => end_ms c
      | None => 0
      end in
    if lastEnd >? 0 then Math_round lastEnd else 15000
  else Double.toZ audioMs.

(** The four slide durations together with the updated
    [effectiveAudioMs]. *)
Record timing := Timing {
  seg1 : Z; seg2 : Z; seg3 : Z; seg4 : Z;
  effectiveMs : Z
}.

(** The list has seven elements at least exactly when the first pattern
    matches; the elements read are those of index 0, 2, 4 and 6. *)
Definition planSegments (scaledCaptions : list caption) (effectiveAudioMs : Z) : timing :=
  match scaledCaptions with
  | c0 :: _ :: c2 :: _ :: c4 :: _ :: c6 :: _ =>
      let t1 := Math_round (end_ms c0) in
      let t3 := Math_round (end_ms c2) in
      let t5 := Math_round (end_ms c4) in
      let t7 := Math_round (end_ms c6) in
      Timing (Z.max 1 t1) (Z.max 1 (t3 - t1)) (Z.max 1 (t5 - t3)) (Z.max 1 (t7 - t5))
             (Z.max effectiveAudioMs t7)
  | _ =>
      let part := effectiveAudioMs / 4 in
      let seg1 := Z.max 1 part in
      let seg2 := Z.max 1 part in
      let seg3 := Z.max 1 part in
      Timing seg1 seg2 seg3 (Z.max 1 (effectiveAudioMs - seg1 - seg2 - seg3))
             effectiveAudioMs
  end.

Definition slideshowMs (t : timing) : Z :=
  Z.max 1 (Math_round (seg1 t + seg2 t + seg3 t + seg4 t)).

(** The default of the destructured request field. *)
Definition end_card_duration_ms (field : jsval) : jsval :=
  match field with
  | JUndefined => JNumber (Finite 4000)
  | _ => field
  end.

(** [Math.max(0, Math.round(Number(end_card_duration_ms) || 0))] *)
Definition endCardDurMs (end_card_duration_ms : jsval) : number :=
  match toNumber end_card_duration_ms with
  | NaN => Finite 0
  | Infinity true => Finite 0
  | Infinity false => Infinity false
  | Finite z => Finite (Z.max 0 (Math_round z))
  end.

(** [a + b] for an integer and a non-negative number. *)
Definition plus (a : Z) (b : number) : number :=
  match b with
  | Finite z => Finite (a + z)
  | other => other
  end.

Definition totalMs (t : timing) (end_card_duration_ms : jsval) : number :=
  plus (slideshowMs t) (endCardDurMs end_card_duration_ms).

(** *** Subtitle events *)

Definition pad2 (n : Z) : jsstring := padStart2 (digitsOf (Z.to_N n)).

Definition msToAssTime (ms : Z) : jsstring :=
  let t := Z.max 0 ms in
  let cs := t / 10 in
  let hh := cs / 360000 in
  let mm := (cs mod 360000) / 6000 in
  let ss := (cs mod 6000) / 100 in
  let cc := cs mod 100 in
  digitsOf (Z.to_N hh) ++ str ":" ++ pad2 mm ++ str ":" ++ pad2 ss ++ str "." ++ pad2 cc.

Definition titleMaxCharsPerLine : Z := 12.
Definition titleMaxLines : Z := 6.
Definition capMaxCharsPerLine : Z := 18.
Definition capMaxLines : Z := 5.

Definition LF : jsstring := [10%N].

(** The text appended to [ass] for the caption of index [i]. *)
Definition dialogue (slideTag : jsstring) (i : nat) (c : caption) : jsstring :=
  let start := msToAssTime (start_ms c) in
  let end_ := msToAssTime (end_ms c) in
  let raw := assEscape (JString (text c)) in
  match i with
  | O =>
      let wrapped := wrapByChars (JString raw) titleMaxCharsPerLine titleMaxLines in
      str "Dialogue: 0," ++ start ++ str "," ++ end_ ++ str ",Title,,0,0,0,,"
        ++ slideTag ++ wrapped ++ LF
  | _ =>
      let wrapped := wrapByChars (JString raw) capMaxCharsPerLine capMaxLines in
      str "Dialogue: 0," ++ start ++ str "," ++ end_ ++ str ",Caption,,0,0,0,,"
        ++ slideTag ++ wrapped ++ LF
  end.

Definition dialogues (slideTag : jsstring) (scaledCaptions : list caption) : list jsstring :=
  imap (dialogue slideTag) scaledCaptions.

(** [ass] after the loop. *)
Definition assText (header slideTag : jsstring) (scaledCaptions : list caption) : jsstring :=
  header ++ concat (dialogues slideTag scaledCaptions).

(** *** Crossfade *)

(** The literals [0.30] and [0.001]: the doubles nearest to 3/10 and
    1/1000. *)
Definition xfadeDur : Double.double :=
  Eval vm_compute in Double.div (Double.ofZ 3) (Double.ofZ 10).

Definition ms0_001 : Double.double :=
  Eval vm_compute in Double.div (Double.ofZ 1) (Double.ofZ 1000).

(** [Math.ceil(xfadeDur * 1000) + 1] *)
Definition xfadeGuard : Z :=
  Double.toZ (Double.ceil (Double.mul xfadeDur (Double.ofZ 1000))) + 1.

Definition safeSeg1 (t : timing) : Z := Z.max (seg1 t) xfadeGuard.
Definition safeSeg2 (t : timing) : Z := Z.max (seg2 t) xfadeGuard.
Definition safeSeg3 (t : timing) : Z := Z.max (seg3 t) xfadeGuard.
Definition safeSeg4 (t : timing) : Z := Z.max (seg4 t) 1.

(** [x / 1000] *)
Definition seconds (ms : Z) : Double.double :=
  Double.div (Double.ofZ ms) (Double.ofZ 1000).

Definition off1 (t : timing) : Double.double :=
  Double.max ms0_001 (Double.sub (seconds (safeSeg1 t)) xfadeDur).

Definition off2 (t : timing) : Double.double :=
  Double.max ms0_001
    (Double.sub (seconds (safeSeg1 t + safeSeg2 t))
                (Double.mul (Double.ofZ 2) xfadeDur)).

Definition off3 (t : timing) : Double.double :=
  Double.max ms0_001
    (Double.sub (seconds (safeSeg1 t + safeSeg2 t + safeSeg3 t))
                (Double.mul (Double.ofZ 3) xfadeDur)).

(** ** The statements under verification, where they need a definition *)

(** The floor of the normalizer as the specification words it, on the exact
    quotient [T / N]: 80 when the quotient is at most 0, the larger of 80
    and the quotient rounded down when 600 exceeds it, and 600 otherwise. *)
Definition specMinSegFloor (T : Z) (N : positive) : Z :=
  let q := Qmake T N in
  if Qle_bool q (inject_Z 0) then 80
  else if negb (Qle_bool (inject_Z 600) q) then Z.max 80 (Qfloor q)
  else 600.

(** Crossfade offset [k] as the specification writes it, on exact
    rationals: [max(0.001, sumMs / 1000 - k * 0.30)] seconds, [sumMs] being
    the sum of the first [k] guarded durations. *)
Definition exactOffset (k : Z) (sumMs : Z) : Q :=
  Qmax (1 # 1000)%Q ((sumMs # 1000) - inject_Z k * (3 # 10))%Q.

(** The non-empty words of a text, in order. *)
Definition wordsOf (t : jsstring) : list jsstring :=
  filter (fun w => Is_true (nonEmpty w)) (split SPACE t).

(** The result of the normalizer as the array of objects a caller would
    pass back in. *)
Definition captionToJs (c : caption) : jsval :=
  JObject [ (str "start_ms", JNumber (Finite (start_ms c)));
            (str "end_ms", JNumber (Finite (end_ms c)));
            (str "text", JString (text c)) ].

Definition captionsToJs (out : list caption) : jsval :=
  JArray (captionToJs <$> out).

(** Each entry ends where the next one starts. *)
Fixpoint contiguous (out : list caption) : Prop :=
  match out with
  | c :: ((c' :: _) as rest) => end_ms c = start_ms c' /\ contiguous rest
  | _ => True
  end.

(** The sum of the durations [end_ms - start_ms]. *)
Definition totalDuration (out : list caption) : Z :=
  foldr (fun c acc => (end_ms c - start_ms c) + acc) 0 out.

(** [Number.MAX_SAFE_INTEGER + 1] *)
Definition safeBound : Z := 2 ^ 53.

(** The planner's contract as the claim C5 words it: four durations of at
    least 1 ms; with seven captions or more the boundaries are the ends of
    captions 1, 3, 5 and 7; otherwise three parts [floor(total / 4)] and a
    fourth one taking the remainder. *)
Definition plannerContract (scaledCaptions : list caption) (total : Z) : Prop :=
  let t := planSegments scaledCaptions total in
  (1 <= seg1 t /\ 1 <= seg2 t /\ 1 <= seg3 t /\ 1 <= seg4 t)
  /\ ((7 <= length scaledCaptions)%nat ->
      exists c0 c2 c4 c6,
        scaledCaptions !! 0%nat = Some c0 /\ scaledCaptions !! 2%nat = Some c2 /\
        scaledCaptions !! 4%nat = Some c4 /\ scaledCaptions !! 6%nat = Some c6 /\
        seg1 t = Z.max 1 (end_ms c0) /\
        seg2 t = Z.max 1 (end_ms c2 - end_ms c0) /\
        seg3 t = Z.max 1 (end_ms c4 - end_ms c2) /\
        seg4 t = Z.max 1 (end_ms c6 - end_ms c4) /\
        end_ms c6 <= effectiveMs t /\ total <= effectiveMs t)
  /\ ((length scaledCaptions < 7)%nat ->
      seg1 t = total / 4 /\ seg2 t = total / 4 /\ seg3 t = total / 4 /\
      seg4 t = total - 3 * (total / 4)).

(** The durations of the render plan as the claim C3 words them: the
    slideshow lasts as long as the four guarded segments together, and the
    total adds the clamped end-card duration. *)
Definition durationContract (t : timing) (end_card_duration_ms : jsval) : Prop :=
  slideshowMs t = safeSeg1 t + safeSeg2 t + safeSeg3 t + safeSeg4 t
  /\ totalMs t end_card_duration_ms
     = plus (slideshowMs t) (endCardDurMs end_card_duration_ms).

(** The result of the normalizer for a known target [T] as the claim C1
    words it: durations that sum to [T], a first entry starting at 0, a
    last entry ending at [T], contiguous entries, and times that never go
    backwards (no negative duration). *)
Definition fillsTarget (out : list caption) (T : Z) : Prop :=
  totalDuration out = T
  /\ (exists c, head out = Some c /\ start_ms c = 0)
  /\ (exists c, last out = Some c /\ end_ms c = T)
  /\ contiguous out
  /\ Forall (fun c => 0 <= end_ms c - start_ms c) out.

(** A raw caption object. *)
Definition rawCaption (start_ms end_ms : Z) (text : string) : jsval :=
  JObject [ (str "start_ms", JNumber (Finite start_ms));
            (str "end_ms", JNumber (Finite end_ms));
            (str "text", JString (str text)) ].

(** Normalizing the result again, against its own total duration, gives
    the result back: the idempotence the claim C7 words. *)
Definition renormalizes (captions : jsval) (audioMs : number) : Prop :=
  forall out,
    normalizeAndScaleCaptions captions audioMs = Some out ->
    normalizeAndScaleCaptions (captionsToJs out) (Finite (totalDuration out))
    = Some out.

(** The normalizer returns a list: it does not throw, as the claim C8
    words it. *)
Definition returnsList (captions : jsval) (audioMs : number) : Prop :=
  exists out, normalizeAndScaleCaptions captions audioMs = Some out.

(** Every word of the collapsed and trimmed text occurs in the returned
    text: the reading of "no text is ever lost" that asks least. *)
Definition keepsEveryWord (text : jsval) (maxCharsPerLine maxLines : Z) : Prop :=
  let t := trim (collapseWhiteSpace (toString (orElse text (JString [])))) in
  forall w, w ∈ wordsOf t ->
            includes (wrapByChars text maxCharsPerLine maxLines) w = true.

(** ** The inputs the model reads as the code does *)

(** [Number.isSafeInteger(z)] *)
Definition safeInteger (z : Z) : bool := (- safeBound <? z) && (z <? safeBound).

(** Decimal digits, one at least, of a value below 2^53. *)
Definition plainDigits (r : jsstring) : bool :=
  nonEmpty r
  && match digitsValue 0 r with Some z => z <? safeBound | None => false end.

(** A string that [stringToNumber] reads as [Number] does: once trimmed
    it holds no digit at all (it is then blank, an infinity or not a
    number), or it is a plain decimal integer, signed or not, below 2^53 in
    magnitude. *)
Definition plainNumeric (s : jsstring) : bool :=
  let t := trim s in
  forallb (fun c => negb (isDigit c)) t
  || match t with
     | 43%N :: r => plainDigits r
     | 45%N :: r => plainDigits r
     | _ => plainDigits t
     end.

(** A [start_ms] or [end_ms] that is read exactly: no array, no object
    with an own [toString], no number other than a safe integer, no string
    other than a plain one. *)
Definition exactTime (v : jsval) : bool :=
  match v with
  | JNumber (Finite z) => safeInteger z
  | JString s => plainNumeric s
  | JArray _ => false
  | JObject props => negb (hasOwn props (str "toString"))
  | _ => true
  end.

(** A [text] that is read exactly. *)
Definition exactText (v : jsval) : bool :=
  match v with
  | JNumber (Finite z) => safeInteger z
  | JArray _ => false
  | JObject props => negb (hasOwn props (str "toString"))
  | _ => true
  end.

(** An entry of the request that is read exactly. *)
Definition exactEntry (c : jsval) : bool :=
  exactTime (optGet c (str "start_ms"))
  && exactTime (optGet c (str "end_ms"))
  && exactText (optGet c (str "text")).

(** The bound under which the sums of the normalizer are exact with room
    to spare: 2^40 ms, about 34 years. *)
Definition msBound : Z := 2 ^ 40.

(** One of the three conversions of the entry throws. *)
Definition entryThrows (c : jsval) : bool :=
  conversionThrows (optGet c (str "start_ms"))
  || conversionThrows (optGet c (str "end_ms"))
  || conversionThrows (optGet c (str "text")).

(** One of the conversions of the loop throws. *)
Definition throwsOn (captions : jsval) : bool :=
  match captions with
  | JArray elems => existsb entryThrows elems
  | _ => false
  end.

(** The entry as the loop reads it when no conversion throws. *)
Definition kept (c : jsval) : option item :=
  keepOrSkip (toNumber (optGet c (str "start_ms")))
             (toNumber (optGet c (str "end_ms")))
             (trim (toString (orElse (optGet c (str "text")) (JString [])))).

(** The items the loop collects when no conversion throws. *)
Definition keptItems (captions : list jsval) : list item := omap kept captions.

(** ** Vocabulary of the proofs *)

(** No white space at the start. *)
Definition noLeadingSpace (s : jsstring) : Prop :=
  match s with
  | [] => True
  | c :: _ => isWhiteSpace c = false
  end.

(** No white space at the end. *)
Definition noTrailingSpace (s : jsstring) : Prop :=
  match last s with
  | Some c => isWhiteSpace c = false
  | None => True
  end.

(** A white-space code unit is never followed by another one. *)
Fixpoint noDoubleSpace (s : jsstring) : Prop :=
  match s with
  | [] => True
  | c :: r => (isWhiteSpace c = true -> noLeadingSpace r) /\ noDoubleSpace r
  end.

(** The only white space left is the space character. *)
Definition onlySpaces (s : jsstring) : Prop :=
  Forall (fun c => isWhiteSpace c = true -> c = SPACE) s.

(** A word: not empty, no white space inside. *)
Definition goodWord (w : jsstring) : Prop :=
  w <> [] /\ Forall (fun c => isWhiteSpace c = false) w.

(** The shape of the text [t] that [wrapByChars] splits. *)
Record tidy (t : jsstring) : Prop := Tidy {
  tidy_lead : noLeadingSpace t;
  tidy_trail : noTrailingSpace t;
  tidy_double : noDoubleSpace t;
  tidy_only : onlySpaces t
}.

(** The line made of the given words. *)
Definition lineOf (ws : list jsstring) : jsstring := join (str " ") ws.

(** A line of the wrapper: one word or more. *)
Definition goodLine (ws : list jsstring) : Prop :=
  ws <> [] /\ Forall goodWord ws.

(** What the filter guarantees of every item it keeps. *)
Definition keptItem (it : item) : Prop :=
  0 < dur_ms it /\ nonEmpty (text_of it) = true /\ trim (text_of it) = text_of it.

(** The item a caption of the result is read back as. *)
Definition toItem (c : caption) : item := Item (text c) (end_ms c - start_ms c).

(** The scaling step when the factor is 1.0. *)
Definition raise (minSegMs : Z) (x : item) : item :=
  Item (text_of x) (Z.max minSegMs (dur_ms x)).

(** What every pass preserves. *)
Record passInv (floor_ : Z) (scaled : list item) (over : Z)
    (scaled' : list item) (over' : Z) : Prop := PassInv {
  pass_length : length scaled' = length scaled;
  pass_texts : text_of <$> scaled' = text_of <$> scaled;
  pass_balance : sumDur scaled' - over' = sumDur scaled - over;
  pass_over : 0 <= over' <= over;
  pass_lower : forall lb, lb <= floor_ ->
      Forall (fun x => lb <= dur_ms x) scaled ->
      Forall (fun x => lb <= dur_ms x) scaled';
  pass_decreases : forall j y', scaled' !! j = Some y' ->
      exists y, scaled !! j = Some y /\ dur_ms y' <= dur_ms y
}.


(** ** Vocabulary of the further properties *)




(** The duration of a caption of the result. *)
Definition durationOf (c : caption) : Z := end_ms c - start_ms c.

(** A line is within the budget of [B] code units, or it is one word. *)
Definition lineWithin (B : Z) (ws : list jsstring) : Prop :=
  len (lineOf ws) <= B \/ length ws = 1%nat.

(** The word [w] does not fit the line made of the words [ws]. *)
Definition overflows (B : Z) (ws : list jsstring) (w : jsstring) : Prop :=
  B < len (lineOf (ws ++ [w])).

(** Every line but the last is full: the first word of the line after it
    did not fit it. *)
Fixpoint greedy (B : Z) (lws : list (list jsstring)) : Prop :=
  match lws with
  | l :: ((l' :: _) as rest) =>
      (forall w, head l' = Some w -> overflows B l w) /\ greedy B rest
  | _ => True
  end.

(** What the three replacements of [assEscape], one after the other, make
    of one code unit: a backslash before a backslash or a brace. *)
Definition escapeUnit (c : N) : jsstring :=
  if ((c =? 92) || (c =? 123) || (c =? 125))%N then [92%N; c] else [c].

(** No white space at all. *)
Definition spaceFree (w : jsstring) : Prop :=
  Forall (fun c => isWhiteSpace c = false) w.

(** Every brace of [s] comes right after a backslash. *)
Definition bracesGuarded (s : jsstring) : Prop :=
  forall (before after : jsstring) (c : N),
    s = before ++ c :: after -> c = 123%N \/ c = 125%N ->
    exists before', before = before' ++ [92%N].

(** Splits a goal into its conjuncts. *)
Ltac conjuncts := repeat match goal with |- _ /\ _ => split end.

(** * Verification *)

(** ** The minimum-segment floor *)

Lemma Qle_bool_frac_0 (T : Z) (N : positive) :
  Qle_bool (Qmake T N) (inject_Z 0) = (T <=? 0).
Proof.
  unfold Qle_bool, inject_Z; simpl.
  rewrite Z.mul_1_r. reflexivity.
Qed.

Lemma Qle_bool_600_frac (T : Z) (N : positive) :
  Qle_bool (inject_Z 600) (Qmake T N) = (600 * Zpos N <=? T).
Proof.
  unfold Qle_bool, inject_Z; simpl.
  rewrite Z.mul_1_r. reflexivity.
Qed.

(** C4: for every target T and every entry count N >= 1 the floor computed
    by the normalizer is the one the specification describes: 600 by
    default, 80 when T / N is at most 0, and max(80, floor(T / N)) when
    600 > T / N. *)
Theorem minSegMs_matches_spec (T : Z) (N : positive) :
  minSegMsFor T (Zpos N) = specMinSegFloor T N.
Proof.
  unfold minSegMsFor, specMinSegFloor.
  rewrite Qle_bool_frac_0, Qle_bool_600_frac.
  change (Qfloor (Qmake T N)) with (T / Zpos N).
  pose proof (Pos2Z.is_pos N) as HN.
  destruct (Z.leb_spec (T / Zpos N) 0) as [Hq | Hq];
    destruct (Z.leb_spec T 0) as [HT | HT]; simpl.
  - reflexivity.
  - assert (T / Zpos N = 0) as Hz.
    { apply Z.le_antisymm; [assumption | apply Z.div_pos; lia]. }
    destruct (Z.leb_spec (600 * Zpos N) T) as [H6 | H6]; simpl.
    + apply Z.div_small_iff in Hz; lia.
    + rewrite Hz. reflexivity.
  - exfalso.
    assert (T / Zpos N <= 0); [ | lia].
    apply Z.div_le_upper_bound; lia.
  - destruct (Z.leb_spec (600 * Zpos N) T) as [H6 | H6]; simpl.
    + assert (600 <= T / Zpos N) by (apply Z.div_le_lower_bound; lia).
      destruct (Z.gtb_spec 600 (T / Zpos N)); [lia | reflexivity].
    + assert (T / Zpos N < 600) by (apply Z.div_lt_upper_bound; lia).
      destruct (Z.gtb_spec 600 (T / Zpos N)); [reflexivity | lia].
Qed.

(** ** The whole-input guard of the normalizer *)

(** C9: a [captions] argument that is not an array makes the normalizer
    return the empty list, whatever the target duration. *)
Theorem not_array_gives_empty (captions : jsval) (audioMs : number) :
  isArray captions = false ->
  normalizeAndScaleCaptions captions audioMs = Some [].
Proof.
  destruct captions; simpl; intros H; try reflexivity; discriminate H.
Qed.

Lemma not_array_gives_empty_witness :
  normalizeAndScaleCaptions (JString (str "captions")) (Finite 4000) = Some []
  /\ normalizeAndScaleCaptions JNull NaN = Some [].
Proof.
  split; apply not_array_gives_empty; reflexivity.
Defined.

(** ** The effective audio length *)

Lemma layOut_last_end_pos (items : list item) (cur : Z) (c : caption) :
  0 <= cur -> last (layOut cur items) = Some c -> 0 < end_ms c.
Proof.
  revert cur; induction items as [ | it rest IH]; intros cur Hcur; simpl.
  - discriminate.
  - destruct rest as [ | it' rest'].
    + simpl. intros [= <-]. simpl. unfold Math_round. lia.
    + intros H. apply (IH (cur + Z.max 1 (Math_round (dur_ms it)))).
      * unfold Math_round. lia.
      * exact H.
Qed.

(** C10: when the probed audio duration is unknown or not positive, the
    length handed to the segment planner is the end time of the last
    normalized caption when that is positive, and 15000 ms when the
    normalized list is empty. *)
Theorem effectiveAudioMs_fallback (audioMs : number) (scaledCaptions : list caption) :
  knownPositive audioMs = false ->
  (scaledCaptions = [] -> effectiveAudioMs audioMs scaledCaptions = 15000)
  /\ (forall c, last scaledCaptions = Some c -> 0 < end_ms c ->
        effectiveAudioMs audioMs scaledCaptions = end_ms c).
Proof.
  intros Hk. unfold effectiveAudioMs. rewrite Hk. simpl. split.
  - intros ->. reflexivity.
  - intros c -> Hpos. unfold Math_round.
    destruct (Z.gtb_spec (end_ms c) 0); [reflexivity | lia].
Qed.

Lemma effectiveAudioMs_fallback_witness :
  effectiveAudioMs NaN [] = 15000
  /\ effectiveAudioMs (Finite 0)
       [Caption 0 700 (str "a"); Caption 700 1900 (str "b")] = 1900.
Proof.
  split.
  - destruct (effectiveAudioMs_fallback NaN [] eq_refl) as [H _].
    apply H. reflexivity.
  - destruct (effectiveAudioMs_fallback (Finite 0)
                [Caption 0 700 (str "a"); Caption 700 1900 (str "b")]
                eq_refl) as [_ H].
    apply (H (Caption 700 1900 (str "b"))).
    + reflexivity.
    + simpl. lia.
Defined.

(** In the handler the list comes from the normalizer run with the same
    [audioMs]; its last end time is then always positive, so the constant
    is used for the empty list only. *)
Lemma effectiveAudioMs_of_normalized (captions : jsval) (audioMs : number)
    (scaledCaptions : list caption) :
  knownPositive audioMs = false ->
  normalizeAndScaleCaptions captions audioMs = Some scaledCaptions ->
  effectiveAudioMs audioMs scaledCaptions =
    match last scaledCaptions with
    | Some c => end_ms c
    | None => 15000
    end.
Proof.
  intros Hk Hn. unfold effectiveAudioMs. rewrite Hk. simpl.
  destruct (last scaledCaptions) as [c | ] eqn:Hlast; [ | reflexivity].
  assert (0 < end_ms c) as Hpos.
  { unfold normalizeAndScaleCaptions in Hn.
    destruct captions; try (injection Hn as <-; discriminate Hlast).
    destruct (collectItems elems) as [items | ]; [ | discriminate Hn].
    simpl in Hn. unfold resize in Hn. rewrite Hk in Hn. simpl in Hn.
    destruct (bool_decide _) in Hn.
    - injection Hn as <-. discriminate Hlast.
    - injection Hn as <-. eapply layOut_last_end_pos; [ | exact Hlast]. lia. }
  unfold Math_round. destruct (Z.gtb_spec (end_ms c) 0); [reflexivity | lia].
Qed.

(** ** The segment planner *)

Lemma planSegments_short (scaledCaptions : list caption) (total : Z) :
  (length scaledCaptions < 7)%nat ->
  planSegments scaledCaptions total =
    Timing (Z.max 1 (total / 4)) (Z.max 1 (total / 4)) (Z.max 1 (total / 4))
           (Z.max 1 (total - Z.max 1 (total / 4) - Z.max 1 (total / 4)
                     - Z.max 1 (total / 4)))
           total.
Proof.
  intros Hlen.
  do 7 (destruct scaledCaptions as [ | ? scaledCaptions]; [reflexivity | ]).
  simpl in Hlen. lia.
Qed.

Lemma planSegments_long (scaledCaptions : list caption) (total : Z) :
  (7 <= length scaledCaptions)%nat ->
  exists c0 c2 c4 c6,
    scaledCaptions !! 0%nat = Some c0 /\ scaledCaptions !! 2%nat = Some c2 /\
    scaledCaptions !! 4%nat = Some c4 /\ scaledCaptions !! 6%nat = Some c6 /\
    planSegments scaledCaptions total =
      Timing (Z.max 1 (end_ms c0)) (Z.max 1 (end_ms c2 - end_ms c0))
             (Z.max 1 (end_ms c4 - end_ms c2)) (Z.max 1 (end_ms c6 - end_ms c4))
             (Z.max total (end_ms c6)).
Proof.
  intros Hlen.
  do 7 (destruct scaledCaptions as [ | ? scaledCaptions]; [simpl in Hlen; lia | ]).
  eexists _, _, _, _. repeat split.
Qed.

Lemma planSegments_positive (scaledCaptions : list caption) (total : Z) :
  let t := planSegments scaledCaptions total in
  1 <= seg1 t /\ 1 <= seg2 t /\ 1 <= seg3 t /\ 1 <= seg4 t.
Proof.
  intros t. subst t.
  destruct (Nat.lt_ge_cases (length scaledCaptions) 7) as [Hs | Hl].
  - rewrite (planSegments_short _ _ Hs). simpl. lia.
  - destruct (planSegments_long _ total Hl) as (c0 & c2 & c4 & c6 & _ & _ & _ & _ & ->).
    simpl. lia.
Qed.

(** C5, as stated, fails for a fallback total below 4 ms: the three parts
    are raised to 1 ms and are not [floor(total / 4) = 0], and the fourth
    one is 1 ms as well instead of the remainder, so that the four
    durations add up to more than the total. *)
Lemma plannerContract_fails_below_4ms :
  ~ plannerContract [] 2
  /\ planSegments [] 2 = Timing 1 1 1 1 2.
Proof.
  split; [ | reflexivity].
  unfold plannerContract. intros (_ & _ & H).
  specialize (H ltac:(simpl; lia)). destruct H as (H1 & _).
  vm_compute in H1. discriminate H1.
Qed.

(** C5, amended: four durations of at least 1 ms; with seven captions or
    more they are the differences of the ends of captions 1, 3, 5 and 7,
    each raised to 1 ms, and the timeline is extended to the end of caption
    7; otherwise the first three are [max(1, floor(total / 4))] and the
    fourth is [max(1, total - seg1 - seg2 - seg3)], which for a total of
    4 ms or more is three parts [floor(total / 4)] and the remainder. *)
Theorem planSegments_contract (scaledCaptions : list caption) (total : Z) :
  let t := planSegments scaledCaptions total in
  (1 <= seg1 t /\ 1 <= seg2 t /\ 1 <= seg3 t /\ 1 <= seg4 t)
  /\ ((7 <= length scaledCaptions)%nat ->
      exists c0 c2 c4 c6,
        scaledCaptions !! 0%nat = Some c0 /\ scaledCaptions !! 2%nat = Some c2 /\
        scaledCaptions !! 4%nat = Some c4 /\ scaledCaptions !! 6%nat = Some c6 /\
        seg1 t = Z.max 1 (end_ms c0) /\
        seg2 t = Z.max 1 (end_ms c2 - end_ms c0) /\
        seg3 t = Z.max 1 (end_ms c4 - end_ms c2) /\
        seg4 t = Z.max 1 (end_ms c6 - end_ms c4) /\
        end_ms c6 <= effectiveMs t /\ total <= effectiveMs t)
  /\ ((length scaledCaptions < 7)%nat ->
      seg1 t = Z.max 1 (total / 4) /\ seg2 t = Z.max 1 (total / 4) /\
      seg3 t = Z.max 1 (total / 4) /\
      seg4 t = Z.max 1 (total - seg1 t - seg2 t - seg3 t) /\
      effectiveMs t = total /\
      (4 <= total ->
       seg1 t = total / 4 /\ seg2 t = total / 4 /\ seg3 t = total / 4 /\
       seg4 t = total - 3 * (total / 4) /\
       seg1 t + seg2 t + seg3 t + seg4 t = total)).
Proof.
  intros t. subst t. split; [ | split].
  - apply planSegments_positive.
  - intros Hl.
    destruct (planSegments_long _ total Hl) as (c0 & c2 & c4 & c6 & H0 & H2 & H4 & H6 & ->).
    exists c0, c2, c4, c6. simpl. repeat split; try assumption; lia.
  - intros Hs. rewrite (planSegments_short _ _ Hs). simpl.
    do 5 (split; [reflexivity | ]).
    intros H4.
    pose proof (Z.div_le_lower_bound total 4 1 ltac:(lia) ltac:(lia)).
    pose proof (Z.mul_div_le total 4 ltac:(lia)).
    lia.
Qed.

Lemma planSegments_contract_witness :
  let t := planSegments [] 15000 in
  seg1 t = 3750 /\ seg2 t = 3750 /\ seg3 t = 3750 /\ seg4 t = 3750.
Proof.
  destruct (planSegments_contract [] 15000) as (_ & _ & H).
  specialize (H ltac:(simpl; lia)).
  destruct H as (_ & _ & _ & _ & _ & H).
  specialize (H ltac:(lia)).
  destruct H as (H1 & H2 & H3 & H4 & _).
  simpl. split; [exact H1 | split; [exact H2 | split; [exact H3 | exact H4]]].
Defined.

(** ** Slideshow and total duration *)

Lemma xfadeGuard_value : xfadeGuard = 301.
Proof. vm_compute. reflexivity. Qed.

(** C3, as stated, fails whenever one of the first three segments is
    shorter than 301 ms: the slideshow duration is computed from the
    planned durations, before the guard is applied. *)
Lemma durationContract_fails_short_segments :
  ~ durationContract (planSegments [] 400) (JNumber (Finite 4000)).
Proof.
  unfold durationContract. intros [H _].
  vm_compute in H. discriminate H.
Qed.

(** C3, amended: the slideshow duration is the sum of the four planned
    segment durations, not of the guarded ones (segments 1 to 3 raised to
    301 ms, segment 4 as planned); it never exceeds the sum of the guarded
    durations and equals it exactly when segments 1 to 3 last 301 ms or
    more.  The total duration is the slideshow duration plus the clamped
    end-card duration: [max(0, z)] for an end-card duration given as the
    integer number [z], and the default of 4000 ms when the request gives
    none. *)
Theorem slideshow_and_total_duration (scaledCaptions : list caption)
    (total z : Z) :
  let t := planSegments scaledCaptions total in
  slideshowMs t = seg1 t + seg2 t + seg3 t + seg4 t
  /\ safeSeg1 t + safeSeg2 t + safeSeg3 t + safeSeg4 t
     = Z.max (seg1 t) 301 + Z.max (seg2 t) 301 + Z.max (seg3 t) 301 + seg4 t
  /\ slideshowMs t <= safeSeg1 t + safeSeg2 t + safeSeg3 t + safeSeg4 t
  /\ (slideshowMs t = safeSeg1 t + safeSeg2 t + safeSeg3 t + safeSeg4 t
      <-> 301 <= seg1 t /\ 301 <= seg2 t /\ 301 <= seg3 t)
  /\ totalMs t (end_card_duration_ms (JNumber (Finite z)))
     = Finite (seg1 t + seg2 t + seg3 t + seg4 t + Z.max 0 z)
  /\ totalMs t (end_card_duration_ms JUndefined)
     = Finite (seg1 t + seg2 t + seg3 t + seg4 t + 4000).
Proof.
  intros t.
  destruct (planSegments_positive scaledCaptions total) as (H1 & H2 & H3 & H4).
  fold t in H1, H2, H3, H4.
  assert (slideshowMs t = seg1 t + seg2 t + seg3 t + seg4 t) as Hshow
    by (unfold slideshowMs, Math_round; lia).
  unfold safeSeg1, safeSeg2, safeSeg3, safeSeg4. rewrite xfadeGuard_value.
  split; [exact Hshow | ].
  split; [lia | ].
  split; [lia | ].
  split; [lia | ].
  unfold totalMs, endCardDurMs, end_card_duration_ms, plus, Math_round. simpl.
  rewrite Hshow. split; reflexivity.
Qed.

Lemma slideshow_and_total_duration_witness :
  slideshowMs (planSegments [] 400) = 400
  /\ safeSeg1 (planSegments [] 400) + safeSeg2 (planSegments [] 400)
     + safeSeg3 (planSegments [] 400) + safeSeg4 (planSegments [] 400) = 1003
  /\ totalMs (planSegments [] 400) (end_card_duration_ms (JNumber (Finite (-5))))
     = Finite 400
  /\ totalMs (planSegments [] 400) (end_card_duration_ms JUndefined) = Finite 4400.
Proof.
  destruct (slideshow_and_total_duration [] 400 (-5)) as (H1 & H2 & _ & _ & H5 & H6).
  split; [rewrite H1; reflexivity | ].
  split; [rewrite H2; reflexivity | ].
  split; [rewrite H5; reflexivity | rewrite H6; reflexivity].
Defined.

(** ** Binary64 facts used by the crossfade offsets *)

Section RoundNotNan.

Lemma shr_1_nonneg (r : shr_record) :
  0 <= shr_m r -> 0 <= shr_m (shr_1 r).
Proof.
  destruct r as [m r s]. simpl.
  destruct m as [ | p | p]; [ | destruct p | ]; simpl; lia.
Qed.

Lemma iter_pos_shr_1_nonneg (p : positive) (r : shr_record) :
  0 <= shr_m r -> 0 <= shr_m (SpecFloat.iter_pos shr_1 p r).
Proof.
  revert r. induction p as [p IH | p IH | ]; intros r Hr; simpl.
  - apply IH, IH, shr_1_nonneg, Hr.
  - apply IH, IH, Hr.
  - apply shr_1_nonneg, Hr.
Qed.

Lemma shr_fexp_nonneg (m e : Z) (l : location) :
  0 <= m -> 0 <= shr_m (fst (shr_fexp Double.prec Double.emax m e l)).
Proof.
  intros Hm. unfold shr_fexp, shr.
  assert (shr_m (shr_record_of_loc m l) = m) as Hrec.
  { destruct l as [ | [ | | ]]; reflexivity. }
  destruct (fexp _ _ _ - e) as [ | p | p]; simpl; try lia.
  apply iter_pos_shr_1_nonneg. lia.
Qed.

Lemma round_nearest_even_nonneg (m : Z) (l : location) :
  0 <= m -> 0 <= round_nearest_even m l.
Proof.
  intros Hm. unfold round_nearest_even.
  destruct l as [ | [ | | ]]; try lia.
  destruct (Z.even m); lia.
Qed.

Lemma binary_round_aux_not_nan (s : bool) (m e : Z) (l : location) :
  0 <= m -> binary_round_aux Double.prec Double.emax s m e l <> S754_nan.
Proof.
  intros Hm. unfold binary_round_aux.
  pose proof (shr_fexp_nonneg m e l Hm) as H1.
  destruct (shr_fexp Double.prec Double.emax m e l) as [mrs' e'].
  simpl in H1.
  pose proof (shr_fexp_nonneg _ e' loc_Exact
                (round_nearest_even_nonneg _ (loc_of_shr_record mrs') H1)) as H2.
  destruct (shr_fexp Double.prec Double.emax _ e' loc_Exact) as [mrs'' e''].
  simpl in H2.
  destruct (shr_m mrs'') as [ | p | p]; try discriminate; try lia.
  destruct (e'' <=? _); discriminate.
Qed.

End RoundNotNan.

Lemma ofZ_not_nan (z : Z) : Double.ofZ z <> S754_nan.
Proof.
  unfold Double.ofZ, binary_normalize, binary_round.
  destruct z as [ | p | p]; try discriminate.
  - destruct (shl_align _ _ _) as [mz ez]. apply binary_round_aux_not_nan. lia.
  - destruct (shl_align _ _ _) as [mz ez]. apply binary_round_aux_not_nan. lia.
Qed.

Lemma div_by_finite_not_nan (x : Double.double) (m : positive) (e : Z) :
  x <> S754_nan -> Double.div x (S754_finite false m e) <> S754_nan.
Proof.
  intros Hx. unfold Double.div, SFdiv.
  destruct x as [sx | sx | | sx mx ex]; try discriminate; try contradiction.
  unfold SFdiv_core_binary.
  set (m' := match _ - _ - _ with Z0 => Zpos mx | Zpos _ => _ | Zneg _ => 0 end).
  assert (0 <= m') as Hm'.
  { subst m'. destruct (_ - _ - _); try lia. apply Z.shiftl_nonneg. lia. }
  pose proof (Z_div_mod m' (Zpos m) ltac:(lia)) as Hdm.
  destruct (Z.div_eucl m' (Zpos m)) as [q r].
  apply binary_round_aux_not_nan. nia.
Qed.

Lemma sub_finite_not_nan (x : Double.double) (m : positive) (e : Z) :
  x <> S754_nan -> Double.sub x (S754_finite false m e) <> S754_nan.
Proof.
  intros Hx. unfold Double.sub, SFsub.
  destruct x as [sx | sx | | sx mx ex]; try discriminate; try contradiction.
  unfold binary_normalize, binary_round.
  destruct (_ - _) as [ | p | p]; try discriminate.
  - destruct (shl_align _ _ _) as [mz ez]. apply binary_round_aux_not_nan. lia.
  - destruct (shl_align _ _ _) as [mz ez]. apply binary_round_aux_not_nan. lia.
Qed.

(** [Math.max] with a positive finite constant on the left is at least
    that constant, hence above zero. *)
Lemma max_with_positive (m : positive) (e : Z) (x : Double.double) :
  x <> S754_nan ->
  SFleb (S754_finite false m e) (Double.max (S754_finite false m e) x) = true
  /\ Double.isPositive (Double.max (S754_finite false m e) x) = true.
Proof.
  intros Hx. unfold Double.max, Double.isPositive, SFleb, SFltb.
  destruct x as [sx | sx | | sx mx ex]; try contradiction.
  - destruct sx; simpl; rewrite Z.compare_refl, Pos.compare_cont_refl; split; reflexivity.
  - destruct sx; simpl; try rewrite Z.compare_refl, Pos.compare_cont_refl; split; reflexivity.
  - destruct (SFcompare (S754_finite false m e) (S754_finite sx mx ex)) as [[ | | ] | ] eqn:Hc.
    + simpl. rewrite Z.compare_refl, Pos.compare_cont_refl. split; reflexivity.
    + rewrite Hc. split; [reflexivity | ].
      destruct sx; [simpl in Hc; discriminate Hc | reflexivity].
    + simpl. rewrite Z.compare_refl, Pos.compare_cont_refl. split; reflexivity.
    + simpl in Hc. destruct sx; discriminate Hc.
Qed.

(** ** Crossfade offsets *)

Lemma offset_ok (ms : Z) (m : positive) (e : Z) :
  let off := Double.max ms0_001 (Double.sub (seconds ms) (S754_finite false m e)) in
  SFleb ms0_001 off = true /\ Double.isPositive off = true.
Proof.
  apply max_with_positive, sub_finite_not_nan.
  unfold seconds. apply (div_by_finite_not_nan _ 8796093022208000 (-43)), ofZ_not_nan.
Qed.

(** ** The caption normalizer: arithmetic of the adjustment loops *)

Section SumDur.

Lemma fold_left_add_shift {A} (f : A -> Z) (l : list A) (a : Z) :
  fold_left (fun acc x => acc + f x) l a = a + fold_left (fun acc x => acc + f x) l 0.
Proof.
  revert a. induction l as [ | x l IH]; intros a; simpl.
  - lia.
  - rewrite (IH (a + f x)), (IH (0 + f x)). lia.
Qed.

Lemma sumDur_nil : sumDur [] = 0.
Proof. reflexivity. Qed.

Lemma sumDur_cons (x : item) (l : list item) :
  sumDur (x :: l) = dur_ms x + sumDur l.
Proof.
  unfold sumDur. simpl. rewrite fold_left_add_shift. lia.
Qed.

Lemma totalDurOf_cons (x : item) (l : list item) :
  totalDurOf (x :: l) = Z.max 1 (dur_ms x) + totalDurOf l.
Proof.
  unfold totalDurOf, Math_round. simpl.
  rewrite (fold_left_add_shift (fun it => Z.max 1 (dur_ms it))). lia.
Qed.

Lemma sumDur_app (l1 l2 : list item) :
  sumDur (l1 ++ l2) = sumDur l1 + sumDur l2.
Proof.
  induction l1 as [ | x l1 IH]; simpl.
  - rewrite sumDur_nil. lia.
  - rewrite !sumDur_cons, IH. lia.
Qed.

Lemma sumDur_insert (l : list item) (i : nat) (x y : item) :
  l !! i = Some x ->
  sumDur (<[i := y]> l) = sumDur l - dur_ms x + dur_ms y.
Proof.
  revert i. induction l as [ | z l IH]; intros [ | i] H; simpl in *;
    try discriminate.
  - injection H as ->. rewrite !sumDur_cons. lia.
  - rewrite !sumDur_cons, (IH i H). lia.
Qed.

Lemma totalDurOf_pos (l : list item) : l <> [] -> 0 < totalDurOf l.
Proof.
  assert (forall k, 0 <= totalDurOf k) as Hnn.
  { induction k as [ | x k IH]; [reflexivity | rewrite totalDurOf_cons; lia]. }
  destruct l as [ | x l]; [congruence | intros _].
  rewrite totalDurOf_cons. specialize (Hnn l). lia.
Qed.

Lemma totalDurOf_exact (l : list item) :
  Forall (fun x => 1 <= dur_ms x) l -> totalDurOf l = sumDur l.
Proof.
  induction 1 as [ | x l Hx _ IH]; [reflexivity | ].
  rewrite totalDurOf_cons, sumDur_cons, IH. lia.
Qed.

Lemma sumDur_lower (lb : Z) (l : list item) :
  Forall (fun x => lb <= dur_ms x) l -> lb * Z.of_nat (length l) <= sumDur l.
Proof.
  induction 1 as [ | x l Hx _ IH]; [rewrite sumDur_nil; simpl; lia | ].
  rewrite sumDur_cons. simpl length. lia.
Qed.

Lemma sumDur_const (d : Z) (l : list item) :
  Forall (fun x => dur_ms x = d) l -> sumDur l = d * Z.of_nat (length l).
Proof.
  induction 1 as [ | x l Hx _ IH]; [rewrite sumDur_nil; simpl; lia | ].
  rewrite sumDur_cons. simpl length. lia.
Qed.

End SumDur.

Lemma minSegMsFor_ge_80 (audioMs n : Z) : 80 <= minSegMsFor audioMs n.
Proof.
  unfold minSegMsFor.
  destruct (_ <=? 0); [lia | ]. destruct (600 >? _); lia.
Qed.

(** *** One reduction step *)

Section ReduceAt.

Variables (i : nat) (floor_ : Z) (scaled scaled' : list item) (over over' : Z).
Hypothesis Hstep : reduceAt i floor_ scaled over = Some (scaled', over').

Lemma reduceAt_inv :
  exists x,
    scaled !! i = Some x /\
    let reduceBy := Z.min (Z.max 0 (dur_ms x - floor_)) over in
    scaled' = <[i := Item (text_of x) (dur_ms x - reduceBy)]> scaled /\
    over' = over - reduceBy.
Proof.
  unfold reduceAt in Hstep.
  destruct (scaled !! i) as [x | ] eqn:Hx; simpl in Hstep; [ | discriminate].
  injection Hstep as <- <-. exists x. auto.
Qed.

Lemma reduceAt_length : length scaled' = length scaled.
Proof.
  destruct reduceAt_inv as (x & _ & -> & _). apply length_insert.
Qed.

Lemma reduceAt_texts : text_of <$> scaled' = text_of <$> scaled.
Proof.
  destruct reduceAt_inv as (x & Hx & -> & _).
  rewrite list_fmap_insert. simpl.
  apply list_insert_id. rewrite list_lookup_fmap, Hx. reflexivity.
Qed.

Lemma reduceAt_balance : sumDur scaled' - over' = sumDur scaled - over.
Proof.
  destruct reduceAt_inv as (x & Hx & -> & ->).
  rewrite (sumDur_insert _ _ x _ Hx). simpl. lia.
Qed.

Lemma reduceAt_over : 0 <= over -> 0 <= over' <= over.
Proof.
  destruct reduceAt_inv as (x & _ & _ & ->). lia.
Qed.

Lemma reduceAt_other (j : nat) : j <> i -> scaled' !! j = scaled !! j.
Proof.
  intros Hj. destruct reduceAt_inv as (x & _ & -> & _).
  apply list_lookup_insert_ne. congruence.
Qed.

Lemma reduceAt_lower (lb : Z) :
  lb <= floor_ ->
  Forall (fun x => lb <= dur_ms x) scaled ->
  Forall (fun x => lb <= dur_ms x) scaled'.
Proof.
  intros Hlb Hall. destruct reduceAt_inv as (x & Hx & -> & _).
  apply Forall_insert; [assumption | ].
  pose proof (Forall_lookup_1 _ _ _ _ Hall Hx) as Hd. simpl in *. lia.
Qed.

Lemma reduceAt_decreases (j : nat) (y' : item) :
  0 <= over -> scaled' !! j = Some y' ->
  exists y, scaled !! j = Some y /\ dur_ms y' <= dur_ms y.
Proof.
  intros Hov Hy'. destruct reduceAt_inv as (x & Hx & Hs & _).
  destruct (decide (j = i)) as [-> | Hne].
  - exists x. split; [assumption | ].
    rewrite Hs, list_lookup_insert_eq in Hy' by (eapply lookup_lt_Some; eassumption).
    injection Hy' as <-. simpl. lia.
  - exists y'. rewrite <- (reduceAt_other j Hne). split; [assumption | lia].
Qed.

(** When some excess remains, the entry just visited is down at the
    floor. *)
Lemma reduceAt_exhausted :
  0 < over' ->
  exists x', scaled' !! i = Some x' /\ dur_ms x' <= floor_.
Proof.
  intros Hpos. destruct reduceAt_inv as (x & Hx & -> & ->).
  eexists. split.
  - apply list_lookup_insert_eq. eapply lookup_lt_Some; eassumption.
  - simpl. lia.
Qed.

End ReduceAt.

Lemma reduceAt_defined (i : nat) (floor_ : Z) (scaled : list item) (over : Z) :
  (i < length scaled)%nat -> is_Some (reduceAt i floor_ scaled over).
Proof.
  intros Hi. unfold reduceAt.
  destruct (lookup_lt_is_Some_2 scaled i Hi) as [x ->]. simpl. eauto.
Qed.

(** *** The order of the first pass *)

Lemma elem_of_insertDesc (x y : nat * Z) (l : list (nat * Z)) :
  x ∈ insertDesc y l <-> x = y \/ x ∈ l.
Proof.
  induction l as [ | z l IH]; simpl.
  - rewrite list_elem_of_singleton, elem_of_nil. tauto.
  - destruct (_ <? _).
    + rewrite !elem_of_cons, IH. tauto.
    + rewrite !elem_of_cons. tauto.
Qed.

Lemma elem_of_sortDesc (x : nat * Z) (l : list (nat * Z)) :
  x ∈ sortDesc l <-> x ∈ l.
Proof.
  induction l as [ | y l IH]; simpl; [reflexivity | ].
  rewrite elem_of_insertDesc, elem_of_cons, IH. reflexivity.
Qed.

Lemma elem_of_sortedIdx (scaled : list item) (i : nat) :
  i ∈ sortedIdx scaled <-> (i < length scaled)%nat.
Proof.
  unfold sortedIdx. rewrite list_elem_of_fmap. split.
  - intros ([j d] & -> & Hin). simpl.
    apply elem_of_sortDesc, elem_of_lookup_imap in Hin.
    destruct Hin as (k & x & [= -> ->] & Hk).
    eapply lookup_lt_Some; eassumption.
  - intros Hi. destruct (lookup_lt_is_Some_2 scaled i Hi) as [x Hx].
    exists (i, dur_ms x). split; [reflexivity | ].
    apply elem_of_sortDesc, elem_of_lookup_imap. eauto.
Qed.

(** *** The two reduction passes *)

Lemma passInv_refl (floor_ : Z) (scaled : list item) (over : Z) :
  0 <= over -> passInv floor_ scaled over scaled over.
Proof.
  intros Hov. constructor; try reflexivity; try lia; [auto | ].
  intros j y' Hy'. exists y'. split; [assumption | lia].
Qed.

Lemma passInv_step (i : nat) (floor_ : Z) (scaled s1 s2 : list item) (over o1 o2 : Z) :
  0 <= over ->
  reduceAt i floor_ scaled over = Some (s1, o1) ->
  passInv floor_ s1 o1 s2 o2 ->
  passInv floor_ scaled over s2 o2.
Proof.
  intros Hov Hstep [Hlen Htx Hbal Ho Hlow Hdec].
  pose proof (reduceAt_over _ _ _ _ _ _ Hstep Hov) as Ho1.
  constructor.
  - rewrite Hlen. eapply reduceAt_length; eassumption.
  - rewrite Htx. eapply reduceAt_texts; eassumption.
  - rewrite Hbal. eapply reduceAt_balance; eassumption.
  - lia.
  - intros lb Hlb Hall. apply Hlow; [assumption | ].
    eapply reduceAt_lower; eassumption.
  - intros j y' Hy'. destruct (Hdec j y' Hy') as (y1 & Hy1 & Hle1).
    destruct (reduceAt_decreases _ _ _ _ _ _ Hstep j y1 Hov Hy1) as (y & Hy & Hle).
    exists y. split; [assumption | lia].
Qed.

Lemma reduceToFloor_inv (minSegMs : Z) (idx : list nat) :
  forall (scaled : list item) (over : Z) (s1 : list item) (o1 : Z),
    0 <= over ->
    reduceToFloor minSegMs idx scaled over = Some (s1, o1) ->
    passInv minSegMs scaled over s1 o1
    /\ (0 < o1 -> forall i, i ∈ idx ->
          exists x, s1 !! i = Some x /\ dur_ms x <= minSegMs).
Proof.
  induction idx as [ | i rest IH]; intros scaled over s1 o1 Hov Hrun; simpl in Hrun.
  - injection Hrun as <- <-. split; [apply passInv_refl; assumption | ].
    intros _ i Hi. inversion Hi.
  - destruct (Z.leb_spec over 0) as [Hle | Hgt].
    + injection Hrun as <- <-. split; [apply passInv_refl; assumption | lia].
    + destruct (reduceAt i minSegMs scaled over) as [[s' o'] | ] eqn:Hstep;
        simpl in Hrun; [ | discriminate].
      pose proof (reduceAt_over _ _ _ _ _ _ Hstep Hov) as Ho'.
      destruct (IH s' o' s1 o1 ltac:(lia) Hrun) as [Hinv Hfloor].
      split; [eapply passInv_step; eassumption | ].
      intros Hpos j Hj. apply elem_of_cons in Hj as [-> | Hj]; [ | auto].
      destruct (reduceAt_exhausted _ _ _ _ _ _ Hstep) as (x' & Hx' & Hd').
      { pose proof (pass_over _ _ _ _ _ Hinv). lia. }
      pose proof (lookup_lt_Some _ _ _ Hx') as Hlt.
      rewrite <- (pass_length _ _ _ _ _ Hinv) in Hlt.
      destruct (lookup_lt_is_Some_2 _ _ Hlt) as [x1 Hx1].
      destruct (pass_decreases _ _ _ _ _ Hinv i x1 Hx1) as (y & Hy & Hle).
      exists x1. split; [assumption | ]. rewrite Hx' in Hy. injection Hy as <-. lia.
Qed.

Lemma reduceToFloor_defined (minSegMs : Z) (idx : list nat) :
  forall (scaled : list item) (over : Z),
    Forall (fun i => (i < length scaled)%nat) idx ->
    is_Some (reduceToFloor minSegMs idx scaled over).
Proof.
  induction idx as [ | i rest IH]; intros scaled over Hidx; simpl; [eauto | ].
  destruct (over <=? 0); [eauto | ].
  apply Forall_cons in Hidx as [Hi Hrest].
  destruct (reduceAt_defined i minSegMs scaled over Hi) as [[s' o'] Hstep].
  rewrite Hstep. simpl. apply IH.
  rewrite (reduceAt_length _ _ _ _ _ _ Hstep). assumption.
Qed.

Lemma reduceToOne_inv (k : nat) :
  forall (scaled : list item) (over : Z) (s1 : list item) (o1 : Z),
    0 <= over ->
    reduceToOne k scaled over = Some (s1, o1) ->
    passInv 1 scaled over s1 o1
    /\ (forall j, (k <= j)%nat -> s1 !! j = scaled !! j)
    /\ (0 < o1 -> forall j, (j < k)%nat ->
          exists x, s1 !! j = Some x /\ dur_ms x <= 1).
Proof.
  induction k as [ | i IH]; intros scaled over s1 o1 Hov Hrun; simpl in Hrun.
  - injection Hrun as <- <-. split; [apply passInv_refl; assumption | ].
    split; [reflexivity | intros _ j Hj; lia].
  - destruct (Z.gtb_spec over 0) as [Hgt | Hle].
    + destruct (reduceAt i 1 scaled over) as [[s' o'] | ] eqn:Hstep;
        simpl in Hrun; [ | discriminate].
      pose proof (reduceAt_over _ _ _ _ _ _ Hstep Hov) as Ho'.
      destruct (IH s' o' s1 o1 ltac:(lia) Hrun) as (Hinv & Hsame & Hone).
      split; [eapply passInv_step; eassumption | ]. split.
      * intros j Hj. rewrite (Hsame j ltac:(lia)).
        eapply reduceAt_other; [eassumption | lia].
      * intros Hpos j Hj. destruct (decide (j = i)) as [-> | Hne].
        -- rewrite (Hsame i ltac:(lia)).
           eapply reduceAt_exhausted; [eassumption | ].
           pose proof (pass_over _ _ _ _ _ Hinv). lia.
        -- apply Hone; [assumption | lia].
    + injection Hrun as <- <-. split; [apply passInv_refl; assumption | ].
      split; [reflexivity | lia].
Qed.

Lemma reduceToOne_defined (k : nat) :
  forall (scaled : list item) (over : Z),
    (k <= length scaled)%nat -> is_Some (reduceToOne k scaled over).
Proof.
  induction k as [ | i IH]; intros scaled over Hk; simpl; [eauto | ].
  destruct (over >? 0); [ | eauto].
  destruct (reduceAt_defined i 1 scaled over ltac:(lia)) as [[s' o'] Hstep].
  rewrite Hstep. simpl. apply IH.
  rewrite (reduceAt_length _ _ _ _ _ _ Hstep). lia.
Qed.

(** *** The adjustment as a whole *)

Lemma adjust_defined (audioMs minSegMs : Z) (scaled : list item) :
  scaled <> [] -> is_Some (adjust audioMs minSegMs scaled).
Proof.
  intros Hne. unfold adjust.
  destruct (sumDur scaled >? audioMs).
  - destruct (reduceToFloor_defined minSegMs (sortedIdx scaled) scaled
                (sumDur scaled - audioMs)) as [[s1 o1] H1].
    { apply Forall_forall. intros i Hi. apply elem_of_sortedIdx. assumption. }
    rewrite H1. simpl. destruct (o1 >? 0); [ | eauto].
    destruct (reduceToOne_defined (length s1) s1 o1 (le_n _)) as [[s2 o2] H2].
    rewrite H2. simpl. eauto.
  - destruct (sumDur scaled <? audioMs); [ | eauto].
    destruct (lookup_lt_is_Some_2 scaled (length scaled - 1)) as [x ->].
    + destruct scaled; [congruence | simpl; lia].
    + simpl. eauto.
Qed.

Lemma adjust_inv (audioMs minSegMs : Z) (scaled adj : list item) :
  1 <= minSegMs ->
  Forall (fun x => minSegMs <= dur_ms x) scaled ->
  adjust audioMs minSegMs scaled = Some adj ->
  length adj = length scaled
  /\ text_of <$> adj = text_of <$> scaled
  /\ Forall (fun x => 1 <= dur_ms x) adj
  /\ audioMs <= sumDur adj
  /\ (audioMs < sumDur adj -> Forall (fun x => dur_ms x = 1) adj).
Proof.
  intros Hm Hall Hadj. unfold adjust in Hadj.
  destruct (Z.gtb_spec (sumDur scaled) audioMs) as [Hgt | Hle].
  - destruct (reduceToFloor _ _ _ _) as [[s1 o1] | ] eqn:H1; simpl in Hadj;
      [ | discriminate].
    assert (0 <= sumDur scaled - audioMs) as Hov by lia.
    destruct (reduceToFloor_inv _ _ _ _ _ _ Hov H1) as [I1 _].
    pose proof (pass_lower _ _ _ _ _ I1 1 Hm) as Hlow1.
    assert (Forall (fun x => 1 <= dur_ms x) s1) as Hs1.
    { apply Hlow1. eapply Forall_impl; [exact Hall | ]. simpl. intros; lia. }
    destruct (Z.gtb_spec o1 0) as [Ho1 | Ho1].
    + destruct (reduceToOne _ _ _) as [[s2 o2] | ] eqn:H2; simpl in Hadj;
        [ | discriminate].
      injection Hadj as <-.
      assert (0 <= o1) as Hov1 by lia.
      destruct (reduceToOne_inv _ _ _ _ _ Hov1 H2) as (I2 & _ & Hone).
      pose proof (pass_lower _ _ _ _ _ I2 1 ltac:(lia) Hs1) as Hs2.
      pose proof (pass_balance _ _ _ _ _ I1). pose proof (pass_balance _ _ _ _ _ I2).
      pose proof (pass_over _ _ _ _ _ I2).
      split; [rewrite (pass_length _ _ _ _ _ I2); apply (pass_length _ _ _ _ _ I1) | ].
      split; [rewrite (pass_texts _ _ _ _ _ I2); apply (pass_texts _ _ _ _ _ I1) | ].
      split; [assumption | ]. split; [lia | ].
      intros Hover. apply Forall_lookup. intros j x Hx.
      pose proof (lookup_lt_Some _ _ _ Hx) as Hj.
      rewrite (pass_length _ _ _ _ _ I2) in Hj.
      destruct (Hone ltac:(lia) j Hj) as (x' & Hx' & Hd).
      rewrite Hx in Hx'. injection Hx' as <-.
      pose proof (Forall_lookup_1 _ _ _ _ Hs2 Hx). simpl in *. lia.
    + injection Hadj as <-.
      pose proof (pass_balance _ _ _ _ _ I1). pose proof (pass_over _ _ _ _ _ I1).
      split; [apply (pass_length _ _ _ _ _ I1) | ].
      split; [apply (pass_texts _ _ _ _ _ I1) | ].
      split; [assumption | ]. split; lia.
  - assert (Forall (fun x => 1 <= dur_ms x) scaled) as Hs.
    { eapply Forall_impl; [exact Hall | ]. simpl. intros; lia. }
    destruct (Z.ltb_spec (sumDur scaled) audioMs) as [Hlt | Hge].
    + destruct (scaled !! (length scaled - 1)%nat) as [x | ] eqn:Hx; simpl in Hadj;
        [ | discriminate].
      injection Hadj as <-.
      split; [apply length_insert | ].
      split.
      { rewrite list_fmap_insert. simpl. apply list_insert_id.
        rewrite list_lookup_fmap, Hx. reflexivity. }
      pose proof (Forall_lookup_1 _ _ _ _ Hs Hx) as Hd. simpl in Hd.
      split; [apply Forall_insert; [assumption | simpl; lia] | ].
      rewrite (sumDur_insert _ _ x _ Hx). simpl. split; lia.
    + injection Hadj as <-. repeat split; try assumption; lia.
Qed.

(** *** The output loop *)

Lemma emit_cons_cons (audioMs cur : Z) (x y : item) (rest : list item) :
  emit audioMs cur (x :: y :: rest)
  = Caption cur (cur + Z.max 1 (Math_round (dur_ms x))) (text_of x)
    :: emit audioMs (cur + Z.max 1 (Math_round (dur_ms x))) (y :: rest).
Proof. reflexivity. Qed.

Lemma emit_length (audioMs cur : Z) (scaled : list item) :
  length (emit audioMs cur scaled) = length scaled.
Proof.
  revert cur. induction scaled as [ | x rest IH]; intros cur; simpl; [reflexivity | ].
  rewrite IH. reflexivity.
Qed.

Lemma emit_texts (audioMs cur : Z) (scaled : list item) :
  text <$> emit audioMs cur scaled = text_of <$> scaled.
Proof.
  revert cur. induction scaled as [ | x rest IH]; intros cur; simpl; [reflexivity | ].
  rewrite IH. reflexivity.
Qed.

Lemma emit_head (audioMs cur : Z) (scaled : list item) :
  scaled <> [] ->
  exists c, head (emit audioMs cur scaled) = Some c /\ start_ms c = cur.
Proof.
  destruct scaled as [ | x rest]; [congruence | intros _].
  simpl. eexists. split; reflexivity.
Qed.

Lemma emit_last (audioMs cur : Z) (scaled : list item) :
  scaled <> [] ->
  exists c, last (emit audioMs cur scaled) = Some c /\ end_ms c = audioMs.
Proof.
  revert cur. induction scaled as [ | x rest IH]; intros cur Hne; [congruence | ].
  destruct rest as [ | y rest'].
  - simpl. eexists. split; reflexivity.
  - rewrite emit_cons_cons.
    destruct (IH (cur + Z.max 1 (Math_round (dur_ms x))) ltac:(congruence))
      as (c & Hc & He).
    exists c. split; [ | assumption].
    rewrite last_cons, Hc. reflexivity.
Qed.

Lemma emit_contiguous (audioMs cur : Z) (scaled : list item) :
  contiguous (emit audioMs cur scaled).
Proof.
  revert cur. induction scaled as [ | x rest IH]; intros cur; simpl; [exact I | ].
  destruct rest as [ | y rest']; simpl; [exact I | ].
  split; [reflexivity | ]. apply (IH (cur + Z.max 1 (Math_round (dur_ms x)))).
Qed.

Lemma totalDuration_cons (c : caption) (out : list caption) :
  totalDuration (c :: out) = (end_ms c - start_ms c) + totalDuration out.
Proof. reflexivity. Qed.

Lemma emit_totalDuration (audioMs cur : Z) (scaled : list item) :
  scaled <> [] -> totalDuration (emit audioMs cur scaled) = audioMs - cur.
Proof.
  revert cur. induction scaled as [ | x rest IH]; intros cur Hne; [congruence | ].
  destruct rest as [ | y rest'].
  - simpl. lia.
  - rewrite emit_cons_cons.
    rewrite totalDuration_cons, IH by congruence. simpl. lia.
Qed.

Lemma emit_lower_bound (lb audioMs : Z) (scaled : list item) :
  forall cur,
    lb <= 1 ->
    Forall (fun x => 1 <= dur_ms x) scaled ->
    (forall x, last scaled = Some x ->
               lb <= dur_ms x - (cur + sumDur scaled - audioMs)) ->
    Forall (fun c => lb <= end_ms c - start_ms c) (emit audioMs cur scaled).
Proof.
  induction scaled as [ | x rest IH]; intros cur Hlb Hall Hlast; [constructor | ].
  apply Forall_cons in Hall as [Hx Hrest].
  destruct rest as [ | y rest'].
  - simpl. constructor; [ | constructor]. simpl.
    specialize (Hlast x eq_refl). rewrite sumDur_cons, sumDur_nil in Hlast. lia.
  - rewrite emit_cons_cons.
    constructor; [simpl; unfold Math_round; lia | ].
    apply IH; [assumption | assumption | ].
    intros z Hz. specialize (Hlast z). rewrite last_cons, Hz in Hlast.
    specialize (Hlast eq_refl). rewrite sumDur_cons in Hlast.
    unfold Math_round. lia.
Qed.

(** With durations of 1 ms or more that add up to the target, the output
    loop lays the durations out unchanged. *)
Lemma emit_exact (audioMs : Z) (scaled : list item) :
  forall cur,
    Forall (fun x => 1 <= dur_ms x) scaled ->
    cur + sumDur scaled = audioMs ->
    (fun c => Item (text c) (end_ms c - start_ms c)) <$> emit audioMs cur scaled
    = scaled.
Proof.
  induction scaled as [ | x rest IH]; intros cur Hall Hsum; [reflexivity | ].
  apply Forall_cons in Hall as [Hx Hrest]. rewrite sumDur_cons in Hsum.
  destruct rest as [ | y rest'].
  - rewrite sumDur_nil in Hsum. simpl. destruct x as [tx dx]. simpl in *.
    do 2 f_equal. lia.
  - rewrite emit_cons_cons.
    rewrite fmap_cons, IH; [ | assumption | unfold Math_round; lia].
    destruct x as [tx dx]. simpl in *. unfold Math_round. do 2 f_equal. lia.
Qed.

Lemma forceLastEnd_emit (audioMs cur : Z) (scaled : list item) :
  forceLastEnd audioMs (emit audioMs cur scaled) = emit audioMs cur scaled.
Proof.
  unfold forceLastEnd.
  destruct (emit audioMs cur scaled !! _) as [c | ] eqn:Hc; [ | reflexivity].
  apply list_insert_id. rewrite Hc. f_equal.
  destruct scaled as [ | x rest]; [discriminate Hc | ].
  destruct (emit_last audioMs cur (x :: rest) ltac:(congruence)) as (c' & Hc' & He).
  rewrite last_lookup in Hc'.
  replace (pred (length (emit audioMs cur (x :: rest))))
    with (length (emit audioMs cur (x :: rest)) - 1)%nat in Hc' by lia.
  rewrite Hc in Hc'. injection Hc' as <-. destruct c. simpl in *. congruence.
Qed.

(** *** The conversions and the filter *)

Lemma conversionThrows_orElse (v : jsval) :
  conversionThrows (orElse v (JString [])) = conversionThrows v.
Proof.
  unfold orElse. destruct (truthy v) eqn:Hv; [reflexivity | ].
  destruct v as [ | | b | n | s | elems | props]; try reflexivity; discriminate Hv.
Qed.

Lemma readCaption_spec (c : jsval) :
  readCaption c = if entryThrows c then None else Some (kept c).
Proof.
  unfold readCaption, entryThrows, kept, jsNumber, jsString.
  rewrite conversionThrows_orElse.
  destruct (conversionThrows (optGet c (str "start_ms"))); [reflexivity | ].
  destruct (conversionThrows (optGet c (str "end_ms"))); [reflexivity | ].
  destruct (conversionThrows (optGet c (str "text"))); reflexivity.
Qed.

Lemma collectItems_spec (captions : list jsval) :
  collectItems captions
  = if existsb entryThrows captions then None else Some (keptItems captions).
Proof.
  induction captions as [ | c rest IH]; [reflexivity | ].
  simpl. rewrite readCaption_spec, IH.
  destruct (entryThrows c); [reflexivity | ].
  destruct (existsb entryThrows rest); [reflexivity | ].
  simpl. unfold keptItems. simpl. destruct (kept c); reflexivity.
Qed.

Lemma normalize_spec (captions : list jsval) (audioMs : number) :
  normalizeAndScaleCaptions (JArray captions) audioMs
  = if existsb entryThrows captions then None
    else resize (keptItems captions) audioMs.
Proof.
  unfold normalizeAndScaleCaptions. rewrite collectItems_spec.
  destruct (existsb entryThrows captions); reflexivity.
Qed.

Lemma normalize_Some (captions : list jsval) (audioMs : number) (out : list caption) :
  normalizeAndScaleCaptions (JArray captions) audioMs = Some out ->
  collectItems captions = Some (keptItems captions)
  /\ resize (keptItems captions) audioMs = Some out.
Proof.
  rewrite normalize_spec, collectItems_spec.
  destruct (existsb entryThrows captions); [discriminate | auto].
Qed.

Lemma exactTime_no_throw (v : jsval) :
  exactTime v = true -> conversionThrows v = false.
Proof.
  destruct v as [ | | b | n | s | elems | props]; try reflexivity.
  - discriminate.
  - simpl. intros H. apply negb_true_iff in H. exact H.
Qed.

Lemma exactText_no_throw (v : jsval) :
  exactText v = true -> conversionThrows v = false.
Proof.
  destruct v as [ | | b | n | s | elems | props]; try reflexivity.
  - discriminate.
  - simpl. intros H. apply negb_true_iff in H. exact H.
Qed.

Lemma exactEntry_no_throw (c : jsval) :
  exactEntry c = true -> entryThrows c = false.
Proof.
  unfold exactEntry, entryThrows. intros H.
  apply andb_true_iff in H as [H Htext]. apply andb_true_iff in H as [Hs He].
  rewrite (exactTime_no_throw _ Hs), (exactTime_no_throw _ He),
    (exactText_no_throw _ Htext). reflexivity.
Qed.

Lemma exact_no_throw (captions : list jsval) :
  forallb exactEntry captions = true -> existsb entryThrows captions = false.
Proof.
  induction captions as [ | c rest IH]; [reflexivity | ].
  simpl. intros H. apply andb_true_iff in H as [Hc Hrest].
  rewrite (exactEntry_no_throw c Hc), (IH Hrest). reflexivity.
Qed.

(** On entries that are read exactly no conversion throws: the loop
    collects the items of [keptItems]. *)
Lemma collectItems_exact (captions : list jsval) (items : list item) :
  forallb exactEntry captions = true ->
  collectItems captions = Some items ->
  items = keptItems captions
  /\ forall audioMs,
       normalizeAndScaleCaptions (JArray captions) audioMs = resize items audioMs.
Proof.
  intros Hexact Hitems.
  pose proof (exact_no_throw captions Hexact) as Hno.
  rewrite collectItems_spec, Hno in Hitems. injection Hitems as <-.
  split; [reflexivity | ]. intros audioMs. rewrite normalize_spec, Hno. reflexivity.
Qed.

(** *** From the request to the adjusted durations *)

Lemma scaleToTarget_unfold (items : list item) (audioMs : Z) :
  items <> [] ->
  let minSegMs := minSegMsFor audioMs (Z.of_nat (length items)) in
  exists scaled adj,
    length scaled = length items
    /\ text_of <$> scaled = text_of <$> items
    /\ Forall (fun x => minSegMs <= dur_ms x) scaled
    /\ adjust audioMs minSegMs scaled = Some adj
    /\ scaleToTarget items audioMs = Some (emit audioMs 0 adj).
Proof.
  intros Hne minSegMs. unfold scaleToTarget.
  pose proof (totalDurOf_pos items Hne) as Htot.
  destruct (Z.leb_spec (totalDurOf items) 0) as [Hle | _]; [lia | ].
  fold minSegMs.
  set (factor := Double.div _ _).
  set (scaled := scaleItem minSegMs factor <$> items).
  destruct (adjust_defined audioMs minSegMs scaled) as [adj Hadj].
  { subst scaled. destruct items; [congruence | discriminate]. }
  exists scaled, adj. rewrite Hadj. simpl. rewrite forceLastEnd_emit.
  subst scaled. repeat split.
  - apply length_fmap.
  - rewrite <- list_fmap_compose. reflexivity.
  - apply Forall_fmap, Forall_forall. intros x _. simpl. lia.
Qed.

Lemma resize_known (items : list item) (T : Z) :
  0 < T -> items <> [] ->
  resize items (Finite T) = scaleToTarget items T.
Proof.
  intros HT Hne. unfold resize.
  rewrite bool_decide_eq_false_2.
  - simpl. destruct (Z.ltb_spec 0 T); [reflexivity | lia].
  - destruct items; [congruence | discriminate].
Qed.

Lemma emit_last_duration (audioMs : Z) (scaled : list item) :
  forall cur x,
    Forall (fun x => 1 <= dur_ms x) scaled ->
    last scaled = Some x ->
    exists c, last (emit audioMs cur scaled) = Some c
              /\ end_ms c - start_ms c = dur_ms x - (cur + sumDur scaled - audioMs).
Proof.
  induction scaled as [ | y rest IH]; intros cur x Hall Hlast; [discriminate | ].
  apply Forall_cons in Hall as [Hy Hrest].
  destruct rest as [ | z rest'].
  - injection Hlast as <-. simpl. eexists. split; [reflexivity | ].
    simpl. rewrite sumDur_cons, sumDur_nil. lia.
  - rewrite emit_cons_cons.
    rewrite last_cons_cons in Hlast.
    destruct (IH (cur + Z.max 1 (Math_round (dur_ms y))) x Hrest Hlast)
      as (c & Hc & Hd).
    exists c. split.
    + rewrite last_cons, Hc. reflexivity.
    + rewrite Hd, (sumDur_cons y). unfold Math_round. lia.
Qed.

(** ** The normalizer with a known target *)

(** C1, as stated, fails when there are more entries than the target has
    milliseconds: three captions squeezed into 1 ms come out as 1 ms each,
    and the last one, forced to end at 1, starts at 2. *)
Lemma fillsTarget_fails_more_entries_than_ms :
  let captions := [rawCaption 0 1000 "a"; rawCaption 1000 2000 "b";
                   rawCaption 2000 3000 "c"] in
  (exists items, collectItems captions = Some items /\ items <> [])
  /\ exists out,
       normalizeAndScaleCaptions (JArray captions) (Finite 1) = Some out
       /\ ~ fillsTarget out 1.
Proof.
  split; [eexists; split; [vm_compute; reflexivity | discriminate] | ].
  eexists. split; [vm_compute; reflexivity | ].
  intros (_ & _ & _ & _ & Hall).
  apply Forall_cons in Hall as [_ Hall].
  apply Forall_cons in Hall as [_ Hall].
  apply Forall_cons in Hall as [Hneg _].
  vm_compute in Hneg. apply Hneg. reflexivity.
Qed.

(** What the known-target branch returns, in exact integer arithmetic. *)
Lemma resize_fills_target (items : list item) (T : Z) :
  0 < T ->
  items <> [] ->
  let N := Z.of_nat (length (items)) in
  exists out,
    resize items (Finite T) = Some out
    /\ Z.of_nat (length out) = N
    /\ totalDuration out = T
    /\ (exists c, head out = Some c /\ start_ms c = 0)
    /\ (exists c, last out = Some c /\ end_ms c = T)
    /\ contiguous out
    /\ (N <= T -> Forall (fun c => 1 <= end_ms c - start_ms c) out)
    /\ (N <= T + 1 -> Forall (fun c => 0 <= end_ms c - start_ms c) out)
    /\ (T + 1 < N -> exists c, last out = Some c /\ end_ms c < start_ms c).
Proof.
  intros HT Hne N.
  rewrite (resize_known _ _ HT Hne).
  destruct (scaleToTarget_unfold (items) T Hne)
    as (scaled & adj & Hlen & _ & Hfloor & Hadj & ->).
  pose proof (minSegMsFor_ge_80 T (Z.of_nat (length (items)))) as Hm.
  assert (1 <= minSegMsFor T (Z.of_nat (length (items)))) as Hm1
    by lia.
  destruct (adjust_inv _ _ _ _ Hm1 Hfloor Hadj)
    as (Hlen' & _ & Hpos & Hsum & Hones).
  assert (adj <> []) as Hadjne.
  { intros ->. simpl in Hlen'. rewrite <- Hlen', Hlen in *.
    destruct items; [congruence | discriminate]. }
  assert (Z.of_nat (length adj) = N) as HN by (subst N; lia).
  assert (T < sumDur adj -> sumDur adj = N) as Hall1.
  { intros Hover. rewrite (sumDur_const 1 adj (Hones Hover)). lia. }
  assert (forall x, Forall (fun x => dur_ms x = 1) adj -> last adj = Some x ->
                    dur_ms x = 1) as Hlast1.
  { intros x Hf Hx. apply last_Some_elem_of in Hx.
    rewrite Forall_forall in Hf. auto. }
  exists (emit T 0 adj). split; [reflexivity | ].
  split; [rewrite emit_length; assumption | ].
  split; [rewrite emit_totalDuration by assumption; lia | ].
  split; [apply emit_head; assumption | ].
  split; [apply emit_last; assumption | ].
  split; [apply emit_contiguous | ].
  split; [ | split].
  - intros HNT. apply emit_lower_bound; [lia | assumption | ].
    intros x Hx. pose proof (last_Some_elem_of _ _ Hx) as Hin.
    rewrite Forall_forall in Hpos. specialize (Hpos x Hin). simpl in Hpos.
    destruct (Z.lt_ge_cases T (sumDur adj)) as [Hover | Hexact]; [ | lia].
    specialize (Hall1 Hover). lia.
  - intros HNT. apply emit_lower_bound; [lia | assumption | ].
    intros x Hx. pose proof (last_Some_elem_of _ _ Hx) as Hin.
    pose proof Hpos as Hpos'. rewrite Forall_forall in Hpos'.
    specialize (Hpos' x Hin). simpl in Hpos'.
    destruct (Z.lt_ge_cases T (sumDur adj)) as [Hover | Hexact]; [ | lia].
    rewrite (Hlast1 x (Hones Hover) Hx), (Hall1 Hover). lia.
  - intros HNT.
    assert (N <= sumDur adj) as Hlow.
    { pose proof (sumDur_lower 1 adj Hpos). lia. }
    assert (T < sumDur adj) as Hover by lia.
    destruct (last adj) as [x | ] eqn:Hx.
    + pose proof (Hones Hover) as Hf. rewrite Forall_forall in Hf.
      pose proof (Hf x (last_Some_elem_of _ _ Hx)) as Hx1.
      destruct (emit_last_duration T adj 0 x Hpos Hx) as (c & Hc & Hd).
      exists c. split; [assumption | ].
      rewrite Hx1, (Hall1 Hover) in Hd. lia.
    + apply last_None in Hx. congruence.
Qed.


(** C1, amended: for every caption list that is read exactly (integer
    times below 2^53 in magnitude, no field that cannot be converted),
    whose filtered list has N >= 1 entries with durations adding up to
    2^40 ms at most, and every target 0 < T <= 2^40, the normalizer
    returns N entries whose durations sum to T exactly, the first starting
    at 0, the last ending at T, each ending where the next starts; every
    duration is at least 1 ms when N <= T, none is negative when
    N <= T + 1, and the last one is negative when N > T + 1. *)
Theorem normalizer_fills_target (captions : list jsval) (items : list item) (T : Z) :
  forallb exactEntry captions = true ->
  collectItems captions = Some items ->
  items <> [] ->
  totalDurOf items <= msBound ->
  0 < T <= msBound ->
  let N := Z.of_nat (length items) in
  exists out,
    normalizeAndScaleCaptions (JArray captions) (Finite T) = Some out
    /\ Z.of_nat (length out) = N
    /\ totalDuration out = T
    /\ (exists c, head out = Some c /\ start_ms c = 0)
    /\ (exists c, last out = Some c /\ end_ms c = T)
    /\ contiguous out
    /\ (N <= T -> Forall (fun c => 1 <= end_ms c - start_ms c) out)
    /\ (N <= T + 1 -> Forall (fun c => 0 <= end_ms c - start_ms c) out)
    /\ (T + 1 < N -> exists c, last out = Some c /\ end_ms c < start_ms c).
Proof.
  intros Hexact Hitems Hne _ [HT _] N.
  destruct (collectItems_exact captions items Hexact Hitems) as [_ ->].
  apply resize_fills_target; assumption.
Qed.

Lemma normalizer_fills_target_witness :
  exists out,
    normalizeAndScaleCaptions
      (JArray [rawCaption 0 100 "a"; rawCaption 100 200 "b"]) (Finite 1000)
    = Some out
    /\ totalDuration out = 1000
    /\ Forall (fun c => 1 <= end_ms c - start_ms c) out.
Proof.
  destruct (normalizer_fills_target
              [rawCaption 0 100 "a"; rawCaption 100 200 "b"]
              [Item (str "a") 100; Item (str "b") 100] 1000)
    as (out & Hout & _ & Hsum & _ & _ & _ & Hpos & _).
  - vm_compute. reflexivity.
  - vm_compute. reflexivity.
  - discriminate.
  - vm_compute. discriminate.
  - unfold msBound. lia.
  - exists out. split; [exact Hout | split; [exact Hsum | ]].
    apply Hpos. vm_compute. discriminate.
Defined.
(** ** Robustness *)

Lemma resize_defined (items : list item) (audioMs : number) :
  is_Some (resize items audioMs).
Proof.
  unfold resize.
  destruct (decide (items = [])) as [-> | Hne]; [simpl; eauto | ].
  rewrite bool_decide_eq_false_2
    by (destruct items; [congruence | discriminate]).
  destruct (knownPositive audioMs) eqn:Hk; simpl; [ | eauto].
  destruct audioMs as [ | neg | T]; try discriminate Hk. simpl in *.
  destruct (scaleToTarget_unfold items T Hne)
    as (scaled & adj & _ & _ & _ & _ & ->).
  eauto.
Qed.

Lemma normalize_throws (captions : jsval) (audioMs : number) :
  normalizeAndScaleCaptions captions audioMs = None <-> throwsOn captions = true.
Proof.
  destruct captions as [ | | b | n | s | elems | props]; simpl;
    try (split; discriminate).
  rewrite collectItems_spec.
  destruct (existsb entryThrows elems); simpl; [tauto | ].
  destruct (resize_defined (keptItems elems) audioMs) as [out ->].
  split; discriminate.
Qed.

(** C8, as stated, fails: the value of a [text] (or [start_ms], or
    [end_ms]) that is an object with an own property [toString] cannot be
    converted, and the TypeError leaves the normalizer. *)
Lemma returnsList_fails_own_toString :
  ~ returnsList
      (JArray [JObject [(str "start_ms", JNumber (Finite 0));
                        (str "end_ms", JNumber (Finite 1000));
                        (str "text", JObject [(str "toString", JNumber (Finite 1))])]])
      (Finite 4000)
  /\ normalizeAndScaleCaptions
       (JArray [JObject [(str "text", JObject [(str "toString", JNumber (Finite 1))])]])
       NaN = None.
Proof.
  split; [ | vm_compute; reflexivity].
  intros [out Hout]. vm_compute in Hout. discriminate Hout.
Qed.

(** C8, amended: the normalizer throws exactly when [captions] is an
    array with an entry one of whose [start_ms], [end_ms] and [text] is an
    object with an own [toString] property, or an array that holds one;
    for every other [captions] value and any target it returns a list.
    When the entries are read exactly and every one is filtered out (the
    only way the total duration can be zero) the list is empty; on the
    empty list the segment planner takes the equal four-way split of the
    fallback total and the cue builder emits no cue. *)
Theorem normalizer_throws_only_on_conversion (captions : jsval) (audioMs : number) :
  (throwsOn captions = false -> returnsList captions audioMs)
  /\ (throwsOn captions = true -> normalizeAndScaleCaptions captions audioMs = None)
  /\ (forall elems items,
        captions = JArray elems -> forallb exactEntry elems = true ->
        collectItems elems = Some items ->
        (totalDurOf items <= 0 <-> items = [])
        /\ (items = [] -> normalizeAndScaleCaptions captions audioMs = Some []))
  /\ (forall total,
        planSegments [] total
        = Timing (Z.max 1 (total / 4)) (Z.max 1 (total / 4)) (Z.max 1 (total / 4))
                 (Z.max 1 (total - Z.max 1 (total / 4) - Z.max 1 (total / 4)
                           - Z.max 1 (total / 4)))
                 total)
  /\ (forall header slideTag,
        dialogues slideTag [] = [] /\ assText header slideTag [] = header).
Proof.
  split; [ | split; [ | split; [ | split]]].
  - intros Hno. unfold returnsList.
    destruct (normalizeAndScaleCaptions captions audioMs) as [out | ] eqn:Hn;
      [eauto | ].
    apply normalize_throws in Hn. congruence.
  - apply normalize_throws.
  - intros elems items -> Hexact Hitems. split.
    + split.
      * intros Htot. destruct (decide (items = [])) as [ | Hne]; [assumption | ].
        pose proof (totalDurOf_pos _ Hne). lia.
      * intros ->. reflexivity.
    + intros ->. simpl. rewrite Hitems. reflexivity.
  - intros total. reflexivity.
  - intros header slideTag. split; [reflexivity | ].
    unfold assText. simpl. apply app_nil_r.
Qed.

Lemma normalizer_throws_only_on_conversion_witness :
  returnsList (JArray [JNull; rawCaption 500 500 "same"; rawCaption 0 900 "   "]) NaN
  /\ normalizeAndScaleCaptions
       (JArray [JNull; rawCaption 500 500 "same"; rawCaption 0 900 "   "]) NaN
     = Some [].
Proof.
  destruct (normalizer_throws_only_on_conversion
              (JArray [JNull; rawCaption 500 500 "same"; rawCaption 0 900 "   "])
              NaN) as (Hret & _ & Hempty & _).
  split.
  - apply Hret. vm_compute. reflexivity.
  - destruct (Hempty _ [] eq_refl) as [_ H].
    + vm_compute. reflexivity.
    + vm_compute. reflexivity.
    + apply H. reflexivity.
Defined.

(** ** Binary64 facts used by the scale factor *)

Lemma digits2_pos_size (p : positive) : digits2_pos p = Pos.size p.
Proof. induction p; simpl; congruence. Qed.

Lemma digits2_pos_iter_xO (k : positive) (p : positive) :
  digits2_pos (Pos.iter xO p k) = (digits2_pos p + k)%positive.
Proof.
  revert p. induction k as [ | k IH] using Pos.peano_ind; intros p.
  - simpl. lia.
  - rewrite Pos.iter_succ. simpl. rewrite IH. lia.
Qed.

Lemma Zpos_iter_xO (k : positive) (p : positive) :
  Zpos (Pos.iter xO p k) = Zpos p * 2 ^ Zpos k.
Proof.
  revert p. induction k as [ | k IH] using Pos.peano_ind; intros p.
  - simpl. lia.
  - rewrite Pos.iter_succ, Pos2Z.inj_xO, IH, Pos2Z.inj_succ, Z.pow_succ_r by lia. lia.
Qed.

Lemma digits_safe (p : positive) :
  Zpos p < safeBound -> Zpos (digits2_pos p) <= 53.
Proof.
  intros Hp. rewrite digits2_pos_size.
  pose proof (Pos.size_le p) as Hle.
  destruct (Z.le_gt_cases (Zpos (Pos.size p)) 53) as [ | Hgt]; [assumption | exfalso].
  assert (2 ^ 54 <= 2 ^ Zpos (Pos.size p)) by (apply Z.pow_le_mono_r; lia).
  assert (Zpos (2 ^ Pos.size p) <= Zpos p~0) as H2 by exact Hle.
  rewrite Pos2Z.inj_pow in H2. unfold safeBound in Hp. 
  change (Zpos p~0) with (2 * Zpos p) in H2.
  change (2^54) with (2 * 2^53) in H. lia.
Qed.


(** Rounding is the identity on a normalized mantissa. *)
Lemma binary_round_aux_exact (s : bool) (m : positive) (e : Z) :
  digits2_pos m = 53%positive -> -1074 <= e <= 971 ->
  binary_round_aux Double.prec Double.emax s (Zpos m) e loc_Exact
  = S754_finite s m e.
Proof.
  intros H53 He.
  assert (fexp Double.prec Double.emax (53 + e) - e = 0) as Hfexp.
  { unfold fexp, emin, Double.prec, Double.emax. lia. }
  unfold binary_round_aux, shr_fexp. simpl Zdigits2. rewrite H53, Hfexp.
  simpl. rewrite H53, Hfexp. simpl.
  assert ((e <=? (Double.emax - Double.prec)) = true) as ->
      by (apply Z.leb_le; unfold Double.prec, Double.emax; lia).
  reflexivity.
Qed.

(** The double of a positive safe integer: a normalized mantissa of 53
    bits holding the integer exactly. *)
Lemma ofZ_safe (p : positive) :
  Zpos p < safeBound ->
  exists m e,
    Double.ofZ (Zpos p) = S754_finite false m e
    /\ digits2_pos m = 53%positive
    /\ -52 <= e <= 0
    /\ Zpos m = Zpos p * 2 ^ (- e).
Proof.
  intros Hp. pose proof (digits_safe p Hp) as Hd.
  unfold Double.ofZ, binary_normalize, binary_round.
  rewrite Z.add_0_r.
  assert (fexp Double.prec Double.emax (Zpos (digits2_pos p))
          = Zpos (digits2_pos p) - 53) as Hfexp.
  { unfold fexp, emin, Double.prec, Double.emax. lia. }
  rewrite Hfexp. unfold shl_align. rewrite Z.sub_0_r.
  destruct (Zpos (digits2_pos p) - 53) as [ | k | k] eqn:Hk; try lia.
  - exists p, 0.
    assert (digits2_pos p = 53%positive) as H53 by lia.
    rewrite binary_round_aux_exact by (first [assumption | lia]).
    repeat split; try lia.
  - exists (Pos.iter xO p k), (Zneg k).
    assert (digits2_pos (Pos.iter xO p k) = 53%positive) as H53.
    { rewrite digits2_pos_iter_xO. lia. }
    rewrite binary_round_aux_exact by (first [assumption | lia]).
    repeat split; try lia.
    rewrite Zpos_iter_xO. reflexivity.
Qed.

Lemma div_self (m : positive) (e : Z) :
  Double.div (S754_finite false m e) (S754_finite false m e) = Double.one.
Proof.
  unfold Double.div, SFdiv, SFdiv_core_binary.
  replace (Zdigits2 (Zpos m) + e - (Zdigits2 (Zpos m) + e)) with 0 by lia.
  rewrite Z.sub_diag.
  change (Z.min (fexp Double.prec Double.emax 0) 0) with (-53).
  change (0 - -53) with 53. cbv iota beta.
  change (IntDef.Z.div_eucl _ _) with (Z.div_eucl (Z.shiftl (Zpos m) 53) (Zpos m)).
  assert (Z.div_eucl (Z.shiftl (Zpos m) 53) (Zpos m) = (2 ^ 53, 0)) as ->.
  { rewrite Z.shiftl_mul_pow2 by lia.
    pose proof (Z_div_mod (Zpos m * 2 ^ 53) (Zpos m) ltac:(lia)) as H.
    destruct (Z.div_eucl _ _) as [q r]. destruct H as [Heq Hr].
    assert (q = 2 ^ 53) by nia. f_equal; lia. }
  unfold new_location, new_location_even, new_location_odd.
  destruct (Z.even (Zpos m)); vm_compute; reflexivity.
Qed.

Lemma iter_pos_Pos_iter {A} (f : A -> A) (n : positive) (x : A) :
  SpecFloat.iter_pos f n x = Pos.iter f x n.
Proof.
  revert x. induction n as [n IH | n IH | ]; intros x; simpl.
  - rewrite !IH, !Pos.iter_swap. reflexivity.
  - rewrite !IH. reflexivity.
  - reflexivity.
Qed.

Lemma shr_exact (k : positive) (m : positive) :
  SpecFloat.iter_pos shr_1 k (Build_shr_record (Zpos (Pos.iter xO m k)) false false)
  = Build_shr_record (Zpos m) false false.
Proof.
  rewrite iter_pos_Pos_iter.
  induction k as [ | k IH] using Pos.peano_ind.
  - reflexivity.
  - rewrite !Pos.iter_succ, <- Pos.iter_swap. simpl shr_1. exact IH.
Qed.

Lemma mul_one (m : positive) (e : Z) :
  digits2_pos m = 53%positive -> -52 <= e <= 0 ->
  Double.mul (S754_finite false m e) Double.one = S754_finite false m e.
Proof.
  intros H53 He. unfold Double.mul, SFmul, Double.one. simpl xorb.
  rewrite Pos.mul_comm.
  change (4503599627370496 * m)%positive with (Pos.iter xO m 52).
  assert (digits2_pos (Pos.iter xO m 52) = 105%positive) as H105.
  { rewrite digits2_pos_iter_xO, H53. reflexivity. }
  assert (fexp Double.prec Double.emax (105 + (e + -52)) - (e + -52) = 52) as Hf1.
  { unfold fexp, emin, Double.prec, Double.emax. lia. }
  assert (fexp Double.prec Double.emax (53 + (e + -52 + 52)) - (e + -52 + 52) = 0)
    as Hf2.
  { unfold fexp, emin, Double.prec, Double.emax. lia. }
  unfold binary_round_aux, shr_fexp.
  unfold Zdigits2 at 1. rewrite H105, Hf1.
  unfold shr at 1.
  change (shr_record_of_loc (Zpos (Pos.iter xO m 52)) loc_Exact)
    with (Build_shr_record (Zpos (Pos.iter xO m 52)) false false).
  rewrite shr_exact.
  simpl shr_m. simpl loc_of_shr_record. unfold round_nearest_even.
  unfold Zdigits2. rewrite H53, Hf2. simpl.
  assert ((e + -52 + 52 <=? Double.emax - Double.prec) = true) as ->
      by (apply Z.leb_le; unfold Double.emax, Double.prec; lia).
  f_equal. lia.
Qed.

Lemma round_exact (p m : positive) (e : Z) :
  -52 <= e <= 0 -> Zpos m = Zpos p * 2 ^ (- e) ->
  Double.round (S754_finite false m e) = Finite (Zpos p).
Proof.
  intros He Hm. unfold Double.round.
  destruct e as [ | k | k]; try lia.
  - simpl in Hm. f_equal. lia.
  - f_equal. change (- Zneg k) with (Zpos k) in Hm. rewrite Hm.
    rewrite Z.pow_add_r by lia. change (2 ^ 1) with 2.
    replace (2 * (Zpos p * 2 ^ Zpos k) + 2 ^ Zpos k)
      with ((2 * Zpos p + 1) * 2 ^ Zpos k) by ring.
    rewrite (Z.mul_comm (2 ^ Zpos k) 2), Z.div_mul_cancel_r by lia.
    rewrite Z.mul_comm, Z.div_add_l by lia. reflexivity.
Qed.

(** Scaling by [T / T] changes nothing: the factor is 1.0 and the product
    is exact. *)
Lemma roundScaled_unit_factor (d T : Z) :
  0 < d < safeBound -> 0 < T < safeBound ->
  roundScaled d (Double.div (Double.ofZ T) (Double.ofZ T)) = d.
Proof.
  intros Hd HT. unfold roundScaled.
  destruct d as [ | p | p]; try lia. destruct T as [ | q | q]; try lia.
  destruct (ofZ_safe q ltac:(lia)) as (mq & eq_ & -> & _).
  destruct (ofZ_safe p ltac:(lia)) as (mp & ep & -> & H53 & He & Hm).
  rewrite div_self, mul_one by assumption.
  rewrite (round_exact p) by assumption. reflexivity.
Qed.
(** ** Binary64 error bounds behind the crossfade offsets *)

Lemma fexp_normal (z : Z) :
  -1021 <= z -> fexp Double.prec Double.emax z = z - 53.
Proof. intros Hz. unfold SpecFloat.fexp, emin, Double.prec, Double.emax. lia. Qed.

Lemma digits_bounds (p : positive) :
  2 ^ (Zpos (digits2_pos p) - 1) <= Zpos p < 2 ^ Zpos (digits2_pos p).
Proof.
  rewrite digits2_pos_size.
  pose proof (Pos.size_le p) as Hle. pose proof (Pos.size_gt p) as Hgt.
  assert (Zpos (2 ^ Pos.size p) <= Zpos p~0) as H1 by exact Hle.
  assert (Zpos p < Zpos (2 ^ Pos.size p)) as H2 by exact Hgt.
  rewrite Pos2Z.inj_pow in H1, H2.
  change (Zpos p~0) with (2 * Zpos p) in H1.
  replace (Zpos (Pos.size p)) with (Z.succ (Zpos (Pos.size p) - 1)) in H1 by lia.
  rewrite Z.pow_succ_r in H1 by lia. lia.
Qed.

Lemma digits_unique (p : positive) (k : Z) :
  2 ^ (k - 1) <= Zpos p < 2 ^ k -> Zpos (digits2_pos p) = k.
Proof.
  intros [Hlo Hhi]. pose proof (digits_bounds p) as [Dlo Dhi].
  assert (0 < k) as Hk.
  { destruct (Z.lt_trichotomy k 0) as [Hn | [-> | ]]; [ | simpl in Hhi; lia | assumption].
    rewrite Z.pow_neg_r in Hhi by assumption. lia. }
  destruct (Z.lt_trichotomy (Zpos (digits2_pos p)) k) as [Hlt | [ | Hgt]];
    [exfalso | assumption | exfalso].
  - assert (2 ^ Zpos (digits2_pos p) <= 2 ^ (k - 1)) by (apply Z.pow_le_mono_r; lia).
    lia.
  - assert (2 ^ k <= 2 ^ (Zpos (digits2_pos p) - 1)) by (apply Z.pow_le_mono_r; lia).
    lia.
Qed.

Lemma shr_m_shr_1 (r : shr_record) :
  0 <= shr_m r -> shr_m (shr_1 r) = shr_m r / 2.
Proof.
  destruct r as [m r s]. simpl. intros Hm.
  destruct m as [ | p | p]; [reflexivity | | lia].
  destruct p as [p | p | ]; simpl shr_m.
  - rewrite Pos2Z.inj_xI. apply Z.div_unique with 1; lia.
  - rewrite Pos2Z.inj_xO. apply Z.div_unique with 0; lia.
  - reflexivity.
Qed.

Lemma shr_m_iter (n : positive) (r : shr_record) :
  0 <= shr_m r ->
  shr_m (SpecFloat.iter_pos shr_1 n r) = shr_m r / 2 ^ Zpos n.
Proof.
  intros Hr. rewrite iter_pos_Pos_iter.
  induction n as [ | n IH] using Pos.peano_ind.
  - simpl. rewrite shr_m_shr_1 by assumption. reflexivity.
  - rewrite Pos.iter_succ, shr_m_shr_1.
    + rewrite IH, Z.div_div, Pos2Z.inj_succ, Z.pow_succ_r by lia.
      f_equal. lia.
    + rewrite <- iter_pos_Pos_iter. apply iter_pos_shr_1_nonneg, Hr.
Qed.

Lemma round_nearest_even_range (m : Z) (l : location) :
  m <= round_nearest_even m l <= m + 1.
Proof.
  unfold round_nearest_even. destruct l as [ | [ | | ]]; try lia.
  destruct (Z.even m); lia.
Qed.

(** The first shift of a rounding: a mantissa of [d >= 53] bits loses its
    [d - 53] low bits. *)
Lemma shr_fexp_normal (m : positive) (e : Z) (l : location) :
  53 <= Zpos (digits2_pos m) -> -1074 <= e ->
  let n := Zpos (digits2_pos m) - 53 in
  exists mrs,
    shr_fexp Double.prec Double.emax (Zpos m) e l = (mrs, e + n)
    /\ shr_m mrs = Zpos m / 2 ^ n.
Proof.
  intros Hd He n. unfold shr_fexp. simpl Zdigits2.
  rewrite fexp_normal by lia.
  replace (Zpos (digits2_pos m) + e - 53 - e) with n by (subst n; lia).
  assert (shr_m (shr_record_of_loc (Zpos m) l) = Zpos m) as Hrec.
  { destruct l as [ | [ | | ]]; reflexivity. }
  unfold shr. destruct n as [ | k | k] eqn:Hn; try lia.
  - eexists. split; [f_equal; lia | ]. rewrite Hrec, Z.div_1_r. reflexivity.
  - eexists. split; [reflexivity | ]. rewrite shr_m_iter, Hrec by lia. reflexivity.
Qed.

(** The second shift: a rounded mantissa in [2^52, 2^53] is kept, or
    halved when it reached 2^53. *)
Lemma shr_fexp_carry (m2 e1 : Z) :
  2 ^ 52 <= m2 <= 2 ^ 53 -> -1074 <= e1 <= 970 ->
  exists (M : positive) (n' : Z) mrs,
    shr_fexp Double.prec Double.emax m2 e1 loc_Exact = (mrs, e1 + n')
    /\ shr_m mrs = Zpos M
    /\ digits2_pos M = 53%positive
    /\ 0 <= n' <= 1
    /\ Zpos M * 2 ^ n' = m2.
Proof.
  intros Hm He.
  destruct (Z.eq_dec m2 (2 ^ 53)) as [-> | Hne].
  - exists 4503599627370496%positive, 1. eexists.
    unfold shr_fexp. change (Zdigits2 (2 ^ 53)) with 54.
    rewrite fexp_normal by lia.
    replace (54 + e1 - 53 - e1) with 1 by lia.
    split; [reflexivity | ]. repeat split; lia.
  - destruct m2 as [ | p | p]; try lia.
    assert (Zpos (digits2_pos p) = 53) as H53 by (apply digits_unique; lia).
    exists p, 0. eexists.
    unfold shr_fexp. simpl Zdigits2. rewrite H53, fexp_normal by lia.
    replace (53 + e1 - 53 - e1) with 0 by lia.
    split; [unfold shr; f_equal; lia | ].
    repeat split; try lia.
Qed.

(** Rounding a mantissa of [d >= 53] bits: the result is normalized and
    off by at most [2^(d - 53)] units of the input. *)
Lemma round_aux_normal (m : positive) (e : Z) (l : location) :
  53 <= Zpos (digits2_pos m) -> -1074 <= e ->
  Zpos (digits2_pos m) + e <= 1023 ->
  exists (M : positive) (n : Z),
    binary_round_aux Double.prec Double.emax false (Zpos m) e l
    = S754_finite false M (e + n)
    /\ digits2_pos M = 53%positive
    /\ 0 <= n <= Zpos (digits2_pos m) - 52
    /\ Z.abs (Zpos M * 2 ^ n - Zpos m) <= 2 ^ (Zpos (digits2_pos m) - 53).
Proof.
  intros Hd He Hmax. set (n0 := Zpos (digits2_pos m) - 53).
  destruct (shr_fexp_normal m e l Hd He) as (mrs & Hshr & Hm1). fold n0 in Hshr, Hm1.
  pose proof (digits_bounds m) as [Dlo Dhi].
  assert (0 <= n0) as Hn0 by (subst n0; lia).
  assert (0 < 2 ^ n0) as Hpow by (apply Z.pow_pos_nonneg; lia).
  assert (2 ^ (Zpos (digits2_pos m) - 1) = 2 ^ 52 * 2 ^ n0) as E1.
  { rewrite <- Z.pow_add_r by lia. f_equal. subst n0. lia. }
  assert (2 ^ Zpos (digits2_pos m) = 2 ^ 53 * 2 ^ n0) as E2.
  { rewrite <- Z.pow_add_r by lia. f_equal. subst n0. lia. }
  pose proof (Z.div_mod (Zpos m) (2 ^ n0) ltac:(lia)) as Hdm.
  pose proof (Z.mod_pos_bound (Zpos m) (2 ^ n0) Hpow) as Hr.
  set (m1 := Zpos m / 2 ^ n0) in *.
  assert (2 ^ 52 <= m1 < 2 ^ 53) as Hm1r by nia.
  pose proof (round_nearest_even_range m1 (loc_of_shr_record mrs)) as Hrne.
  set (m2 := round_nearest_even m1 (loc_of_shr_record mrs)) in *.
  destruct (shr_fexp_carry m2 (e + n0) ltac:(lia) ltac:(subst n0; lia))
    as (M & n' & mrs' & Hshr' & HM & H53 & Hn' & Hval).
  exists M, (n0 + n').
  unfold binary_round_aux. rewrite Hshr, Hm1. fold m1. fold m2. rewrite Hshr', HM.
  assert ((e + n0 + n' <=? Double.emax - Double.prec) = true) as ->
      by (apply Z.leb_le; unfold Double.emax, Double.prec; subst n0; lia).
  split; [f_equal; lia | ]. split; [assumption | ]. split; [subst n0; lia | ].
  rewrite Z.pow_add_r by lia.
  replace (Zpos M * (2 ^ n0 * 2 ^ n')) with (m2 * 2 ^ n0) by (rewrite <- Hval; ring).
  fold n0. nia.
Qed.


(** The quotient of two normalized doubles: normalized, and within three
    units of the last place of the exact quotient. *)
Lemma div_normal (mx my : positive) (ex ey : Z) :
  digits2_pos mx = 53%positive -> digits2_pos my = 53%positive ->
  -1000 <= ex - ey <= 900 ->
  exists (M : positive) (n : Z),
    Double.div (S754_finite false mx ex) (S754_finite false my ey)
    = S754_finite false M (ex - ey - 53 + n)
    /\ digits2_pos M = 53%positive
    /\ 0 <= n <= 2
    /\ Z.abs (Zpos M * 2 ^ n * Zpos my - Zpos mx * 2 ^ 53) <= 3 * Zpos my.
Proof.
  intros Hx Hy He.
  pose proof (digits_bounds mx) as Bx. pose proof (digits_bounds my) as By.
  rewrite Hx in Bx. rewrite Hy in By.
  change (2 ^ (53 - 1)) with (2 ^ 52) in Bx, By.
  unfold Double.div, SFdiv, SFdiv_core_binary. simpl Zdigits2. rewrite Hx, Hy.
  replace (53 + ex - (53 + ey)) with (ex - ey) by lia.
  rewrite fexp_normal by lia. rewrite Z.min_l by lia.
  replace (ex - ey - (ex - ey - 53)) with 53 by lia. cbv iota beta.
  change (IntDef.Z.div_eucl _ _) with (Z.div_eucl (Z.shiftl (Zpos mx) 53) (Zpos my)).
  rewrite Z.shiftl_mul_pow2 by lia.
  pose proof (Z_div_mod (Zpos mx * 2 ^ 53) (Zpos my) ltac:(lia)) as Hdm.
  destruct (Z.div_eucl (Zpos mx * 2 ^ 53) (Zpos my)) as [q r].
  destruct Hdm as [Heq Hr].
  assert (2 ^ 52 <= q < 2 ^ 54) as Hq by nia.
  destruct q as [ | pq | pq]; try lia.
  assert (53 <= Zpos (digits2_pos pq) <= 54) as Hd.
  { destruct (Z.lt_ge_cases (Zpos pq) (2 ^ 53)).
    - rewrite (digits_unique pq 53) by (change (2 ^ (53 - 1)) with (2 ^ 52); lia). lia.
    - rewrite (digits_unique pq 54) by (change (2 ^ (54 - 1)) with (2 ^ 53); lia). lia. }
  simpl xorb.
  destruct (round_aux_normal pq (ex - ey - 53) (new_location (Zpos my) r))
    as (M & n & Hres & H53 & Hn & Herr); try lia.
  exists M, n. split; [exact Hres | ]. split; [assumption | ]. split; [lia | ].
  assert (2 ^ (Zpos (digits2_pos pq) - 53) <= 2) as Hp.
  { change 2 with (2 ^ 1) at 2. apply Z.pow_le_mono_r; lia. }
  nia.
Qed.

Lemma shl_align_le (m : positive) (e e' : Z) :
  e' <= e -> Zpos (fst (shl_align m e e')) = Zpos m * 2 ^ (e - e').
Proof.
  intros He. unfold shl_align.
  destruct (e' - e) as [ | d | d] eqn:Hd; try lia.
  - simpl. replace (e - e') with 0 by lia. lia.
  - simpl. rewrite Zpos_iter_xO. f_equal. f_equal. lia.
Qed.

(** Normalizing an integer mantissa: exact below 53 bits, within one unit
    of the last place above. *)
Lemma binary_round_error (p : positive) (e : Z) :
  -200 <= e -> Zpos (digits2_pos p) + e <= 1023 ->
  exists (M : positive) (E : Z),
    binary_round Double.prec Double.emax false p e = S754_finite false M E
    /\ digits2_pos M = 53%positive
    /\ -256 <= E
    /\ Z.abs (Zpos M * 2 ^ (E + 256) - Zpos p * 2 ^ (e + 256)) * 2 ^ 52
       <= Zpos p * 2 ^ (e + 256).
Proof.
  intros He Hmax. unfold binary_round. rewrite fexp_normal by lia.
  pose proof (digits_bounds p) as [Dlo Dhi].
  assert (0 < 2 ^ (e + 256)) as Hpow by (apply Z.pow_pos_nonneg; lia).
  unfold shl_align.
  destruct (Zpos (digits2_pos p) + e - 53 - e) as [ | k | k] eqn:Hk.
  - destruct (round_aux_normal p e loc_Exact) as (M & n & Hres & H53 & Hn & Herr);
      try lia.
    exists M, (e + n). split; [exact Hres | ]. split; [assumption | ]. split; [lia | ].
    replace (Zpos (digits2_pos p) - 53) with 0 in Herr by lia.
    replace (Zpos (digits2_pos p) - 1) with 52 in Dlo by lia.
    replace (e + n + 256) with (n + (e + 256)) by lia.
    rewrite Z.pow_add_r by lia. change (2 ^ 0) with 1 in Herr. nia.
  - destruct (round_aux_normal p e loc_Exact) as (M & n & Hres & H53 & Hn & Herr);
      try lia.
    exists M, (e + n). split; [exact Hres | ]. split; [assumption | ]. split; [lia | ].
    replace (Zpos (digits2_pos p) - 53) with (Zpos k) in Herr by lia.
    replace (Zpos (digits2_pos p) - 1) with (52 + Zpos k) in Dlo by lia.
    rewrite Z.pow_add_r in Dlo by lia.
    replace (e + n + 256) with (n + (e + 256)) by lia.
    rewrite Z.pow_add_r by lia.
    assert (0 < 2 ^ Zpos k) by (apply Z.pow_pos_nonneg; lia).
    replace (Zpos M * (2 ^ n * 2 ^ (e + 256)) - Zpos p * 2 ^ (e + 256))
      with ((Zpos M * 2 ^ n - Zpos p) * 2 ^ (e + 256)) by ring.
    rewrite Z.abs_mul, (Z.abs_eq (2 ^ (e + 256))) by lia.
    nia.
  - exists (Pos.iter xO p k), (Zpos (digits2_pos p) + e - 53).
    assert (digits2_pos (Pos.iter xO p k) = 53%positive) as H53.
    { rewrite digits2_pos_iter_xO. lia. }
    rewrite binary_round_aux_exact by (first [assumption | lia]).
    split; [reflexivity | ]. split; [assumption | ]. split; [lia | ].
    rewrite Zpos_iter_xO.
    replace (e + 256) with (Zpos k + (Zpos (digits2_pos p) + e - 53 + 256)) by lia.
    rewrite (Z.pow_add_r 2 (Zpos k)) by lia.
    replace (Zpos p * 2 ^ Zpos k * 2 ^ (Zpos (digits2_pos p) + e - 53 + 256)
             - Zpos p * (2 ^ Zpos k * 2 ^ (Zpos (digits2_pos p) + e - 53 + 256)))
      with 0 by ring.
    simpl Z.abs.
    assert (0 < 2 ^ Zpos k) by (apply Z.pow_pos_nonneg; lia).
    assert (0 < 2 ^ (Zpos (digits2_pos p) + e - 53 + 256))
      by (apply Z.pow_pos_nonneg; lia).
    nia.
Qed.

(** A difference of positive doubles that stays positive: normalized, and
    within one unit of the last place of the exact difference. *)
Lemma sub_error (mx mc : positive) (ex ec : Z) :
  digits2_pos mx = 53%positive ->
  -128 <= ex <= 900 -> -128 <= ec <= 900 ->
  let x := S754_finite false mx ex in
  let c := S754_finite false mc ec in
  Double.scaled c < Double.scaled x ->
  exists (M : positive) (E : Z),
    Double.sub x c = S754_finite false M E
    /\ digits2_pos M = 53%positive
    /\ -256 <= E
    /\ Z.abs (Zpos M * 2 ^ (E + 256) - (Double.scaled x - Double.scaled c)) * 2 ^ 52
       <= Double.scaled x - Double.scaled c.
Proof.
  intros H53 Hex Hec x c Hlt. subst x c. unfold Double.scaled in *.
  unfold Double.sub, SFsub, cond_Zopp.
  set (ez := Z.min ex ec).
  rewrite !shl_align_le by (subst ez; lia).
  assert (0 < 2 ^ (ez + 256)) as Hpow by (apply Z.pow_pos_nonneg; subst ez; lia).
  assert (Zpos mx * 2 ^ (ex + 256) = Zpos mx * 2 ^ (ex - ez) * 2 ^ (ez + 256)) as Ex.
  { rewrite <- Z.mul_assoc, <- Z.pow_add_r by (subst ez; lia). do 2 f_equal. lia. }
  assert (Zpos mc * 2 ^ (ec + 256) = Zpos mc * 2 ^ (ec - ez) * 2 ^ (ez + 256)) as Ec.
  { rewrite <- Z.mul_assoc, <- Z.pow_add_r by (subst ez; lia). do 2 f_equal. lia. }
  rewrite Ex, Ec in *.
  set (D := Zpos mx * 2 ^ (ex - ez) - Zpos mc * 2 ^ (ec - ez)).
  assert (0 < D) as HD by (subst D; nia).
  replace (Zpos mx * 2 ^ (ex - ez) * 2 ^ (ez + 256)
           - Zpos mc * 2 ^ (ec - ez) * 2 ^ (ez + 256))
    with (D * 2 ^ (ez + 256)) by (subst D; ring).
  assert (D < 2 ^ Zpos (digits2_pos mx) * 2 ^ (ex - ez)) as Hup.
  { pose proof (digits_bounds mx) as [_ Hhi].
    assert (0 < 2 ^ (ex - ez)) by (apply Z.pow_pos_nonneg; subst ez; lia).
    assert (0 <= Zpos mc * 2 ^ (ec - ez)) by (apply Z.mul_nonneg_nonneg; [lia | apply Z.pow_nonneg; lia]).
    subst D. nia. }
  destruct D as [ | pD | pD] eqn:HeqD; try lia.
  unfold binary_normalize.
  apply binary_round_error; [subst ez; lia | ].
  pose proof (digits_bounds pD) as [Dlo _].
  rewrite H53, <- Z.pow_add_r in Hup by (subst ez; lia).
  assert (Zpos (digits2_pos pD) - 1 < 53 + (ex - ez)) as Hd.
  { apply (Z.pow_lt_mono_r_iff 2); [lia | subst ez; lia | lia]. }
  lia.
Qed.

(** [Math.max] of two normalized positive doubles is the one of larger
    value. *)
Lemma max_scaled (ma mb : positive) (ea eb : Z) :
  digits2_pos ma = 53%positive -> digits2_pos mb = 53%positive ->
  -256 <= ea -> -256 <= eb ->
  let a := S754_finite false ma ea in
  let b := S754_finite false mb eb in
  (Double.max a b = a \/ Double.max a b = b)
  /\ Double.scaled (Double.max a b) = Z.max (Double.scaled a) (Double.scaled b).
Proof.
  intros Ha Hb Hea Heb a b. subst a b.
  pose proof (digits_bounds ma) as Ba. pose proof (digits_bounds mb) as Bb.
  rewrite Ha in Ba. rewrite Hb in Bb. change (2 ^ (53 - 1)) with (2 ^ 52) in Ba, Bb.
  assert (0 < 2 ^ (ea + 256)) as Pa by (apply Z.pow_pos_nonneg; lia).
  assert (0 < 2 ^ (eb + 256)) as Pb by (apply Z.pow_pos_nonneg; lia).
  unfold Double.max, SFcompare.
  destruct (Z.compare_spec ea eb) as [-> | Hlt | Hgt].
  - change (Pos.compare_cont Eq ma mb) with (Pos.compare ma mb).
    destruct (Pos.compare_spec ma mb) as [-> | Hm | Hm]; unfold Double.scaled.
    + split; [left; reflexivity | lia].
    + split; [right; reflexivity | nia].
    + split; [left; reflexivity | nia].
  - unfold Double.scaled. split; [right; reflexivity | ].
    replace (eb + 256) with ((eb - ea - 1) + 1 + (ea + 256)) in * by lia.
    rewrite !Z.pow_add_r in * by lia. change (2 ^ 1) with 2 in *.
    assert (0 < 2 ^ (eb - ea - 1)) by (apply Z.pow_pos_nonneg; lia).
    nia.
  - unfold Double.scaled. split; [left; reflexivity | ].
    replace (ea + 256) with ((ea - eb - 1) + 1 + (eb + 256)) in * by lia.
    rewrite !Z.pow_add_r in * by lia. change (2 ^ 1) with 2 in *.
    assert (0 < 2 ^ (ea - eb - 1)) by (apply Z.pow_pos_nonneg; lia).
    nia.
Qed.

(** The rational value in terms of the scaled integer. *)
Lemma toQ_scaled (m : positive) (e : Z) :
  -256 <= e ->
  (Double.toQ (S754_finite false m e)
   == Qmake (Double.scaled (S754_finite false m e)) (2 ^ 256)%positive)%Q.
Proof.
  intros He. unfold Double.toQ, Double.scaled.
  destruct e as [ | k | k].
  - unfold Qeq, inject_Z. simpl Qnum. simpl Qden. 
    rewrite Pos2Z.inj_pow. change (0 + 256) with 256. lia.
  - unfold Qeq, inject_Z. simpl Qnum. simpl Qden.
    rewrite Pos2Z.inj_pow, Z.pow_add_r by lia. lia.
  - unfold Qeq. simpl Qnum. simpl Qden. rewrite !Pos2Z.inj_pow.
    replace (Zpos 256) with ((Zneg k + 256) + Zpos k) at 1 by lia.
    rewrite Z.pow_add_r by lia. ring.
Qed.

(** [ms / 1000] in seconds: normalized, and within a relative error of
    [3 * 2^-62] of the exact quotient. *)
Lemma seconds_error (ms : Z) :
  0 < ms < safeBound ->
  exists (M : positive) (E : Z),
    seconds ms = S754_finite false M E
    /\ digits2_pos M = 53%positive
    /\ -64 <= E <= 900
    /\ Z.abs (1000 * (Zpos M * 2 ^ (E + 256)) - ms * 2 ^ 256) * 2 ^ 62
       <= 3000 * (ms * 2 ^ 256).
Proof.
  intros Hms. destruct ms as [ | p | p]; try lia.
  destruct (ofZ_safe p ltac:(lia)) as (mS & eS & Hof & H53 & He & Hm).
  unfold seconds. rewrite Hof.
  change (Double.ofZ 1000) with (S754_finite false 8796093022208000 (-43)).
  destruct (div_normal mS 8796093022208000 eS (-43) H53 eq_refl ltac:(lia))
    as (M & n & Hres & HM & Hn & Herr).
  exists M, (eS - -43 - 53 + n).
  split; [exact Hres | ]. split; [assumption | ]. split; [lia | ].
  pose proof (digits_bounds mS) as [Blo _]. rewrite H53 in Blo.
  change (2 ^ (53 - 1)) with (2 ^ 52) in Blo.
  set (P := 2 ^ (eS + 246)).
  assert (0 < P) as HP by (apply Z.pow_pos_nonneg; lia).
  replace (eS - -43 - 53 + n + 256) with (n + (eS + 246)) by lia.
  rewrite Z.pow_add_r by lia. fold P.
  assert (Zpos p * 2 ^ 256 = Zpos mS * 1024 * P) as ->.
  { rewrite Hm. subst P. change 1024 with (2 ^ 10).
    replace 256 with (- eS + (eS + 246) + 10) at 1 by lia.
    rewrite !Z.pow_add_r by lia. ring. }
  set (V := Zpos M * 2 ^ n) in *.
  replace (1000 * (Zpos M * (2 ^ n * P)) - Zpos mS * 1024 * P)
    with ((1000 * V - 1024 * Zpos mS) * P) by (subst V; ring).
  rewrite Z.abs_mul, (Z.abs_eq P) by lia.
  assert (Z.abs (1000 * V - 1024 * Zpos mS) <= 3000) as HA by lia.
  nia.
Qed.

Lemma exactOffset_value (k sumMs : Z) :
  (exactOffset k sumMs == Qmake (Z.max 1 (sumMs - 300 * k)) 1000)%Q.
Proof.
  unfold exactOffset.
  destruct (Q.max_spec (1 # 1000)
              ((sumMs # 1000) - inject_Z k * (3 # 10))%Q) as [[Hlt ->] | [Hle ->]];
    unfold Qeq, Qlt, Qle, Qminus, Qplus, Qopp, Qmult, inject_Z in *;
    simpl in *; lia.
Qed.

(** One offset: [Math.max(0.001, ms / 1000 - c)] for a double [c] within
    2^-53 of [k * 3/10], against the exact value. *)
Lemma offset_error (k ms : Z) (mc : positive) (ec : Z) :
  1 <= k <= 3 -> 301 * k <= ms < safeBound ->
  -64 <= ec <= 0 ->
  Z.abs (10 * (Zpos mc * 2 ^ (ec + 256)) - 3 * k * 2 ^ 256) * 2 ^ 53 <= 10 * 2 ^ 256 ->
  let off := Double.max ms0_001 (Double.sub (seconds ms) (S754_finite false mc ec)) in
  (Qabs (Double.toQ off - exactOffset k ms) <= Qmake ms (2 ^ 58)%positive)%Q.
Proof.
  intros Hk Hms Hec Hc off.
  destruct (seconds_error ms ltac:(lia)) as (Mx & Ex & Hx & Hx53 & HEx & Herr).
  destruct (sub_error Mx mc Ex ec Hx53 ltac:(lia) ltac:(lia)) as (My & Ey & Hy & Hy53 & HEy & Hsub).
  { unfold Double.scaled. unfold safeBound in Hms. lia. }
  unfold Double.scaled in Hsub.
  destruct (max_scaled 4611686018427388 My (-62) Ey eq_refl Hy53 ltac:(lia) HEy)
    as [Hwhich Hmax].
  change (S754_finite false 4611686018427388 (-62)) with ms0_001 in Hwhich, Hmax.
  rewrite <- Hy, <- Hx in Hwhich, Hmax. fold off in Hwhich, Hmax.
  assert (exists m e, off = S754_finite false m e /\ -256 <= e) as (m & e & Hoff & He).
  { destruct Hwhich as [-> | ->]; [exists 4611686018427388%positive, (-62); split; [reflexivity | lia] | ].
    rewrite Hx, Hy. exists My, Ey. split; [reflexivity | assumption]. }
  rewrite exactOffset_value.
  rewrite Hoff, toQ_scaled by assumption. rewrite <- Hoff, Hmax.
  rewrite Hx, Hy. unfold Double.scaled at 2.
  change (Double.scaled ms0_001) with (4611686018427388 * 2 ^ (-62 + 256)).
  apply Qabs_Qle_condition.
  unfold Qle, Qminus, Qplus, Qopp. simpl Qnum. simpl Qden.
  rewrite !Pos2Z.inj_mul, !Pos2Z.inj_pow. unfold safeBound in Hms.
  split; lia.
Qed.

(** ** Crossfade guards and offsets *)

(** C6: segments 1 to 3 are guarded to at least 301 ms (crossfade duration
    300 ms plus 1 ms) and segment 4 is only kept at 1 ms or more.  Each
    crossfade offset for k = 1..3, computed by the program in binary64 as
    [Math.max(0.001, sum_k / 1000 - k * 0.30)] with [sum_k] the sum of the
    first k guarded durations, has the value of that formula on exact
    rationals up to rounding: as long as the three guarded durations sum
    to less than 2^53 ms, the double differs from
    [max(1/1000, sum_k/1000 - k * 3/10)] by at most [sum_k / 2^58] seconds.
    For every input the offset is at least the double 0.001, hence never
    negative. *)
Theorem crossfade_offsets (t : timing) :
  let sum1 := safeSeg1 t in
  let sum2 := safeSeg1 t + safeSeg2 t in
  let sum3 := safeSeg1 t + safeSeg2 t + safeSeg3 t in
  (safeSeg1 t = Z.max (seg1 t) 301 /\ safeSeg2 t = Z.max (seg2 t) 301 /\
   safeSeg3 t = Z.max (seg3 t) 301 /\ safeSeg4 t = Z.max (seg4 t) 1)
  /\ (sum3 < safeBound ->
      (Qabs (Double.toQ (off1 t) - exactOffset 1 sum1)
       <= Qmake sum1 (2 ^ 58)%positive)%Q
      /\ (Qabs (Double.toQ (off2 t) - exactOffset 2 sum2)
          <= Qmake sum2 (2 ^ 58)%positive)%Q
      /\ (Qabs (Double.toQ (off3 t) - exactOffset 3 sum3)
          <= Qmake sum3 (2 ^ 58)%positive)%Q)
  /\ (SFleb ms0_001 (off1 t) = true /\ SFleb ms0_001 (off2 t) = true /\
      SFleb ms0_001 (off3 t) = true)
  /\ (Double.isPositive (off1 t) = true /\ Double.isPositive (off2 t) = true /\
      Double.isPositive (off3 t) = true).
Proof.
  intros sum1 sum2 sum3.
  assert (safeSeg1 t = Z.max (seg1 t) 301 /\ safeSeg2 t = Z.max (seg2 t) 301 /\
          safeSeg3 t = Z.max (seg3 t) 301 /\ safeSeg4 t = Z.max (seg4 t) 1)
    as Hguard.
  { unfold safeSeg1, safeSeg2, safeSeg3, safeSeg4. rewrite xfadeGuard_value.
    repeat split. }
  split; [exact Hguard | ]. destruct Hguard as (G1 & G2 & G3 & _).
  split; [ | ].
  - intros Hbound. subst sum1 sum2 sum3.
    split; [ | split].
    + apply (offset_error 1 (safeSeg1 t) 5404319552844595 (-54)); lia.
    + apply (offset_error 2 (safeSeg1 t + safeSeg2 t) 5404319552844595 (-53)); lia.
    + apply (offset_error 3 (safeSeg1 t + safeSeg2 t + safeSeg3 t)
               8106479329266892 (-53)); lia.
  - pose proof (offset_ok (safeSeg1 t) 5404319552844595 (-54)) as [L1 P1].
    pose proof (offset_ok (safeSeg1 t + safeSeg2 t) 5404319552844595 (-53)) as [L2 P2].
    pose proof (offset_ok (safeSeg1 t + safeSeg2 t + safeSeg3 t)
                  8106479329266892 (-53)) as [L3 P3].
    repeat split; assumption.
Qed.

Lemma crossfade_offsets_witness :
  (Qabs (Double.toQ (off2 (Timing 1000 200 5000 700 6900)) - exactOffset 2 1301)
   <= Qmake 1301 (2 ^ 58)%positive)%Q.
Proof.
  pose proof (crossfade_offsets (Timing 1000 200 5000 700 6900)) as (_ & H & _).
  destruct H as (_ & H2 & _); [vm_compute; reflexivity | exact H2].
Defined.

(** ** Trimming *)

Lemma trimStart_noLeadingSpace (s : jsstring) : noLeadingSpace (trimStart s).
Proof.
  induction s as [ | c r IH]; simpl; [exact I | ].
  destruct (isWhiteSpace c) eqn:Hc; [exact IH | exact Hc].
Qed.

Lemma trimStart_fixed (s : jsstring) : noLeadingSpace s -> trimStart s = s.
Proof.
  destruct s as [ | c r]; simpl; [reflexivity | ]. intros ->. reflexivity.
Qed.

Lemma trimStart_suffix (s : jsstring) : exists w, s = w ++ trimStart s.
Proof.
  induction s as [ | c r [w IH]]; simpl; [exists []; reflexivity | ].
  destruct (isWhiteSpace c).
  - exists (c :: w). simpl. f_equal. exact IH.
  - exists []. reflexivity.
Qed.

Lemma trimEnd_prefix (s : jsstring) : exists w, s = trimEnd s ++ w.
Proof.
  unfold trimEnd. destruct (trimStart_suffix (reverse s)) as [w Hw].
  exists (reverse w).
  rewrite <- reverse_app, <- Hw, reverse_involutive. reflexivity.
Qed.

Lemma trimEnd_noLeadingSpace (s : jsstring) :
  noLeadingSpace s -> noLeadingSpace (trimEnd s).
Proof.
  intros Hs. destruct (trimEnd_prefix s) as [w Hw].
  destruct (trimEnd s) as [ | c r]; [exact I | ].
  rewrite Hw in Hs. exact Hs.
Qed.

Lemma trimEnd_idempotent (s : jsstring) : trimEnd (trimEnd s) = trimEnd s.
Proof.
  unfold trimEnd. rewrite reverse_involutive.
  rewrite (trimStart_fixed (trimStart _)) by apply trimStart_noLeadingSpace.
  reflexivity.
Qed.

Lemma trim_idempotent (s : jsstring) : trim (trim s) = trim s.
Proof.
  unfold trim.
  rewrite (trimStart_fixed (trimEnd _))
    by apply trimEnd_noLeadingSpace, trimStart_noLeadingSpace.
  apply trimEnd_idempotent.
Qed.

(** ** Reading captions *)

Lemma kept_is_keptItem (c : jsval) (it : item) :
  kept c = Some it -> keptItem it.
Proof.
  unfold kept, keepOrSkip, keepOrSkip.
  destruct (toNumber (optGet c (str "start_ms"))) as [ | | s]; try discriminate.
  destruct (toNumber (optGet c (str "end_ms"))) as [ | | e]; try discriminate.
  destruct (Z.leb_spec e s) as [ | Hlt]; simpl; [discriminate | ].
  destruct (nonEmpty _) eqn:Hne; simpl; [ | discriminate].
  intros [= <-]. unfold keptItem. simpl.
  split; [lia | split; [exact Hne | apply trim_idempotent]].
Qed.

Lemma keptItems_kept (captions : list jsval) :
  Forall keptItem (keptItems captions).
Proof.
  apply Forall_forall. intros it Hit.
  apply list_elem_of_omap in Hit as (c & _ & Hc).
  eapply kept_is_keptItem. exact Hc.
Qed.

Lemma kept_captionToJs (c : caption) :
  keptItem (toItem c) -> kept (captionToJs c) = Some (toItem c).
Proof.
  intros (Hd & Hne & Htrim). simpl in *.
  unfold kept, keepOrSkip, keepOrSkip.
  change (optGet (captionToJs c) (str "start_ms")) with (JNumber (Finite (start_ms c))).
  change (optGet (captionToJs c) (str "end_ms")) with (JNumber (Finite (end_ms c))).
  change (optGet (captionToJs c) (str "text")) with (JString (text c)).
  unfold orElse, truthy. rewrite Hne. simpl toString. simpl toNumber.
  rewrite Htrim, Hne.
  destruct (Z.leb_spec (end_ms c) (start_ms c)); [lia | reflexivity].
Qed.

Lemma keptItems_captionsToJs (out : list caption) :
  Forall (fun c => keptItem (toItem c)) out ->
  keptItems (captionToJs <$> out) = toItem <$> out.
Proof.
  induction 1 as [ | c out Hc _ IH]; [reflexivity | ].
  unfold keptItems in *. rewrite !fmap_cons.
  change (omap kept (captionToJs c :: (captionToJs <$> out)))
    with (match kept (captionToJs c) with
          | Some y => y :: omap kept (captionToJs <$> out)
          | None => omap kept (captionToJs <$> out)
          end).
  rewrite (kept_captionToJs c Hc), IH. reflexivity.
Qed.
(** ** The branches of the normalizer *)

Lemma layOut_texts (cur : Z) (items : list item) :
  text <$> layOut cur items = text_of <$> items.
Proof.
  revert cur. induction items as [ | it rest IH]; intros cur; simpl; [reflexivity | ].
  rewrite IH. reflexivity.
Qed.

Lemma layOut_contiguous (cur : Z) (items : list item) :
  contiguous (layOut cur items).
Proof.
  revert cur. induction items as [ | it rest IH]; intros cur; simpl; [exact I | ].
  destruct rest as [ | it' rest']; simpl; [exact I | ].
  split; [reflexivity | ]. apply (IH (cur + Z.max 1 (Math_round (dur_ms it)))).
Qed.

Lemma layOut_exact (cur : Z) (items : list item) :
  Forall (fun x => 1 <= dur_ms x) items ->
  toItem <$> layOut cur items = items.
Proof.
  intros Hall. revert cur.
  induction Hall as [ | it rest Hit _ IH]; intros cur; simpl; [reflexivity | ].
  rewrite IH. unfold toItem, Math_round. destruct it as [t d]. simpl in *.
  do 2 f_equal. lia.
Qed.

Lemma layOut_head (cur : Z) (items : list item) (c : caption) :
  head (layOut cur items) = Some c -> start_ms c = cur.
Proof.
  destruct items as [ | it rest]; simpl; [discriminate | ].
  intros [= <-]. reflexivity.
Qed.

Lemma kept_positive (items : list item) :
  Forall keptItem items -> Forall (fun x => 1 <= dur_ms x) items.
Proof.
  intros H. eapply Forall_impl; [exact H | ]. intros x (Hd & _). simpl. lia.
Qed.

Lemma totalDuration_toItem (out : list caption) :
  totalDuration out = sumDur (toItem <$> out).
Proof.
  induction out as [ | c out IH]; [reflexivity | ].
  rewrite totalDuration_cons, fmap_cons, sumDur_cons, IH. reflexivity.
Qed.

(** The three outcomes of the function after its first loop. *)
Lemma resize_cases (items : list item) (audioMs : number) (out : list caption) :
  resize items audioMs = Some out ->
  (items = [] /\ out = [])
  \/ (items <> [] /\ knownPositive audioMs = false /\ out = layOut 0 items)
  \/ (items <> []
      /\ exists T scaled adj,
           audioMs = Finite T /\ 0 < T
           /\ text_of <$> scaled = text_of <$> items
           /\ Forall (fun x => minSegMsFor T (Z.of_nat (length items)) <= dur_ms x)
                scaled
           /\ adjust T (minSegMsFor T (Z.of_nat (length items))) scaled = Some adj
           /\ out = emit T 0 adj).
Proof.
  intros Hout.
  destruct (decide (items = [])) as [Hnil | Hne].
  - left. split; [exact Hnil | ]. rewrite Hnil in Hout.
    unfold resize in Hout. simpl in Hout. congruence.
  - right. destruct (knownPositive audioMs) eqn:Hk.
    + right. split; [exact Hne | ].
      destruct audioMs as [ | neg | T]; try discriminate Hk.
      simpl in Hk. apply Z.ltb_lt in Hk.
      rewrite (resize_known _ _ Hk Hne) in Hout.
      destruct (scaleToTarget_unfold items T Hne)
        as (scaled & adj & _ & Htx & Hfloor & Hadj & Heq).
      rewrite Heq in Hout. injection Hout as <-.
      exists T, scaled, adj. repeat split; assumption.
    + left. split; [exact Hne | split; [reflexivity | ]].
      unfold resize in Hout. rewrite bool_decide_eq_false_2 in Hout
        by (destruct items; [congruence | discriminate]).
      rewrite Hk in Hout. simpl in Hout. congruence.
Qed.

Lemma resize_texts (items : list item) (audioMs : number) (out : list caption) :
  resize items audioMs = Some out ->
  text <$> out = text_of <$> items.
Proof.
  intros Hout.
  destruct (resize_cases _ _ _ Hout)
    as [[-> ->] | [(_ & _ & ->) | (Hne & T & scaled & adj & -> & HT & Htx & Hfloor & Hadj & ->)]].
  - reflexivity.
  - apply layOut_texts.
  - rewrite emit_texts.
    assert (1 <= minSegMsFor T (Z.of_nat (length items))) as Hm
        by (pose proof (minSegMsFor_ge_80 T (Z.of_nat (length items))); lia).
    destruct (adjust_inv _ _ _ _ Hm Hfloor Hadj) as (_ & -> & _).
    exact Htx.
Qed.

Lemma resize_unknown_layOut (items : list item) (audioMs : number)
    (out : list caption) :
  knownPositive audioMs = false ->
  resize items audioMs = Some out ->
  out = layOut 0 items.
Proof.
  intros Hk Hout.
  destruct (resize_cases _ _ _ Hout)
    as [[-> ->] | [(_ & _ & ->) | (_ & T & s & a & -> & HT & _)]].
  - reflexivity.
  - reflexivity.
  - simpl in Hk. apply Z.ltb_ge in Hk. lia.
Qed.

(** The list the normalizer returned, passed in again: no conversion
    throws on it. *)
Lemma normalize_captionsToJs (out : list caption) (audioMs : number) :
  normalizeAndScaleCaptions (captionsToJs out) audioMs
  = resize (keptItems (captionToJs <$> out)) audioMs.
Proof.
  unfold captionsToJs. rewrite normalize_spec.
  replace (existsb entryThrows (captionToJs <$> out)) with false; [reflexivity | ].
  symmetry. induction out as [ | c out IH]; [reflexivity | exact IH].
Qed.

Lemma emit_layOut (audioMs : Z) (items : list item) :
  forall cur,
    cur + totalDurOf items = audioMs ->
    emit audioMs cur items = layOut cur items.
Proof.
  induction items as [ | x rest IH]; intros cur Hsum; [reflexivity | ].
  rewrite totalDurOf_cons in Hsum.
  destruct rest as [ | y rest'].
  - simpl. unfold totalDurOf in Hsum. simpl in Hsum. unfold Math_round.
    f_equal. f_equal. lia.
  - rewrite emit_cons_cons.
    change (layOut cur (x :: y :: rest'))
      with (Caption cur (cur + Z.max 1 (Math_round (dur_ms x))) (text_of x)
              :: layOut (cur + Z.max 1 (Math_round (dur_ms x))) (y :: rest')).
    f_equal. apply IH. unfold Math_round. lia.
Qed.

(** ** Normalizing a normalized list *)

Lemma scaleItem_unit_factor (minSegMs T : Z) (l : list item) :
  0 < T < safeBound ->
  Forall (fun x => 1 <= dur_ms x < safeBound) l ->
  scaleItem minSegMs (Double.div (Double.ofZ T) (Double.ofZ T)) <$> l
  = raise minSegMs <$> l.
Proof.
  intros HT Hl. apply Forall_fmap_ext_1.
  eapply Forall_impl; [exact Hl | ]. intros x Hx.
  unfold scaleItem, raise, Math_round.
  simpl in Hx. rewrite (Z.max_r 1 (dur_ms x)) by lia.
  rewrite roundScaled_unit_factor by lia. reflexivity.
Qed.

Lemma raise_above_floor (minSegMs : Z) (l : list item) :
  Forall (fun x => minSegMs <= dur_ms x) l -> raise minSegMs <$> l = l.
Proof.
  induction 1 as [ | x l Hx _ IH]; [reflexivity | ].
  rewrite fmap_cons, IH. unfold raise. destruct x as [t d]. simpl in *.
  rewrite Z.max_r by lia. reflexivity.
Qed.

Lemma dur_le_sumDur (l : list item) (x : item) :
  Forall (fun y => 0 <= dur_ms y) l -> x ∈ l -> dur_ms x <= sumDur l.
Proof.
  induction 1 as [ | y l Hy Hl IH]; intros Hin; [inversion Hin | ].
  rewrite sumDur_cons.
  assert (0 <= sumDur l) by (pose proof (sumDur_lower 0 l Hl); lia).
  apply elem_of_cons in Hin as [-> | Hin]; [lia | ].
  specialize (IH Hin). lia.
Qed.

Lemma reduceToFloor_noop (minSegMs : Z) (idx : list nat) (scaled : list item)
    (over : Z) :
  Forall (fun x => dur_ms x = minSegMs) scaled ->
  Forall (fun i => (i < length scaled)%nat) idx ->
  reduceToFloor minSegMs idx scaled over = Some (scaled, over).
Proof.
  intros Hall. induction 1 as [ | i rest Hi _ IH]; simpl; [reflexivity | ].
  destruct (Z.leb_spec over 0) as [ | Hpos]; [reflexivity | ].
  unfold reduceAt.
  destruct (lookup_lt_is_Some_2 scaled i Hi) as [x Hx]. rewrite Hx. simpl.
  pose proof (Forall_lookup_1 _ _ _ _ Hall Hx) as Hd. simpl in Hd.
  rewrite Hd, Z.sub_diag. simpl Z.max. rewrite Z.min_l by lia.
  rewrite !Z.sub_0_r.
  replace (Item (text_of x) minSegMs) with x by (destruct x; simpl in *; congruence).
  rewrite (list_insert_id _ _ _ Hx). exact IH.
Qed.

(** The adjustment either leaves every duration at the floor or above, or
    it went through the second pass, which started from durations that were
    all exactly at the floor. *)
Lemma adjust_cases (audioMs minSegMs : Z) (scaled adj : list item) :
  Forall (fun x => minSegMs <= dur_ms x) scaled ->
  adjust audioMs minSegMs scaled = Some adj ->
  Forall (fun x => minSegMs <= dur_ms x) adj
  \/ exists s1 o1 o2,
       0 < o1
       /\ Forall (fun x => dur_ms x = minSegMs) s1
       /\ sumDur s1 - o1 = audioMs
       /\ reduceToOne (length s1) s1 o1 = Some (adj, o2).
Proof.
  intros Hall Hadj. unfold adjust in Hadj.
  destruct (Z.gtb_spec (sumDur scaled) audioMs) as [Hgt | Hle].
  - destruct (reduceToFloor _ _ _ _) as [[s1 o1] | ] eqn:H1; simpl in Hadj;
      [ | discriminate].
    assert (0 <= sumDur scaled - audioMs) as Hov by lia.
    destruct (reduceToFloor_inv _ _ _ _ _ _ Hov H1) as [I1 Hfloor].
    pose proof (pass_lower _ _ _ _ _ I1 minSegMs (Z.le_refl _) Hall) as Hs1.
    destruct (Z.gtb_spec o1 0) as [Ho1 | Ho1].
    + destruct (reduceToOne _ _ _) as [[s2 o2] | ] eqn:H2; simpl in Hadj;
        [ | discriminate].
      injection Hadj as <-. right. exists s1, o1, o2.
      split; [lia | ]. split; [ | split; [ | exact H2]].
      * apply Forall_lookup. intros j x Hx.
        destruct (Hfloor ltac:(lia) j) as (x' & Hx' & Hd).
        { apply elem_of_sortedIdx. rewrite <- (pass_length _ _ _ _ _ I1).
          eapply lookup_lt_Some. exact Hx. }
        rewrite Hx in Hx'. injection Hx' as <-.
        pose proof (Forall_lookup_1 _ _ _ _ Hs1 Hx). simpl in *. lia.
      * pose proof (pass_balance _ _ _ _ _ I1). lia.
    + injection Hadj as <-. left. exact Hs1.
  - left. destruct (Z.ltb_spec (sumDur scaled) audioMs) as [Hlt | Hge].
    + destruct (scaled !! (length scaled - 1)%nat) as [x | ] eqn:Hx; simpl in Hadj;
        [ | discriminate].
      injection Hadj as <-.
      pose proof (Forall_lookup_1 _ _ _ _ Hall Hx) as Hd. simpl in Hd.
      apply Forall_insert; [assumption | simpl; lia].
    + injection Hadj as <-. exact Hall.
Qed.

Lemma adjust_balanced (audioMs minSegMs : Z) (l : list item) :
  sumDur l = audioMs -> adjust audioMs minSegMs l = Some l.
Proof.
  intros Hsum. unfold adjust.
  destruct (Z.gtb_spec (sumDur l) audioMs); [lia | ].
  destruct (Z.ltb_spec (sumDur l) audioMs); [lia | reflexivity].
Qed.

Lemma adjust_fixpoint (audioMs minSegMs : Z) (scaled adj : list item) :
  1 <= minSegMs ->
  Forall (fun x => minSegMs <= dur_ms x) scaled ->
  adjust audioMs minSegMs scaled = Some adj ->
  sumDur adj = audioMs ->
  adjust audioMs minSegMs (raise minSegMs <$> adj) = Some adj.
Proof.
  intros Hm Hall Hadj Hsum.
  destruct (adjust_cases _ _ _ _ Hall Hadj) as [Habove | (s1 & o1 & o2 & Ho1 & Hs1 & Hbal & H2)].
  - rewrite (raise_above_floor _ _ Habove). apply adjust_balanced, Hsum.
  - assert (0 <= o1) as Hov by lia.
    destruct (reduceToOne_inv _ _ _ _ _ Hov H2) as (I2 & _ & _).
    assert (raise minSegMs <$> adj = s1) as ->.
    { apply list_eq. intros j. rewrite list_lookup_fmap.
      destruct (adj !! j) as [y' | ] eqn:Hy'; simpl.
      - destruct (pass_decreases _ _ _ _ _ I2 j y' Hy') as (y & Hy & Hle).
        pose proof (f_equal (fun l => l !! j) (pass_texts _ _ _ _ _ I2)) as Htx.
        simpl in Htx. rewrite !list_lookup_fmap, Hy, Hy' in Htx. simpl in Htx.
        injection Htx as Htx.
        pose proof (Forall_lookup_1 _ _ _ _ Hs1 Hy) as Hd. simpl in Hd.
        rewrite Hy. f_equal. unfold raise. destruct y as [t d]. simpl in *.
        rewrite Htx, Z.max_l by lia. congruence.
      - symmetry. apply lookup_ge_None. apply lookup_ge_None in Hy'.
        rewrite <- (pass_length _ _ _ _ _ I2). exact Hy'. }
    unfold adjust.
    destruct (Z.gtb_spec (sumDur s1) audioMs) as [_ | Hle]; [ | lia].
    rewrite (reduceToFloor_noop minSegMs (sortedIdx s1) s1 _ Hs1).
    + simpl. replace (sumDur s1 - audioMs) with o1 by lia.
      destruct (Z.gtb_spec o1 0) as [_ | ]; [ | lia].
      rewrite H2. reflexivity.
    + apply Forall_forall. intros i Hi. apply elem_of_sortedIdx. exact Hi.
Qed.

(** C7, as stated, fails in two ways: a list laid out without a known
    target is rescaled to the floor of 600 ms when its own total becomes
    the target, and a list produced for a target with fewer milliseconds
    than entries loses its last entry, which ends before it starts. *)
Lemma renormalizes_fails :
  ~ renormalizes (JArray [rawCaption 0 100 "a"; rawCaption 100 2000 "b"]) NaN
  /\ ~ renormalizes
         (JArray [rawCaption 0 1000 "a"; rawCaption 1000 2000 "b";
                  rawCaption 2000 3000 "c"])
         (Finite 1).
Proof.
  split; intros H.
  - specialize (H _ ltac:(vm_compute; reflexivity)).
    vm_compute in H. discriminate H.
  - specialize (H _ ltac:(vm_compute; reflexivity)).
    vm_compute in H. discriminate H.
Qed.

(** A list produced for a known target, passed in again with its total
    duration as the target. *)
Lemma resize_idempotent_known (items : list item) (T : Z) (out : list caption) :
  Forall keptItem items ->
  0 < T < safeBound ->
  items <> [] ->
  Z.of_nat (length items) <= T ->
  resize items (Finite T) = Some out ->
  totalDuration out = T
  /\ resize (keptItems (captionToJs <$> out)) (Finite (totalDuration out))
     = Some out.
Proof.
  intros Hkept HT Hne HN Hout.
  assert (0 < T) as HT0 by lia.
  rewrite (resize_known _ _ HT0 Hne) in Hout.
  destruct (scaleToTarget_unfold items T Hne)
    as (scaled & adj & Hlen & Htx & Hfloor & Hadj & Heq).
  rewrite Heq in Hout. injection Hout as <-. clear Heq.
  set (m := minSegMsFor T (Z.of_nat (length items))) in *.
  assert (1 <= m) as Hm by (pose proof (minSegMsFor_ge_80 T
    (Z.of_nat (length items))); subst m; lia).
  destruct (adjust_inv _ _ _ _ Hm Hfloor Hadj)
    as (Hlen' & Htx' & Hpos & Hsum & Hones).
  assert (adj <> []) as Hadjne.
  { intros ->. simpl in Hlen'. rewrite <- Hlen', Hlen in *.
    destruct items; [congruence | discriminate]. }
  assert (sumDur adj = T) as Hexact.
  { destruct (Z.lt_ge_cases T (sumDur adj)) as [Hover | ]; [ | lia].
    rewrite (sumDur_const 1 adj (Hones Hover)) in Hover. lia. }
  assert (totalDuration (emit T 0 adj) = T) as Htotal
    by (rewrite emit_totalDuration by assumption; lia).
  split; [exact Htotal | ]. rewrite Htotal.
  assert (toItem <$> emit T 0 adj = adj) as Hitems
    by (apply emit_exact; [assumption | lia]).
  assert (keptItems (captionToJs <$> emit T 0 adj) = adj) as Hcollect.
  { rewrite keptItems_captionsToJs; [exact Hitems | ].
    change (Forall (keptItem ∘ toItem) (emit T 0 adj)).
    apply Forall_fmap. rewrite Hitems.
    assert (Forall (fun t => nonEmpty t = true /\ trim t = t) (text_of <$> adj))
      as Htexts.
    { rewrite Htx', Htx. apply Forall_fmap.
      eapply Forall_impl; [exact Hkept | ].
      intros it (_ & H1 & H2). split; assumption. }
    apply Forall_fmap in Htexts.
    apply Forall_forall. intros x Hx.
    rewrite Forall_forall in Hpos, Htexts.
    specialize (Hpos x Hx). specialize (Htexts x Hx). simpl in *.
    destruct Htexts. unfold keptItem. repeat split; try assumption; lia. }
  rewrite Hcollect.
  rewrite resize_known by first [lia | assumption].
  unfold scaleToTarget.
  rewrite (totalDurOf_exact adj Hpos), Hexact.
  destruct (Z.leb_spec T 0) as [ | _]; [lia | ].
  rewrite scaleItem_unit_factor; [ | lia | ].
  - replace (length adj) with (length items) by lia.
    fold m. rewrite (adjust_fixpoint T m scaled adj Hm Hfloor Hadj Hexact).
    simpl. rewrite forceLastEnd_emit. reflexivity.
  - apply Forall_forall. intros x Hx.
    pose proof (dur_le_sumDur adj x) as Hle.
    rewrite Forall_forall in Hpos. pose proof (Hpos x Hx) as H1. simpl in H1.
    split; [exact H1 | ].
    assert (dur_ms x <= sumDur adj); [ | lia].
    apply Hle; [ | exact Hx].
    apply Forall_forall. intros y Hy. specialize (Hpos y Hy). simpl in Hpos. lia.
Qed.

(** A list laid out without a target, passed in again with its total
    duration as the target: it comes back when none of its durations is
    below the floor computed for that total. *)
Lemma resize_idempotent_layOut (items : list item) :
  Forall keptItem items ->
  items <> [] ->
  totalDurOf items < safeBound ->
  let out := layOut 0 items in
  Forall (fun c => minSegMsFor (totalDuration out) (Z.of_nat (length items))
                   <= end_ms c - start_ms c) out ->
  totalDuration out = totalDurOf items
  /\ resize (keptItems (captionToJs <$> out)) (Finite (totalDuration out))
     = Some out.
Proof.
  intros Hkept Hne Hsafe out Hfloor.
  pose proof (kept_positive _ Hkept) as Hpos.
  assert (toItem <$> out = items) as Hitems by (apply layOut_exact, Hpos).
  assert (totalDuration out = totalDurOf items) as Htotal
    by (rewrite totalDuration_toItem, Hitems, totalDurOf_exact by exact Hpos;
        reflexivity).
  split; [exact Htotal | ].
  assert (keptItems (captionToJs <$> out) = items) as Hcollect.
  { rewrite keptItems_captionsToJs; [exact Hitems | ].
    change (Forall (keptItem ∘ toItem) out).
    apply Forall_fmap. rewrite Hitems. exact Hkept. }
  rewrite Hcollect, Htotal in *.
  pose proof (totalDurOf_pos items Hne) as HT.
  set (T := totalDurOf items) in *.
  set (m := minSegMsFor T (Z.of_nat (length items))) in *.
  assert (Forall (fun x => m <= dur_ms x) items) as Habove.
  { rewrite <- Hitems. apply Forall_fmap. exact Hfloor. }
  rewrite resize_known by assumption.
  unfold scaleToTarget. fold T.
  destruct (Z.leb_spec T 0) as [ | _]; [lia | ].
  assert (sumDur items = T) as Hsum
    by (subst T; symmetry; apply totalDurOf_exact, Hpos).
  rewrite scaleItem_unit_factor; [ | lia | ].
  - fold m. rewrite (raise_above_floor m items Habove).
    unfold adjust. rewrite Hsum.
    destruct (Z.gtb_spec T T) as [ | _]; [lia | ].
    destruct (Z.ltb_spec T T) as [ | _]; [lia | ].
    simpl. rewrite forceLastEnd_emit.
    f_equal. apply emit_layOut. subst T. lia.
  - apply Forall_forall. intros x Hx.
    pose proof (dur_le_sumDur items x) as Hle.
    rewrite Forall_forall in Hpos. pose proof (Hpos x Hx) as H1. simpl in H1.
    split; [exact H1 | ].
    assert (dur_ms x <= sumDur items); [ | lia].
    apply Hle; [ | exact Hx].
    apply Forall_forall. intros y Hy. specialize (Hpos y Hy). simpl in Hpos. lia.
Qed.

(** C7, amended: take a caption list that is read exactly, whose filtered
    list has N >= 1 entries with durations adding up to 2^40 ms at most.
    The list the normalizer produces for a known target T <= 2^40 with
    N <= T has total duration T, and normalizing it again against that
    total duration returns exactly the same list.  The list it produces
    without a usable target comes back too when normalized against its
    own total duration, provided none of its durations is below the floor
    computed for that total; a shorter entry is stretched to the floor,
    and the list changes. *)
Theorem normalize_idempotent (captions : list jsval) (items : list item)
    (audioMs : number) (out : list caption) :
  forallb exactEntry captions = true ->
  collectItems captions = Some items ->
  items <> [] ->
  totalDurOf items <= msBound ->
  normalizeAndScaleCaptions (JArray captions) audioMs = Some out ->
  (forall T, audioMs = Finite T -> 0 < T <= msBound ->
             Z.of_nat (length items) <= T ->
             totalDuration out = T /\ renormalizes (JArray captions) audioMs)
  /\ (knownPositive audioMs = false ->
      Forall (fun c => minSegMsFor (totalDuration out) (Z.of_nat (length items))
                       <= end_ms c - start_ms c) out ->
      totalDuration out = totalDurOf items
      /\ renormalizes (JArray captions) audioMs).
Proof.
  intros Hexact Hitems Hne Hsum Hout.
  destruct (collectItems_exact captions items Hexact Hitems) as [Hk Hnorm].
  assert (Forall keptItem items) as Hkept by (rewrite Hk; apply keptItems_kept).
  assert (msBound < safeBound) as Hb by (vm_compute; reflexivity).
  rewrite Hnorm in Hout.
  split.
  - intros T -> HT HN.
    destruct (resize_idempotent_known items T out Hkept) as [Htot Hre];
      [lia | assumption | assumption | assumption | ].
    split; [exact Htot | ].
    intros out' Hout'. rewrite Hnorm, Hout in Hout'. injection Hout' as <-.
    rewrite normalize_captionsToJs. exact Hre.
  - intros Hknown Hfloor.
    pose proof (resize_unknown_layOut _ _ _ Hknown Hout) as ->.
    destruct (resize_idempotent_layOut items Hkept Hne) as [Htot Hre];
      [lia | exact Hfloor | ].
    split; [exact Htot | ].
    intros out' Hout'. rewrite Hnorm, Hout in Hout'. injection Hout' as <-.
    rewrite normalize_captionsToJs. exact Hre.
Qed.

Lemma normalize_idempotent_witness :
  renormalizes
    (JArray [rawCaption 0 1000 "a"; rawCaption 1000 2000 "b";
             rawCaption 2000 3000 "c"]) (Finite 100)
  /\ renormalizes
       (JArray [rawCaption 0 700 "a"; rawCaption 700 2000 "b"]) NaN.
Proof.
  split.
  - destruct (normalize_idempotent
                [rawCaption 0 1000 "a"; rawCaption 1000 2000 "b";
                 rawCaption 2000 3000 "c"]
                [Item (str "a") 1000; Item (str "b") 1000; Item (str "c") 1000]
                (Finite 100)
                [Caption 0 80 (str "a"); Caption 80 99 (str "b");
                 Caption 99 100 (str "c")]) as [H _].
    + vm_compute. reflexivity.
    + vm_compute. reflexivity.
    + discriminate.
    + vm_compute. discriminate.
    + vm_compute. reflexivity.
    + destruct (H 100 eq_refl) as [_ Hre];
        [unfold msBound; lia | simpl; lia | exact Hre].
  - destruct (normalize_idempotent
                [rawCaption 0 700 "a"; rawCaption 700 2000 "b"]
                [Item (str "a") 700; Item (str "b") 1300]
                NaN
                [Caption 0 700 (str "a"); Caption 700 2000 (str "b")]) as [_ H].
    + vm_compute. reflexivity.
    + vm_compute. reflexivity.
    + discriminate.
    + vm_compute. discriminate.
    + vm_compute. reflexivity.
    + destruct H as [_ Hre]; [reflexivity | | exact Hre].
      repeat constructor; vm_compute; discriminate.
Defined.

(** ** Words of a collapsed and trimmed text *)

Lemma collapseFrom_onlySpaces (inRun : bool) (s : jsstring) :
  onlySpaces (collapseFrom inRun s).
Proof.
  revert inRun. induction s as [ | c r IH]; intros inRun; simpl; [constructor | ].
  destruct (isWhiteSpace c) eqn:Hc.
  - destruct inRun; [apply IH | ]. constructor; [reflexivity | apply IH].
  - constructor; [congruence | apply IH].
Qed.

Lemma collapseFrom_noDoubleSpace (inRun : bool) (s : jsstring) :
  noDoubleSpace (collapseFrom inRun s)
  /\ (inRun = true -> noLeadingSpace (collapseFrom inRun s)).
Proof.
  revert inRun. induction s as [ | c r IH]; intros inRun; simpl; [auto | ].
  destruct (isWhiteSpace c) eqn:Hc.
  - destruct inRun.
    + apply IH.
    + split; [ | discriminate]. simpl. split; [ | apply IH].
      intros _. apply IH. reflexivity.
  - split; [ | intros _; exact Hc]. simpl. split; [congruence | apply IH].
Qed.

Lemma noDoubleSpace_app (a b : jsstring) :
  noDoubleSpace (a ++ b) -> noDoubleSpace a /\ noDoubleSpace b.
Proof.
  induction a as [ | c a IH]; simpl; [auto | ].
  intros [Hc Hrest]. destruct (IH Hrest) as [Ha Hb].
  split; [ | exact Hb]. split; [ | exact Ha].
  intros Hws. specialize (Hc Hws). destruct a; [exact I | exact Hc].
Qed.

Lemma onlySpaces_app (a b : jsstring) :
  onlySpaces (a ++ b) -> onlySpaces a /\ onlySpaces b.
Proof. apply Forall_app. Qed.

Lemma trimEnd_noTrailingSpace (s : jsstring) : noTrailingSpace (trimEnd s).
Proof.
  unfold noTrailingSpace, trimEnd. rewrite last_reverse.
  pose proof (trimStart_noLeadingSpace (reverse s)) as H.
  destruct (trimStart (reverse s)); [exact I | exact H].
Qed.

Lemma trimEnd_fixed (s : jsstring) : noTrailingSpace s -> trimEnd s = s.
Proof.
  intros Hs. unfold trimEnd. rewrite trimStart_fixed; [apply reverse_involutive | ].
  unfold noTrailingSpace in Hs. rewrite <- head_reverse in Hs.
  destruct (reverse s); [exact I | exact Hs].
Qed.

Lemma trim_fixed (s : jsstring) :
  noLeadingSpace s -> noTrailingSpace s -> trim s = s.
Proof.
  intros Hl Ht. unfold trim. rewrite (trimStart_fixed s Hl). apply trimEnd_fixed, Ht.
Qed.

Lemma trim_collapse_tidy (s : jsstring) : tidy (trim (collapseWhiteSpace s)).
Proof.
  unfold trim, collapseWhiteSpace.
  set (c := collapseFrom false s).
  destruct (trimStart_suffix c) as [w1 Hw1].
  destruct (trimEnd_prefix (trimStart c)) as [w2 Hw2].
  pose proof (proj1 (collapseFrom_noDoubleSpace false s)) as Hd.
  pose proof (collapseFrom_onlySpaces false s) as Ho.
  fold c in Hd, Ho. rewrite Hw1, Hw2 in Hd, Ho.
  apply noDoubleSpace_app in Hd as [_ Hd]. apply noDoubleSpace_app in Hd as [Hd _].
  apply onlySpaces_app in Ho as [_ Ho]. apply onlySpaces_app in Ho as [Ho _].
  constructor; try assumption.
  - apply trimEnd_noLeadingSpace, trimStart_noLeadingSpace.
  - apply trimEnd_noTrailingSpace.
Qed.

Lemma split_not_nil (s : jsstring) : split SPACE s <> [].
Proof.
  destruct s as [ | c r]; simpl; [discriminate | ].
  destruct (c =? SPACE)%N; [discriminate | ].
  destruct (split SPACE r); discriminate.
Qed.

Lemma isWhiteSpace_SPACE : isWhiteSpace SPACE = true.
Proof. reflexivity. Qed.

Lemma noTrailingSpace_tail (c : N) (r : jsstring) :
  noTrailingSpace (c :: r) -> noTrailingSpace r /\ (r = [] -> isWhiteSpace c = false).
Proof.
  unfold noTrailingSpace. rewrite last_cons.
  destruct (last r) eqn:Hl.
  - intros H. split; [exact H | ]. intros ->. discriminate Hl.
  - intros H. split; [exact I | intros _; exact H].
Qed.

(** The pieces between the spaces of a tidy text are words. *)
Lemma split_tidy_aux (t : jsstring) :
  noTrailingSpace t -> noDoubleSpace t -> onlySpaces t ->
  exists hw tl,
    split SPACE t = hw :: tl
    /\ Forall goodWord tl
    /\ Forall (fun c => isWhiteSpace c = false) hw
    /\ (t <> [] -> noLeadingSpace t -> hw <> []).
Proof.
  induction t as [ | c r IH]; intros Htrail Hdouble Honly.
  - exists [], []. simpl. repeat split; try constructor. congruence.
  - destruct (noTrailingSpace_tail c r Htrail) as [Htrail' Hlast].
    destruct Hdouble as [Hnext Hdouble'].
    apply Forall_cons in Honly as [Hc Honly'].
    destruct (IH Htrail' Hdouble' Honly') as (hw & tl & Hsplit & Htl & Hhw & Hne).
    simpl. rewrite Hsplit.
    destruct (N.eqb_spec c SPACE) as [-> | Hcs].
    + exists [], (hw :: tl). repeat split; try constructor; try assumption.
      * split; [ | exact Hhw]. apply Hne.
        -- intros ->. specialize (Hlast eq_refl). discriminate Hlast.
        -- apply Hnext. reflexivity.
      * intros _ Hlead. simpl in Hlead. discriminate Hlead.
    + assert (isWhiteSpace c = false) as Hcw.
      { destruct (isWhiteSpace c) eqn:E; [ | reflexivity].
        exfalso. apply Hcs, Hc. reflexivity. }
      exists (c :: hw), tl. repeat split; try assumption.
      * constructor; assumption.
      * discriminate.
Qed.

Lemma split_tidy (t : jsstring) :
  tidy t -> t <> [] -> Forall goodWord (split SPACE t).
Proof.
  intros [Hl Ht Hd Ho] Hne.
  destruct (split_tidy_aux t Ht Hd Ho) as (hw & tl & -> & Htl & Hhw & Hnn).
  constructor; [ | exact Htl]. split; [apply Hnn; assumption | exact Hhw].
Qed.

(** ** Lines as joined words *)

Lemma join_snoc (sep : jsstring) (ws : list jsstring) (w : jsstring) :
  ws <> [] -> join sep (ws ++ [w]) = join sep ws ++ sep ++ w.
Proof.
  induction ws as [ | a ws IH]; [congruence | intros _].
  destruct ws as [ | b ws]; [reflexivity | ].
  change (join sep ((a :: b :: ws) ++ [w]))
    with (a ++ sep ++ join sep ((b :: ws) ++ [w])).
  rewrite IH by discriminate.
  change (join sep (a :: b :: ws)) with (a ++ sep ++ join sep (b :: ws)).
  rewrite <- !app_assoc. reflexivity.
Qed.

Lemma join_app (sep : jsstring) (ws1 ws2 : list jsstring) :
  ws1 <> [] -> ws2 <> [] ->
  join sep (ws1 ++ ws2) = join sep ws1 ++ sep ++ join sep ws2.
Proof.
  intros H1 H2. induction ws1 as [ | a ws1 IH]; [congruence | ].
  destruct ws1 as [ | b ws1].
  - destruct ws2 as [ | c ws2]; [congruence | reflexivity].
  - change (join sep ((a :: b :: ws1) ++ ws2))
      with (a ++ sep ++ join sep ((b :: ws1) ++ ws2)).
    rewrite IH by discriminate.
    change (join sep (a :: b :: ws1)) with (a ++ sep ++ join sep (b :: ws1)).
    rewrite <- !app_assoc. reflexivity.
Qed.

Lemma goodWord_no_space (w : jsstring) :
  goodWord w -> Forall (fun c => c <> SPACE) w.
Proof.
  intros [_ Hw]. eapply Forall_impl; [exact Hw | ].
  intros c Hc ->. rewrite isWhiteSpace_SPACE in Hc. discriminate Hc.
Qed.

Lemma split_word_space (w s : jsstring) :
  Forall (fun c => c <> SPACE) w ->
  split SPACE (w ++ SPACE :: s) = w :: split SPACE s.
Proof.
  induction 1 as [ | c w Hc _ IH]; simpl.
  - reflexivity.
  - destruct (N.eqb_spec c SPACE); [contradiction | ]. rewrite IH. reflexivity.
Qed.

Lemma split_word (w : jsstring) :
  Forall (fun c => c <> SPACE) w -> split SPACE w = [w].
Proof.
  induction 1 as [ | c w Hc _ IH]; simpl.
  - reflexivity.
  - destruct (N.eqb_spec c SPACE); [contradiction | ]. rewrite IH. reflexivity.
Qed.

Lemma split_lineOf (ws : list jsstring) :
  goodLine ws -> split SPACE (lineOf ws) = ws.
Proof.
  intros [Hne Hws]. revert Hne. unfold lineOf.
  induction Hws as [ | a ws Ha Hws IH]; [congruence | intros _].
  destruct ws as [ | b ws].
  - simpl. apply split_word, goodWord_no_space, Ha.
  - change (join (str " ") (a :: b :: ws))
      with (a ++ SPACE :: join (str " ") (b :: ws)).
    rewrite split_word_space by apply goodWord_no_space, Ha.
    rewrite IH by discriminate. reflexivity.
Qed.

Lemma filter_goodWords (ws : list jsstring) :
  Forall goodWord ws -> filter (fun w => Is_true (nonEmpty w)) ws = ws.
Proof.
  induction 1 as [ | w ws [Hw _] _ IH]; [reflexivity | ].
  rewrite filter_cons_True, IH; [reflexivity | ].
  destruct w; [congruence | exact I].
Qed.

Lemma wordsOf_lineOf (ws : list jsstring) :
  Forall goodWord ws -> wordsOf (lineOf ws) = ws.
Proof.
  intros Hws. unfold wordsOf. destruct ws as [ | a ws]; [reflexivity | ].
  rewrite split_lineOf by (split; [discriminate | exact Hws]).
  apply filter_goodWords, Hws.
Qed.

Lemma lineOf_nonEmpty (ws : list jsstring) :
  Forall goodWord ws -> nonEmpty (lineOf ws) = bool_decide (ws <> []).
Proof.
  intros Hws. destruct Hws as [ | a ws [Ha _] _]; [reflexivity | ].
  rewrite bool_decide_eq_true_2 by discriminate.
  destruct a as [ | c a]; [congruence | ].
  destruct ws; reflexivity.
Qed.

Lemma lineOf_concat (lws : list (list jsstring)) :
  Forall goodLine lws -> lineOf (lineOf <$> lws) = lineOf (concat lws).
Proof.
  induction 1 as [ | l lws [Hl _] Hlws IH]; [reflexivity | ].
  destruct lws as [ | l2 lws].
  - simpl. rewrite app_nil_r. reflexivity.
  - change (lineOf (lineOf <$> l :: l2 :: lws))
      with (lineOf l ++ str " " ++ lineOf (lineOf <$> l2 :: lws)).
    rewrite IH. change (concat (l :: l2 :: lws)) with (l ++ concat (l2 :: lws)).
    unfold lineOf at 3. rewrite join_app; [reflexivity | exact Hl | ].
    apply Forall_cons in Hlws as [[Hl2 _] _].
    destruct l2; [congruence | discriminate].
Qed.

Lemma lineOf_tidy_ends (ws : list jsstring) :
  Forall goodWord ws -> noLeadingSpace (lineOf ws) /\ noTrailingSpace (lineOf ws).
Proof.
  induction 1 as [ | a ws [Ha Hca] Hws [IHl IHt]]; [split; exact I | ].
  assert (noLeadingSpace a /\ noTrailingSpace a) as [Hla Hta].
  { split.
    - destruct a; [exact I | ]. apply Forall_cons in Hca as [H _]. exact H.
    - unfold noTrailingSpace. destruct (last a) as [c | ] eqn:Hc; [ | exact I].
      rewrite Forall_forall in Hca. apply Hca. eapply last_Some_elem_of, Hc. }
  destruct ws as [ | b ws]; [split; assumption | ].
  change (lineOf (a :: b :: ws)) with (a ++ str " " ++ lineOf (b :: ws)).
  split.
  - destruct a; [congruence | exact Hla].
  - unfold noTrailingSpace in *. rewrite !last_app.
    destruct (last (lineOf (b :: ws))) as [c | ] eqn:Hc; [exact IHt | ].
    exfalso. apply last_None in Hc.
    pose proof (lineOf_nonEmpty (b :: ws) Hws) as Hn.
    rewrite Hc, bool_decide_eq_true_2 in Hn by discriminate. discriminate Hn.
Qed.

Lemma trim_lineOf (ws : list jsstring) :
  Forall goodWord ws -> trim (lineOf ws) = lineOf ws.
Proof.
  intros Hws. destruct (lineOf_tidy_ends ws Hws). apply trim_fixed; assumption.
Qed.

Lemma countWords_lineOf (ws : list jsstring) :
  Forall goodWord ws -> countWords (lineOf ws) = length ws.
Proof.
  intros Hws. change (countWords (lineOf ws)) with (length (wordsOf (lineOf ws))).
  rewrite wordsOf_lineOf by assumption. reflexivity.
Qed.

Lemma goodLines_concat (lws : list (list jsstring)) :
  Forall goodLine lws -> Forall goodWord (concat lws).
Proof.
  induction 1 as [ | l lws [_ Hl] _ IH]; [constructor | ].
  simpl. apply Forall_app. split; assumption.
Qed.

(** ** The word wrapper *)

Lemma wrapLoop_cons (maxCharsPerLine maxLines : Z) (w : jsstring)
    (rest lines : list jsstring) (cur : jsstring) :
  wrapLoop maxCharsPerLine maxLines (w :: rest) lines cur
  = if len (if nonEmpty cur then cur ++ str " " ++ w else w) <=? maxCharsPerLine
    then wrapLoop maxCharsPerLine maxLines rest lines
           (if nonEmpty cur then cur ++ str " " ++ w else w)
    else if Z.of_nat (length (if nonEmpty cur then lines ++ [cur] else lines))
            >=? maxLines - 1
         then (if nonEmpty cur then lines ++ [cur] else lines, w)
         else wrapLoop maxCharsPerLine maxLines rest
                (if nonEmpty cur then lines ++ [cur] else lines) w.
Proof. reflexivity. Qed.

Lemma fillLast_cons (maxCharsPerLine : Z) (w : jsstring) (rest : list jsstring)
    (last : jsstring) :
  fillLast maxCharsPerLine (w :: rest) last
  = if len (last ++ str " " ++ w) <=? maxCharsPerLine
    then fillLast maxCharsPerLine rest (last ++ str " " ++ w)
    else last.
Proof. reflexivity. Qed.

(** The state of the first loop, read as words: the lines pushed so far,
    the current line, and the words consumed by both. *)
Lemma wrapLoop_words (maxCharsPerLine maxLines : Z) (words : list jsstring) :
  Forall goodWord words ->
  forall (lws : list (list jsstring)) (cws : list jsstring),
    Forall goodLine lws -> Forall goodWord cws ->
    exists lws' cws' rest,
      wrapLoop maxCharsPerLine maxLines words (lineOf <$> lws) (lineOf cws)
      = (lineOf <$> lws', lineOf cws')
      /\ Forall goodLine lws' /\ Forall goodWord cws' /\ Forall goodWord rest
      /\ concat lws ++ cws ++ words = concat lws' ++ cws' ++ rest.
Proof.
  induction 1 as [ | w words Hw Hwords IH]; intros lws cws Hlws Hcws.
  - exists lws, cws, []. simpl. repeat split; try assumption. constructor.
  - rewrite wrapLoop_cons.
    match goal with
    | |- context [len ?cand <=? _] => assert (cand = lineOf (cws ++ [w])) as ->
    end.
    { rewrite (lineOf_nonEmpty cws Hcws). destruct cws as [ | a cws].
      - reflexivity.
      - rewrite bool_decide_eq_true_2 by discriminate.
        unfold lineOf. rewrite join_snoc by discriminate. reflexivity. }
    destruct (len (lineOf (cws ++ [w])) <=? maxCharsPerLine).
    + destruct (IH lws (cws ++ [w]) Hlws) as (lws' & cws' & rest & Hrun & H1 & H2 & H3 & Heq).
      { apply Forall_app. split; [assumption | constructor; [assumption | constructor]]. }
      exists lws', cws', rest. rewrite Hrun. repeat split; try assumption.
      rewrite <- Heq, <- !app_assoc. reflexivity.
    + set (lws1 := if bool_decide (cws <> []) then lws ++ [cws] else lws).
      match goal with
      | |- context [Z.of_nat (length ?lines') >=? _] =>
          assert (lines' = lineOf <$> lws1) as ->
      end.
      { rewrite (lineOf_nonEmpty cws Hcws). subst lws1.
        destruct (bool_decide (cws <> [])); [ | reflexivity].
        rewrite fmap_app. reflexivity. }
      assert (Forall goodLine lws1) as Hlws1.
      { subst lws1. destruct (bool_decide_reflect (cws <> [])); [ | assumption].
        apply Forall_app. split; [assumption | ].
        constructor; [split; assumption | constructor]. }
      assert (concat lws1 = concat lws ++ cws) as Hcat.
      { subst lws1. destruct (bool_decide_reflect (cws <> [])) as [ | Hnil].
        - rewrite concat_app. simpl. rewrite app_nil_r. reflexivity.
        - destruct cws; [rewrite app_nil_r; reflexivity | ].
          exfalso. apply Hnil. discriminate. }
      assert (Forall goodWord [w]) as Hw1 by (constructor; [assumption | constructor]).
      change w with (lineOf [w]) at 1 2.
      destruct (Z.of_nat (length (lineOf <$> lws1)) >=? maxLines - 1).
      * exists lws1, [w], words. repeat split; try assumption.
        rewrite Hcat, <- !app_assoc. reflexivity.
      * destruct (IH lws1 [w] Hlws1 Hw1)
          as (lws' & cws' & rest & Hrun & H1 & H2 & H3 & Heq).
        exists lws', cws', rest. rewrite Hrun. repeat split; try assumption.
        rewrite <- Heq, Hcat, <- !app_assoc. reflexivity.
Qed.

Lemma fillLast_words (maxCharsPerLine : Z) (rest : list jsstring) :
  forall cws : list jsstring,
    cws <> [] ->
    exists pre post,
      rest = pre ++ post
      /\ fillLast maxCharsPerLine rest (lineOf cws) = lineOf (cws ++ pre).
Proof.
  induction rest as [ | w rest IH]; intros cws Hne.
  - exists [], []. simpl. rewrite app_nil_r. split; reflexivity.
  - rewrite fillLast_cons.
    match goal with
    | |- context [len ?cand <=? _] => assert (cand = lineOf (cws ++ [w])) as ->
    end.
    { unfold lineOf. rewrite join_snoc by assumption. reflexivity. }
    destruct (len (lineOf (cws ++ [w])) <=? maxCharsPerLine).
    + destruct (IH (cws ++ [w])) as (pre & post & -> & Hfill).
      { destruct cws; discriminate. }
      exists (w :: pre), post. split; [reflexivity | ].
      rewrite Hfill, <- app_assoc. reflexivity.
    + exists [], (w :: rest). rewrite app_nil_r. split; reflexivity.
Qed.

(** The lines of the wrapper hold, in order, an initial run of the words
    of the text; the other words are dropped. *)
Lemma wrapLines_words (t : jsstring) (maxCharsPerLine maxLines : Z) :
  tidy t -> t <> [] ->
  exists (lws : list (list jsstring)) (dropped : list jsstring),
    wrapLines t maxCharsPerLine maxLines = lineOf <$> lws
    /\ Forall goodLine lws
    /\ split SPACE t = concat lws ++ dropped.
Proof.
  intros Ht Hne. pose proof (split_tidy t Ht Hne) as Hwords.
  unfold wrapLines.
  destruct (wrapLoop_words maxCharsPerLine maxLines (split SPACE t) Hwords [] [])
    as (lws & cws & rest & Hrun & Hlws & Hcws & Hrest & Heq);
    [constructor | constructor | ].
  change (lineOf <$> []) with (@nil jsstring) in Hrun.
  change (lineOf []) with (@nil N) in Hrun.
  rewrite Hrun. simpl in Heq.
  rewrite (lineOf_nonEmpty cws Hcws).
  destruct (bool_decide_reflect (cws <> [])) as [Hcne | Hcnil]; cbn [andb].
  - destruct (Z.of_nat (length (lineOf <$> lws)) <? maxLines).
    + rewrite lineOf_concat by assumption.
      rewrite !countWords_lineOf by (assumption || apply goodLines_concat, Hlws).
      rewrite Heq, app_assoc, drop_app_length' by (rewrite length_app; reflexivity).
      fold (lineOf rest).
      rewrite (trim_lineOf rest Hrest), (lineOf_nonEmpty rest Hrest).
      destruct (bool_decide_reflect (rest <> [])) as [Hrne | Hrnil].
      * rewrite split_lineOf by (split; assumption).
        destruct (fillLast_words maxCharsPerLine rest cws Hcne)
          as (pre & post & Hsplit & ->).
        exists (lws ++ [cws ++ pre]), post.
        rewrite fmap_app. split; [reflexivity | ].
        assert (Forall goodWord pre) as Hpre.
        { rewrite Hsplit in Hrest. apply Forall_app in Hrest. tauto. }
        split.
        -- apply Forall_app. split; [assumption | ].
           constructor; [ | constructor].
           split; [destruct cws; [congruence | discriminate] | ].
           apply Forall_app. split; assumption.
        -- rewrite concat_app. simpl. rewrite app_nil_r, Hsplit, <- !app_assoc.
           reflexivity.
      * exists (lws ++ [cws]), rest.
        rewrite fmap_app. split; [reflexivity | ]. split.
        -- apply Forall_app. split; [assumption | ].
           constructor; [split; assumption | constructor].
        -- rewrite concat_app. simpl. rewrite app_nil_r, <- !app_assoc. reflexivity.
    + exists lws, (cws ++ rest). repeat split; assumption.
  - exists lws, (cws ++ rest). repeat split; assumption.
Qed.

(** C2, as stated, fails: with a budget of 3 characters and 2 lines the
    third word of "aaa bbb ccc" fits no line and is dropped; the result is
    the two lines "aaa" and "bbb". *)
Lemma keepsEveryWord_fails :
  wrapByChars (JString (str "aaa bbb ccc")) 3 2 = str "aaa\Nbbb"
  /\ ~ keepsEveryWord (JString (str "aaa bbb ccc")) 3 2.
Proof.
  split; [vm_compute; reflexivity | ].
  intros H. specialize (H (str "ccc")).
  assert (str "ccc" ∈ wordsOf (str "aaa bbb ccc")) as Hin.
  { change (wordsOf (str "aaa bbb ccc")) with [str "aaa"; str "bbb"; str "ccc"].
    rewrite !elem_of_cons. tauto. }
  specialize (H Hin). vm_compute in H. discriminate H.
Qed.

(** Whatever the budget and the maximum line count, the words of the
    lines returned are, in order, an initial run of the words of the
    collapsed and trimmed input. *)
Lemma wrapByChars_words_prefix (text : jsval) (maxCharsPerLine maxLines : Z) :
  let t := trim (collapseWhiteSpace (toString (orElse text (JString [])))) in
  exists (lines dropped : list jsstring),
    wrapByChars text maxCharsPerLine maxLines = join (str "\N") lines
    /\ wordsOf t = concat (wordsOf <$> lines) ++ dropped.
Proof.
  intros t. unfold wrapByChars. fold t.
  pose proof (trim_collapse_tidy (toString (orElse text (JString [])))) as Ht.
  fold t in Ht.
  destruct t as [ | c r] eqn:Et.
  - exists [], []. split; reflexivity.
  - simpl negb. cbv iota.
    destruct (wrapLines_words (c :: r) maxCharsPerLine maxLines Ht ltac:(discriminate))
      as (lws & dropped & Hlines & Hlws & Hsplit).
    assert (wordsOf (c :: r) = split SPACE (c :: r)) as Hall.
    { apply filter_goodWords, split_tidy; [exact Ht | discriminate]. }
    destruct (bool_decide_reflect (length (wrapLines (c :: r) maxCharsPerLine maxLines) = 0%nat)).
    + exists [c :: r], []. split; [reflexivity | ].
      simpl. rewrite !app_nil_r. reflexivity.
    + exists (lineOf <$> lws), dropped. rewrite Hlines. split; [reflexivity | ].
      rewrite Hall, Hsplit. f_equal.
      rewrite <- list_fmap_compose. f_equal.
      clear -Hlws. induction Hlws as [ | l lws [_ Hl] _ IH]; [reflexivity | ].
      rewrite fmap_cons, <- IH. f_equal. symmetry. apply wordsOf_lineOf, Hl.
Qed.

(** ** The scenarios of the specification, evaluated *)

Example scenario_one_caption :
  normalizeAndScaleCaptions (JArray [rawCaption 0 2000 "Hello"]) (Finite 4000)
  = Some [Caption 0 4000 (str "Hello")].
Proof. vm_compute. reflexivity. Qed.

Example scenario_seven_captions :
  let captions :=
    JArray [rawCaption 0 1000 "a"; rawCaption 1000 2000 "b";
            rawCaption 2000 3000 "c"; rawCaption 3000 4000 "d";
            rawCaption 4000 5000 "e"; rawCaption 5000 6000 "f";
            rawCaption 6000 7000 "g"] in
  exists out,
    normalizeAndScaleCaptions captions (Finite 14000) = Some out
    /\ (fun c => end_ms c - start_ms c) <$> out
       = [2000; 2000; 2000; 2000; 2000; 2000; 2000]
    /\ planSegments out 14000 = Timing 2000 4000 4000 4000 14000.
Proof. eexists. split; [vm_compute; reflexivity | split; reflexivity]. Qed.

Example scenario_floor_boundary :
  minSegMsFor 1000 2 = 500
  /\ normalizeAndScaleCaptions
       (JArray [rawCaption 0 100 "a"; rawCaption 100 200 "b"]) (Finite 1000)
     = Some [Caption 0 500 (str "a"); Caption 500 1000 (str "b")].
Proof. split; vm_compute; reflexivity. Qed.

Example scenario_no_valid_caption :
  normalizeAndScaleCaptions (JArray [rawCaption 10 10 "x"; JNull]) (Finite 8000)
  = Some []
  /\ planSegments [] 8000 = Timing 2000 2000 2000 2000 8000
  /\ dialogues (str "{tag}") [] = [].
Proof. repeat split; vm_compute; reflexivity. Qed.

Example wrap_title_example :
  wrapByChars (JString (str "Hello  brave new world")) 12 6
  = str "Hello brave\Nnew world".
Proof. vm_compute. reflexivity. Qed.
(** * Further properties of the code *)

(** ** The normalizer: texts, order and the branch without a target *)

(** X1: whatever the target, the texts of the result are the trimmed texts
    of the entries the filter keeps, in their original order: resizing
    never reorders, drops or duplicates an entry, and no text of the result
    is empty or carries white space at its ends. *)
Theorem normalize_keeps_texts (captions : list jsval) (audioMs : number)
    (out : list caption) :
  normalizeAndScaleCaptions (JArray captions) audioMs = Some out ->
  exists items,
    collectItems captions = Some items
    /\ text <$> out = text_of <$> items
    /\ Forall (fun c => nonEmpty (text c) = true /\ trim (text c) = text c) out.
Proof.
  intros Hout. apply normalize_Some in Hout as [Hitems Hout].
  exists (keptItems captions). split; [exact Hitems | ].
  pose proof (resize_texts _ _ _ Hout) as Htexts.
  split; [exact Htexts | ].
  change (Forall ((fun t => nonEmpty t = true /\ trim t = t) ∘ text) out).
  apply Forall_fmap. rewrite Htexts. apply Forall_fmap.
  eapply Forall_impl; [apply keptItems_kept | ].
  intros it (_ & H1 & H2). split; assumption.
Qed.

Lemma normalize_keeps_texts_witness :
  exists out,
    normalizeAndScaleCaptions
      (JArray [rawCaption 0 900 " one "; JNull; rawCaption 5 5 "gone";
               rawCaption 900 1000 "two"]) (Finite 3000) = Some out
    /\ text <$> out = [str "one"; str "two"].
Proof.
  eexists. split; [vm_compute; reflexivity | ].
  destruct (normalize_keeps_texts
              [rawCaption 0 900 " one "; JNull; rawCaption 5 5 "gone";
               rawCaption 900 1000 "two"] (Finite 3000)
              [Caption 0 2400 (str "one"); Caption 2400 3000 (str "two")])
    as (items & Hitems & Htexts & _).
  - vm_compute. reflexivity.
  - vm_compute in Hitems. injection Hitems as <-. exact Htexts.
Defined.

(** X2: without a usable target (not finite, or not positive) nothing is
    rescaled: the entries kept of a list that is read exactly, with
    integer durations adding up to 2^40 ms at most, are laid back to back
    from 0, each with its own duration [end - start], so that gaps and
    overlaps of the input disappear and the total is the sum of the
    durations. *)
Theorem normalize_without_target (captions : list jsval) (items : list item)
    (audioMs : number) (out : list caption) :
  forallb exactEntry captions = true ->
  collectItems captions = Some items ->
  totalDurOf items <= msBound ->
  knownPositive audioMs = false ->
  normalizeAndScaleCaptions (JArray captions) audioMs = Some out ->
  toItem <$> out = items
  /\ contiguous out
  /\ (forall c, head out = Some c -> start_ms c = 0)
  /\ totalDuration out = sumDur items.
Proof.
  intros Hexact Hitems _ Hk Hout.
  destruct (collectItems_exact captions items Hexact Hitems) as [-> Hnorm].
  rewrite Hnorm in Hout.
  pose proof (kept_positive _ (keptItems_kept captions)) as Hpos.
  rewrite (resize_unknown_layOut _ _ _ Hk Hout).
  split; [apply layOut_exact, Hpos | ].
  split; [apply layOut_contiguous | ].
  split; [intros c; apply layOut_head | ].
  rewrite totalDuration_toItem, layOut_exact by exact Hpos. reflexivity.
Qed.

Lemma normalize_without_target_witness :
  normalizeAndScaleCaptions
    (JArray [rawCaption 100 400 "a"; rawCaption 300 1000 "b"]) NaN
  = Some [Caption 0 300 (str "a"); Caption 300 1000 (str "b")]
  /\ totalDuration [Caption 0 300 (str "a"); Caption 300 1000 (str "b")] = 1000.
Proof.
  split; [vm_compute; reflexivity | ].
  destruct (normalize_without_target
              [rawCaption 100 400 "a"; rawCaption 300 1000 "b"]
              [Item (str "a") 300; Item (str "b") 700] NaN
              [Caption 0 300 (str "a"); Caption 300 1000 (str "b")])
    as (_ & _ & _ & H).
  - vm_compute. reflexivity.
  - vm_compute. reflexivity.
  - vm_compute. discriminate.
  - reflexivity.
  - vm_compute. reflexivity.
  - rewrite H. vm_compute. reflexivity.
Defined.

(** X3: without a usable target the normalizer is idempotent on a list
    that is read exactly and whose integer durations add up to 2^40 ms at
    most: its result, passed in again with the same target value, comes
    back unchanged. *)
Theorem normalize_without_target_idempotent (captions : list jsval)
    (items : list item) (audioMs : number) (out : list caption) :
  forallb exactEntry captions = true ->
  collectItems captions = Some items ->
  totalDurOf items <= msBound ->
  knownPositive audioMs = false ->
  normalizeAndScaleCaptions (JArray captions) audioMs = Some out ->
  normalizeAndScaleCaptions (captionsToJs out) audioMs = Some out.
Proof.
  intros Hexact Hitems _ Hk Hout.
  destruct (collectItems_exact captions items Hexact Hitems) as [-> Hnorm].
  rewrite Hnorm in Hout.
  pose proof (keptItems_kept captions) as Hkept.
  pose proof (kept_positive _ Hkept) as Hpos.
  pose proof (resize_unknown_layOut _ _ _ Hk Hout) as ->.
  assert (keptItems (captionToJs <$> layOut 0 (keptItems captions))
          = keptItems captions) as Hsame.
  { rewrite keptItems_captionsToJs; [apply layOut_exact, Hpos | ].
    change (Forall (keptItem ∘ toItem) (layOut 0 (keptItems captions))).
    apply Forall_fmap. rewrite layOut_exact by exact Hpos. exact Hkept. }
  rewrite normalize_captionsToJs, Hsame. unfold resize. rewrite Hk. simpl.
  destruct (keptItems captions); reflexivity.
Qed.

Lemma normalize_without_target_idempotent_witness :
  normalizeAndScaleCaptions
    (captionsToJs [Caption 0 300 (str "a"); Caption 300 1000 (str "b")]) NaN
  = Some [Caption 0 300 (str "a"); Caption 300 1000 (str "b")].
Proof.
  apply (normalize_without_target_idempotent
           [rawCaption 100 400 "a"; rawCaption 300 1000 "b"]
           [Item (str "a") 300; Item (str "b") 700] NaN).
  - vm_compute. reflexivity.
  - vm_compute. reflexivity.
  - vm_compute. discriminate.
  - reflexivity.
  - vm_compute. reflexivity.
Defined.

(** ** The normalizer: the floor *)

Lemma minSegMsFor_fits (T N : Z) :
  0 < N -> 80 * N <= T -> minSegMsFor T N * N <= T.
Proof.
  intros HN H80. unfold minSegMsFor.
  assert (80 <= T / N) as Hq by (apply Z.div_le_lower_bound; lia).
  pose proof (Z.mul_div_le T N HN) as Hmul.
  destruct (Z.leb_spec (T / N) 0); [lia | ].
  destruct (Z.gtb_spec 600 (T / N)); nia.
Qed.

Lemma resize_respects_floor (items : list item) (T : Z) (out : list caption) :
  items <> [] ->
  80 * Z.of_nat (length items) <= T ->
  resize items (Finite T) = Some out ->
  Forall (fun c => minSegMsFor T (Z.of_nat (length items))
                   <= end_ms c - start_ms c) out.
Proof.
  intros Hne H80 Hout.
  set (N := Z.of_nat (length items)) in *.
  assert (0 < N) as HN
      by (subst N; destruct items; [congruence | simpl; lia]).
  destruct (resize_cases _ _ _ Hout)
    as [[Hnil _] | [(_ & Hk & _) | (_ & T' & scaled & adj & [= <-] & HT & Htx & Hfloor & Hadj & ->)]].
  - congruence.
  - simpl in Hk. apply Z.ltb_ge in Hk. lia.
  - fold N in Hfloor, Hadj. set (m := minSegMsFor T N) in *.
    pose proof (minSegMsFor_ge_80 T N) as Hm80. fold m in Hm80.
    pose proof (minSegMsFor_fits T N HN H80) as Hfit. fold m in Hfit.
    assert (1 <= m) as Hm by lia.
    destruct (adjust_inv _ _ _ _ Hm Hfloor Hadj) as (Hlen & _ & Hpos & Hsum & Hones).
    assert (length scaled = length items) as Hlens.
    { rewrite <- (length_fmap text_of scaled), Htx. apply length_fmap. }
    assert (Z.of_nat (length adj) = N) as HlenN by (subst N; lia).
    assert (sumDur adj = T) as Hexact.
    { destruct (Z.lt_ge_cases T (sumDur adj)) as [Hover | ]; [ | lia].
      rewrite (sumDur_const 1 adj (Hones Hover)) in Hover. lia. }
    assert (Forall (fun x => m <= dur_ms x) adj) as Habove.
    { destruct (adjust_cases _ _ _ _ Hfloor Hadj)
        as [H | (s1 & o1 & o2 & Ho1 & Hs1 & Hbal & H2)]; [exact H | exfalso].
      assert (0 <= o1) as Hov by lia.
      destruct (reduceToOne_inv _ _ _ _ _ Hov H2) as (I2 & _).
      pose proof (pass_length _ _ _ _ _ I2) as Hl2.
      rewrite (sumDur_const m s1 Hs1) in Hbal. nia. }
    change (Forall ((fun x => m <= dur_ms x) ∘ toItem) (emit T 0 adj)).
    apply Forall_fmap. rewrite emit_exact; [exact Habove | exact Hpos | lia].
Qed.

(** X4: take a list that is read exactly, whose filtered list has N >= 1
    entries with durations adding up to 2^40 ms at most, and a target
    T <= 2^40.  When the target leaves every entry 80 ms or more
    (80 * N <= T), the floor is kept: every duration of the result is at
    least the computed minimum segment length, 600 ms or [floor(T / N)] if
    that is less. *)
Theorem normalize_respects_floor (captions : list jsval) (items : list item)
    (T : Z) (out : list caption) :
  forallb exactEntry captions = true ->
  collectItems captions = Some items ->
  items <> [] ->
  totalDurOf items <= msBound ->
  T <= msBound ->
  80 * Z.of_nat (length items) <= T ->
  normalizeAndScaleCaptions (JArray captions) (Finite T) = Some out ->
  Forall (fun c => minSegMsFor T (Z.of_nat (length items))
                   <= end_ms c - start_ms c) out.
Proof.
  intros Hexact Hitems Hne _ _ H80 Hout.
  destruct (collectItems_exact captions items Hexact Hitems) as [_ Hnorm].
  rewrite Hnorm in Hout.
  apply (resize_respects_floor items T out Hne H80 Hout).
Qed.

Lemma normalize_respects_floor_witness :
  exists out,
    normalizeAndScaleCaptions
      (JArray [rawCaption 0 100 "a"; rawCaption 100 5000 "b"]) (Finite 1000)
    = Some out
    /\ Forall (fun c => 500 <= end_ms c - start_ms c) out.
Proof.
  eexists. split; [vm_compute; reflexivity | ].
  apply (normalize_respects_floor
           [rawCaption 0 100 "a"; rawCaption 100 5000 "b"]
           [Item (str "a") 100; Item (str "b") 4900] 1000).
  - vm_compute. reflexivity.
  - vm_compute. reflexivity.
  - discriminate.
  - vm_compute. discriminate.
  - vm_compute. discriminate.
  - vm_compute. discriminate.
  - vm_compute. reflexivity.
Defined.

(** ** The order in which the first pass visits the entries *)












(** ** What the filter drops *)

(** X6: unless one of the three conversions throws (see C8), an entry that
    is not an object, or an object without a [start_ms], an [end_ms] or a
    [text] property, is skipped silently; so is an entry whose end is not
    after its start.  When a conversion throws, the entry is not skipped:
    the exception leaves the loop. *)
Theorem readCaption_drops (c : jsval) :
  (match c with JObject _ => False | _ => True end -> readCaption c = Some None)
  /\ (forall props,
        c = JObject props -> entryThrows c = false ->
        getProp props (str "start_ms") = JUndefined
        \/ getProp props (str "end_ms") = JUndefined
        \/ getProp props (str "text") = JUndefined ->
        readCaption c = Some None)
  /\ (forall s e,
        entryThrows c = false ->
        toNumber (optGet c (str "start_ms")) = Finite s ->
        toNumber (optGet c (str "end_ms")) = Finite e ->
        e <= s -> readCaption c = Some None)
  /\ (entryThrows c = true -> readCaption c = None).
Proof.
  rewrite readCaption_spec.
  split; [ | split; [ | split]].
  - destruct c; intros H; try reflexivity. contradiction.
  - intros props -> Hno H. rewrite Hno. f_equal.
    unfold kept, keepOrSkip, optGet.
    destruct H as [-> | [-> | ->]].
    + reflexivity.
    + destruct (toNumber (getProp props (str "start_ms"))); reflexivity.
    + destruct (toNumber (getProp props (str "start_ms"))) as [ | | s]; try reflexivity.
      destruct (toNumber (getProp props (str "end_ms"))) as [ | | e]; try reflexivity.
      change (trim (toString (orElse JUndefined (JString [])))) with (@nil N).
      simpl nonEmpty. rewrite orb_true_r. reflexivity.
  - intros s e Hno Hs He Hle. rewrite Hno. f_equal.
    unfold kept, keepOrSkip. rewrite Hs, He.
    destruct (Z.leb_spec e s); [reflexivity | lia].
  - intros ->. reflexivity.
Qed.

Lemma readCaption_drops_witness :
  readCaption (JString (str "caption")) = Some None
  /\ readCaption (JObject [(str "start_ms", JNumber (Finite 0));
                           (str "text", JString (str "no end"))]) = Some None
  /\ readCaption (rawCaption 700 700 "empty interval") = Some None
  /\ readCaption (JObject [(str "end_ms", JNumber (Finite 5));
                           (str "text", JObject [(str "toString", JNumber (Finite 1))])])
     = None.
Proof.
  split; [ | split; [ | split]].
  - apply (readCaption_drops (JString (str "caption"))). exact I.
  - destruct (readCaption_drops
                (JObject [(str "start_ms", JNumber (Finite 0));
                          (str "text", JString (str "no end"))])) as (_ & H & _).
    apply (H _ eq_refl); [reflexivity | ]. right. left. reflexivity.
  - destruct (readCaption_drops (rawCaption 700 700 "empty interval")) as (_ & _ & H & _).
    apply (H 700 700); [reflexivity | reflexivity | reflexivity | lia].
  - destruct (readCaption_drops
                (JObject [(str "end_ms", JNumber (Finite 5));
                          (str "text", JObject [(str "toString", JNumber (Finite 1))])]))
      as (_ & _ & _ & H).
    apply H. reflexivity.
Defined.

(** ** The slides follow the captions *)

Lemma resize_well_timed (items : list item) (audioMs : number)
    (out : list caption) :
  Forall keptItem items ->
  resize items audioMs = Some out ->
  (knownPositive audioMs = true ->
   Z.of_nat (length items) <= Double.toZ audioMs) ->
  contiguous out
  /\ (forall c, head out = Some c -> start_ms c = 0)
  /\ Forall (fun c => 1 <= durationOf c) out
  /\ (knownPositive audioMs = true ->
      forall c, last out = Some c -> end_ms c = Double.toZ audioMs).
Proof.
  intros Hkept Hout Hfit.
  destruct (resize_cases _ _ _ Hout)
    as [[Hnil ->] | [(_ & Hk & ->) | (Hne & T & scaled & adj & -> & HT & Htx & Hfloor & Hadj & ->)]].
  - repeat split; try constructor; discriminate.
  - pose proof (kept_positive _ Hkept) as Hpos.
    split; [apply layOut_contiguous | ].
    split; [intros c; apply layOut_head | ].
    split; [ | rewrite Hk; discriminate].
    change (Forall ((fun x => 1 <= dur_ms x) ∘ toItem) (layOut 0 items)).
    apply Forall_fmap. rewrite layOut_exact by exact Hpos. exact Hpos.
  - assert (knownPositive (Finite T) = true) as Hk by (apply Z.ltb_lt; exact HT).
    specialize (Hfit Hk). simpl in Hfit.
    assert (1 <= minSegMsFor T (Z.of_nat (length items))) as Hm
        by (pose proof (minSegMsFor_ge_80 T (Z.of_nat (length items))); lia).
    destruct (adjust_inv _ _ _ _ Hm Hfloor Hadj) as (Hlen & _ & Hpos & Hsum & Hones).
    assert (length scaled = length items) as Hlens.
    { rewrite <- (length_fmap text_of scaled), Htx. apply length_fmap. }
    assert (adj <> []) as Hadjne.
    { intros ->. simpl in Hlen. destruct items; [congruence | ].
      simpl in Hlens. lia. }
    assert (sumDur adj = T) as Hexact.
    { destruct (Z.lt_ge_cases T (sumDur adj)) as [Hover | ]; [ | lia].
      rewrite (sumDur_const 1 adj (Hones Hover)) in Hover. lia. }
    split; [apply emit_contiguous | ].
    split.
    { intros c Hc. destruct (emit_head T 0 adj Hadjne) as (c' & Hc' & Hs).
      congruence. }
    split.
    { change (Forall ((fun x => 1 <= dur_ms x) ∘ toItem) (emit T 0 adj)).
      apply Forall_fmap. rewrite emit_exact; [exact Hpos | exact Hpos | lia]. }
    intros _ c Hc. destruct (emit_last T 0 adj Hadjne) as (c' & Hc' & He).
    simpl. congruence.
Qed.

Lemma planSegments_beats (c0 c1 c2 c3 c4 c5 c6 : caption) (rest : list caption)
    (total : Z) :
  let out := c0 :: c1 :: c2 :: c3 :: c4 :: c5 :: c6 :: rest in
  contiguous out -> start_ms c0 = 0 ->
  Forall (fun c => 1 <= durationOf c) out ->
  let t := planSegments out total in
  seg1 t = durationOf c0
  /\ seg2 t = durationOf c1 + durationOf c2
  /\ seg3 t = durationOf c3 + durationOf c4
  /\ seg4 t = durationOf c5 + durationOf c6
  /\ slideshowMs t = end_ms c6.
Proof.
  intros out Hcont H0 Hpos t. subst out t.
  destruct Hcont as (E0 & E1 & E2 & E3 & E4 & E5 & _).
  do 7 (apply Forall_cons in Hpos as [? Hpos]).
  unfold slideshowMs, durationOf in *. simpl in *. unfold Math_round. lia.
Qed.

(** X7: take a list that is read exactly, whose kept durations add up to
    2^40 ms at most, normalized without a usable target or for a known
    target of 2^40 ms at most that has at least as many milliseconds as
    there are entries kept.  When the result has seven entries or more,
    the four slides follow the seven beats as the handler's comment says:
    slide 1 lasts as long as caption 1, slide 2 as captions 2 and 3,
    slide 3 as captions 4 and 5, slide 4 as captions 6 and 7.  The
    slideshow therefore ends with caption 7: with exactly seven captions
    and a known audio length it lasts exactly the audio, with more
    captions it stops before them. *)
Theorem segments_follow_beats (captions : list jsval) (items : list item)
    (audioMs : number) (out : list caption) :
  forallb exactEntry captions = true ->
  collectItems captions = Some items ->
  totalDurOf items <= msBound ->
  (knownPositive audioMs = true ->
   Z.of_nat (length items) <= Double.toZ audioMs <= msBound) ->
  normalizeAndScaleCaptions (JArray captions) audioMs = Some out ->
  (7 <= length out)%nat ->
  exists c0 c1 c2 c3 c4 c5 c6 rest,
    out = c0 :: c1 :: c2 :: c3 :: c4 :: c5 :: c6 :: rest
    /\ let t := planSegments out (effectiveAudioMs audioMs out) in
       seg1 t = durationOf c0
       /\ seg2 t = durationOf c1 + durationOf c2
       /\ seg3 t = durationOf c3 + durationOf c4
       /\ seg4 t = durationOf c5 + durationOf c6
       /\ slideshowMs t = end_ms c6
       /\ (rest = [] -> knownPositive audioMs = true ->
           slideshowMs t = Double.toZ audioMs).
Proof.
  intros Hexact Hitems _ Hfit Hout Hlen.
  destruct (collectItems_exact captions items Hexact Hitems) as [Hk Hnorm].
  rewrite Hnorm in Hout.
  assert (Forall keptItem items) as Hkept by (rewrite Hk; apply keptItems_kept).
  destruct (resize_well_timed _ _ _ Hkept Hout) as (Hcont & Hhead & Hpos & Hlast).
  { intros Hknown. apply (Hfit Hknown). }
  do 7 (destruct out as [ | ? out]; [simpl in Hlen; lia | ]).
  eexists _, _, _, _, _, _, _, out. split; [reflexivity | ].
  pose proof (planSegments_beats c c0 c1 c2 c3 c4 c5 out
                (effectiveAudioMs audioMs
                   (c :: c0 :: c1 :: c2 :: c3 :: c4 :: c5 :: out))
                Hcont (Hhead c eq_refl) Hpos) as (H1 & H2 & H3 & H4 & H5).
  repeat (split; [assumption | ]).
  intros -> Hknown. rewrite H5. apply (Hlast Hknown). reflexivity.
Qed.

Lemma segments_follow_beats_witness :
  let captions :=
    [rawCaption 0 500 "a"; rawCaption 500 1500 "b"; rawCaption 1500 2000 "c";
     rawCaption 2000 3000 "d"; rawCaption 3000 4000 "e";
     rawCaption 4000 5000 "f"; rawCaption 5000 7000 "g"] in
  exists out,
    normalizeAndScaleCaptions (JArray captions) (Finite 14000) = Some out
    /\ slideshowMs (planSegments out (effectiveAudioMs (Finite 14000) out)) = 14000.
Proof.
  intros captions.
  destruct (normalizeAndScaleCaptions (JArray captions) (Finite 14000))
    as [out | ] eqn:Hout; [ | vm_compute in Hout; discriminate Hout].
  exists out. split; [reflexivity | ].
  destruct (segments_follow_beats captions
              [Item (str "a") 500; Item (str "b") 1000; Item (str "c") 500;
               Item (str "d") 1000; Item (str "e") 1000; Item (str "f") 1000;
               Item (str "g") 2000]
              (Finite 14000) out)
    as (c0 & c1 & c2 & c3 & c4 & c5 & c6 & rest & Heq & _ & _ & _ & _ & _ & H).
  - vm_compute. reflexivity.
  - vm_compute. reflexivity.
  - vm_compute. discriminate.
  - intros _. vm_compute. split; discriminate.
  - exact Hout.
  - vm_compute in Hout. injection Hout as <-. simpl. lia.
  - apply H; [ | reflexivity].
    vm_compute in Hout. injection Hout as <-. injection Heq as _ _ _ _ _ _ _ <-.
    reflexivity.
Defined.

(** X8: with fewer than seven captions the slideshow lasts as long as the
    fallback total, and never less than 4 ms: the four durations add up
    to [max(4, total)]. *)
Theorem fallback_slideshow (scaledCaptions : list caption) (total : Z) :
  (length scaledCaptions < 7)%nat ->
  slideshowMs (planSegments scaledCaptions total) = Z.max 4 total.
Proof.
  intros Hlen. rewrite (planSegments_short _ _ Hlen).
  unfold slideshowMs, Math_round. simpl.
  pose proof (Z.div_mod total 4 ltac:(lia)) as Hdm.
  pose proof (Z.mod_pos_bound total 4 ltac:(lia)) as Hmod.
  lia.
Qed.

Lemma fallback_slideshow_witness :
  slideshowMs (planSegments [Caption 0 2 (str "a")] 2) = 4
  /\ slideshowMs (planSegments [] 15001) = 15001.
Proof.
  split.
  - rewrite fallback_slideshow by (simpl; lia). reflexivity.
  - rewrite fallback_slideshow by (simpl; lia). reflexivity.
Defined.

(** ** The word wrapper: lines, budget, and when nothing is lost *)

Lemma toString_orElse_string (s : jsstring) :
  toString (orElse (JString s) (JString [])) = s.
Proof.
  destruct s; reflexivity.
Qed.

Lemma goodLines_length (lws : list (list jsstring)) :
  Forall goodLine lws -> (length lws <= length (concat lws))%nat.
Proof.
  induction 1 as [ | l lws [Hl _] _ IH]; [reflexivity | ].
  simpl. rewrite length_app. destruct l; [congruence | simpl; lia].
Qed.

Lemma lineOf_nil_inv (ws : list jsstring) :
  Forall goodWord ws -> lineOf ws = [] -> ws = [].
Proof.
  intros Hws Hnil. pose proof (lineOf_nonEmpty ws Hws) as Hn.
  rewrite Hnil in Hn. simpl in Hn. symmetry in Hn.
  apply bool_decide_eq_false in Hn. destruct ws; [reflexivity | ].
  exfalso. apply Hn. discriminate.
Qed.


Lemma greedy_snoc (B : Z) (lws : list (list jsstring)) (c : list jsstring) :
  greedy B (lws ++ [c])
  <-> greedy B lws
      /\ (forall l w, last lws = Some l -> head c = Some w -> overflows B l w).
Proof.
  induction lws as [ | l lws IH].
  - simpl. split; [intros _; split; [exact I | discriminate] | intros _; exact I].
  - destruct lws as [ | l' r].
    + simpl. split.
      * intros [H _]. split; [exact I | ]. intros l0 w [= <-]. apply H.
      * intros [_ H]. split; [ | exact I]. intros w Hw. apply (H l w eq_refl Hw).
    + change (greedy B ((l :: l' :: r) ++ [c]))
        with ((forall w, head l' = Some w -> overflows B l w)
              /\ greedy B ((l' :: r) ++ [c])).
      change (greedy B (l :: l' :: r))
        with ((forall w, head l' = Some w -> overflows B l w)
              /\ greedy B (l' :: r)).
      rewrite IH. rewrite (last_cons_cons l l' r). tauto.
Qed.

(** The first loop of the wrapper, with everything it keeps. *)
Lemma wrapLoop_shape (B L : Z) (words : list jsstring) :
  Forall goodWord words ->
  forall (lws : list (list jsstring)) (cws : list jsstring),
    Forall goodLine lws -> Forall goodWord cws ->
    Forall (lineWithin B) lws -> (cws = [] \/ lineWithin B cws) ->
    (length lws = 0%nat \/ Z.of_nat (length lws) < L - 1) ->
    (cws = [] -> lws = []) -> greedy B (lws ++ [cws]) ->
    exists lws' cws' rest,
      wrapLoop B L words (lineOf <$> lws) (lineOf cws)
      = (lineOf <$> lws', lineOf cws')
      /\ Forall goodLine lws' /\ Forall goodWord cws' /\ Forall goodWord rest
      /\ concat lws ++ cws ++ words = concat lws' ++ cws' ++ rest
      /\ Forall (lineWithin B) lws' /\ (cws' = [] \/ lineWithin B cws')
      /\ Z.of_nat (length lws') <= Z.max 1 (L - 1)
      /\ (rest = [] \/ (L - 1 <= Z.of_nat (length lws') /\ cws' <> []))
      /\ (words <> [] -> cws' <> [])
      /\ greedy B (lws' ++ [cws']).
Proof.
  induction 1 as [ | w words Hw Hwords IH];
    intros lws cws Hlws Hcws Hin Hcin Hlen Hfirst Hgreedy.
  - exists lws, cws, []. simpl. conjuncts; try assumption; try reflexivity.
    + constructor.
    + destruct Hlen; lia.
    + left. reflexivity.
    + congruence.
  - rewrite wrapLoop_cons.
    match goal with
    | |- context [len ?cand <=? _] => assert (cand = lineOf (cws ++ [w])) as ->
    end.
    { rewrite (lineOf_nonEmpty cws Hcws). destruct cws as [ | a cws].
      - reflexivity.
      - rewrite bool_decide_eq_true_2 by discriminate.
        unfold lineOf. rewrite join_snoc by discriminate. reflexivity. }
    assert (Forall goodWord [w]) as Hw1 by (constructor; [assumption | constructor]).
    destruct (Z.leb_spec (len (lineOf (cws ++ [w]))) B) as [Hfit | Hnofit].
    + assert (greedy B (lws ++ [cws ++ [w]])) as Hgreedy'.
      { destruct cws as [ | a cws].
        - rewrite (Hfirst eq_refl). exact I.
        - apply greedy_snoc. apply greedy_snoc in Hgreedy. exact Hgreedy. }
      destruct (IH lws (cws ++ [w]) Hlws)
        as (lws' & cws' & rest & Hrun & H1 & H2 & H3 & Heq & H5 & H6 & H7 & H8 & H9 & H10);
        [apply Forall_app; split; assumption | assumption
        | right; left; exact Hfit | assumption
        | intros Hnil; destruct cws; discriminate Hnil | exact Hgreedy' | ].
      exists lws', cws', rest. rewrite Hrun.
      conjuncts; try assumption; try reflexivity.
      * rewrite <- Heq, <- !app_assoc. reflexivity.
      * intros _. destruct words as [ | w' words'].
        -- simpl in Hrun. injection Hrun as _ Hcur.
           intros ->. apply lineOf_nil_inv in Hcur;
             [destruct cws; discriminate Hcur | ].
           apply Forall_app. split; assumption.
        -- apply H9. discriminate.
    + set (lws1 := if bool_decide (cws <> []) then lws ++ [cws] else lws).
      match goal with
      | |- context [Z.of_nat (length ?lines') >=? _] =>
          assert (lines' = lineOf <$> lws1) as ->
      end.
      { rewrite (lineOf_nonEmpty cws Hcws). subst lws1.
        destruct (bool_decide (cws <> [])); [ | reflexivity].
        rewrite fmap_app. reflexivity. }
      assert (Forall goodLine lws1) as Hlws1.
      { subst lws1. destruct (bool_decide_reflect (cws <> [])); [ | assumption].
        apply Forall_app. split; [assumption | ].
        constructor; [split; assumption | constructor]. }
      assert (Forall (lineWithin B) lws1) as Hin1.
      { subst lws1. destruct (bool_decide_reflect (cws <> [])); [ | assumption].
        apply Forall_app. split; [assumption | ].
        constructor; [destruct Hcin; [congruence | assumption] | constructor]. }
      assert (concat lws1 = concat lws ++ cws) as Hcat.
      { subst lws1. destruct (bool_decide_reflect (cws <> [])) as [ | Hnil].
        - rewrite concat_app. simpl. rewrite app_nil_r. reflexivity.
        - destruct cws; [rewrite app_nil_r; reflexivity | ].
          exfalso. apply Hnil. discriminate. }
      assert ((length lws1 <= length lws + 1)%nat) as Hgrow.
      { subst lws1. destruct (bool_decide (cws <> [])); [ | lia].
        rewrite length_app. simpl. lia. }
      assert (lineWithin B [w]) as Hwin by (right; reflexivity).
      assert (greedy B (lws1 ++ [[w]])) as Hgreedy1.
      { subst lws1. destruct (bool_decide_reflect (cws <> [])) as [Hcne | Hnil].
        - apply greedy_snoc. split; [exact Hgreedy | ].
          intros l w0. rewrite last_snoc. intros [= <-] [= <-]. exact Hnofit.
        - destruct cws; [ | exfalso; apply Hnil; discriminate].
          rewrite (Hfirst eq_refl). exact I. }
      change w with (lineOf [w]) at 1 2.
      rewrite length_fmap.
      destruct (Z.geb_spec (Z.of_nat (length lws1)) (L - 1)) as [Hbreak | Hgo].
      * exists lws1, [w], words.
        conjuncts; try assumption; try reflexivity.
        -- rewrite Hcat, <- !app_assoc. reflexivity.
        -- right. assumption.
        -- destruct Hlen; lia.
        -- right. split; [lia | discriminate].
        -- discriminate.
      * destruct (IH lws1 [w] Hlws1 Hw1 Hin1 (or_intror Hwin) (or_intror Hgo))
          as (lws' & cws' & rest & Hrun & H1 & H2 & H3 & Heq & H5 & H6 & H7 & H8 & H9 & H10);
          [discriminate | exact Hgreedy1 | ].
        exists lws', cws', rest. rewrite Hrun.
        conjuncts; try assumption; try reflexivity.
        -- rewrite <- Heq, Hcat, <- !app_assoc. reflexivity.
        -- intros _. destruct words as [ | w' words'].
           ++ simpl in Hrun. injection Hrun as _ Hcur.
              intros ->. apply lineOf_nil_inv in Hcur; [discriminate Hcur | exact Hw1].
           ++ apply H9. discriminate.
Qed.

Lemma fillLast_within (B : Z) (rest : list jsstring) :
  forall cws : list jsstring,
    cws <> [] ->
    exists pre post,
      rest = pre ++ post
      /\ fillLast B rest (lineOf cws) = lineOf (cws ++ pre)
      /\ (pre = [] \/ len (lineOf (cws ++ pre)) <= B)
      /\ (forall w post', post = w :: post' -> overflows B (cws ++ pre) w).
Proof.
  induction rest as [ | w rest IH]; intros cws Hne.
  - exists [], []. simpl. rewrite app_nil_r.
    split; [reflexivity | split; [reflexivity | split; [auto | discriminate]]].
  - rewrite fillLast_cons.
    match goal with
    | |- context [len ?cand <=? _] => assert (cand = lineOf (cws ++ [w])) as ->
    end.
    { unfold lineOf. rewrite join_snoc by assumption. reflexivity. }
    destruct (Z.leb_spec (len (lineOf (cws ++ [w]))) B) as [Hfit | Hno].
    + destruct (IH (cws ++ [w])) as (pre & post & -> & Hfill & Hin & Hover).
      { destruct cws; discriminate. }
      exists (w :: pre), post. split; [reflexivity | ].
      replace (cws ++ w :: pre) with ((cws ++ [w]) ++ pre)
        by (rewrite <- app_assoc; reflexivity).
      split; [exact Hfill | split; [right | exact Hover]].
      destruct Hin as [-> | Hin]; [rewrite app_nil_r; exact Hfit | exact Hin].
    + exists [], (w :: rest). rewrite app_nil_r.
      split; [reflexivity | split; [reflexivity | split; [auto | ]]].
      intros w0 post' [= <- _]. exact Hno.
Qed.

(** The array [lines] of the wrapper, read as lists of words. *)
Lemma wrapLines_shape (t : jsstring) (B L : Z) :
  tidy t -> t <> [] ->
  exists (lws : list (list jsstring)) (dropped : list jsstring),
    wrapLines t B L = lineOf <$> lws
    /\ Forall goodLine lws
    /\ split SPACE t = concat lws ++ dropped
    /\ Forall (lineWithin B) lws
    /\ (1 <= L -> 1 <= Z.of_nat (length lws) <= L)
    /\ (Z.of_nat (length (split SPACE t)) < L -> dropped = [])
    /\ greedy B lws
    /\ (1 <= L -> forall w dropped', dropped = w :: dropped' ->
          Z.of_nat (length lws) = L
          /\ exists l, last lws = Some l /\ overflows B l w).
Proof.
  intros Ht Hne. pose proof (split_tidy t Ht Hne) as Hwords.
  unfold wrapLines.
  destruct (wrapLoop_shape B L (split SPACE t) Hwords [] [])
    as (lws & cws & rest & Hrun & Hlws & Hcws & Hrest & Heq & Hin & Hcin & Hmax & Hbrk & Hcur & Hgreedy);
    [constructor | constructor | constructor | left; reflexivity | left; reflexivity
    | reflexivity | exact I | ].
  change (lineOf <$> []) with (@nil jsstring) in Hrun.
  change (lineOf []) with (@nil N) in Hrun.
  rewrite Hrun. simpl in Heq.
  specialize (Hcur (split_not_nil t)).
  pose proof (goodLines_length lws Hlws) as Hll.
  assert (length (split SPACE t)
          = (length (concat lws) + length cws + length rest)%nat) as Hcount
      by (rewrite Heq, !length_app; lia).
  assert (length cws <> 0%nat) as Hcl by (destruct cws; [congruence | discriminate]).
  assert (Z.of_nat (length (split SPACE t)) < L -> rest = []) as Hnoloss.
  { intros Hfew. destruct Hbrk as [ | [Hb _]]; [assumption | lia]. }
  rewrite (lineOf_nonEmpty cws Hcws), bool_decide_eq_true_2 by assumption.
  cbn [andb]. rewrite length_fmap.
  destruct (Z.ltb_spec (Z.of_nat (length lws)) L) as [Hroom | Hfull].
  - rewrite lineOf_concat by assumption.
    rewrite !countWords_lineOf by (assumption || apply goodLines_concat, Hlws).
    rewrite Heq, app_assoc, drop_app_length' by (rewrite length_app; reflexivity).
    fold (lineOf rest).
    rewrite (trim_lineOf rest Hrest), (lineOf_nonEmpty rest Hrest).
    destruct (bool_decide_reflect (rest <> [])) as [Hrne | Hrnil].
    + rewrite split_lineOf by (split; assumption).
      destruct (fillLast_within B rest cws Hcur)
        as (pre & post & Hsplit & -> & Hpre & Hover).
      assert (Forall goodWord pre) as Hgpre
          by (rewrite Hsplit in Hrest; apply Forall_app in Hrest; tauto).
      exists (lws ++ [cws ++ pre]), post. rewrite fmap_app, length_app. simpl.
      conjuncts; try reflexivity.
      * apply Forall_app. split; [assumption | ].
        constructor; [ | constructor].
        split; [destruct cws; [congruence | discriminate] | ].
        apply Forall_app. split; assumption.
      * rewrite concat_app. simpl. rewrite app_nil_r, Hsplit, <- !app_assoc.
        reflexivity.
      * apply Forall_app. split; [assumption | ].
        constructor; [ | constructor].
        destruct Hpre as [-> | Hfit]; [ | left; exact Hfit].
        rewrite app_nil_r. destruct Hcin; [congruence | assumption].
      * lia.
      * intros Hfew. exfalso. apply Hrne, Hnoloss.
        rewrite !length_app in Hfew. lia.
      * apply greedy_snoc. apply greedy_snoc in Hgreedy as [Hg Hlast].
        split; [exact Hg | ]. intros l w Hl Hw. apply (Hlast l w Hl).
        destruct cws; [congruence | exact Hw].
      * intros HL w dropped' Hd. split.
        -- destruct Hbrk as [ | [Hb _]]; [congruence | lia].
        -- exists (cws ++ pre). split; [apply last_snoc | ].
           apply (Hover w dropped' Hd).
    + exists (lws ++ [cws]), rest. rewrite fmap_app, length_app. simpl.
      conjuncts; try reflexivity.
      * apply Forall_app. split; [assumption | ].
        constructor; [split; assumption | constructor].
      * rewrite concat_app. simpl. rewrite app_nil_r, <- !app_assoc. reflexivity.
      * apply Forall_app. split; [assumption | ].
        constructor; [destruct Hcin; [congruence | assumption] | constructor].
      * lia.
      * intros Hfew. apply Hnoloss.
        rewrite !length_app in Hfew. lia.
      * exact Hgreedy.
      * intros HL w dropped' Hd. exfalso. apply Hrnil. rewrite Hd. discriminate.
  - apply greedy_snoc in Hgreedy as [Hg Hlast].
    exists lws, (cws ++ rest). conjuncts; try assumption; try reflexivity; try lia.
    intros HL w dropped' Hd.
    assert (Z.of_nat (length lws) = L) as HlenL by lia.
    split; [exact HlenL | ].
    destruct (last lws) as [l | ] eqn:Hl.
    + exists l. split; [reflexivity | ]. apply (Hlast l w eq_refl).
      destruct cws as [ | a cws]; [congruence | ].
      injection Hd as -> _. reflexivity.
    + apply last_None in Hl. subst lws. simpl in HlenL. lia.
Qed.

Lemma wrapByChars_lines (text : jsval) (B L : Z) :
  let t := trim (collapseWhiteSpace (toString (orElse text (JString [])))) in
  t <> [] -> 1 <= L ->
  wrapByChars text B L = join (str "\N") (wrapLines t B L).
Proof.
  intros t Hne HL. unfold wrapByChars. fold t.
  destruct t as [ | c r] eqn:Et; [congruence | ]. simpl negb. cbv iota.
  pose proof (trim_collapse_tidy (toString (orElse text (JString [])))) as Ht.
  fold t in Ht. rewrite Et in Ht.
  destruct (wrapLines_shape (c :: r) B L Ht Hne) as (lws & _ & Hl & _ & _ & _ & Hn & _).
  rewrite bool_decide_eq_false_2; [reflexivity | ].
  rewrite Hl, length_fmap. specialize (Hn HL). lia.
Qed.

(** X9: for a text that is not blank and a maximum of L >= 1 lines, the
    wrapper returns its lines joined by the line-break token, at least one
    line and never more than L. *)
Theorem wrapByChars_line_count (text : jsval) (B L : Z) :
  let t := trim (collapseWhiteSpace (toString (orElse text (JString [])))) in
  t <> [] -> 1 <= L ->
  wrapByChars text B L = join (str "\N") (wrapLines t B L)
  /\ 1 <= Z.of_nat (length (wrapLines t B L)) <= L.
Proof.
  intros t Hne HL. split; [apply wrapByChars_lines; assumption | ].
  pose proof (trim_collapse_tidy (toString (orElse text (JString [])))) as Ht.
  fold t in Ht.
  destruct (wrapLines_shape t B L Ht Hne) as (lws & _ & -> & _ & _ & _ & Hn & _).
  rewrite length_fmap. apply Hn, HL.
Qed.

Lemma wrapByChars_line_count_witness :
  wrapByChars (JString (str "one two three four five six")) 5 3
  = join (str "\N") [str "one"; str "two"; str "three"].
Proof.
  destruct (wrapByChars_line_count
              (JString (str "one two three four five six")) 5 3) as [H _].
  - vm_compute. discriminate.
  - lia.
  - rewrite H. vm_compute. reflexivity.
Defined.

(** X10: for a text that is not blank and a maximum of L >= 1 lines,
    every line of the text the wrapper returns is within the budget of
    characters, unless it consists of a single word (a word longer than
    the budget is never split). *)
Theorem wrapByChars_line_budget (text : jsval) (B L : Z) :
  let t := trim (collapseWhiteSpace (toString (orElse text (JString [])))) in
  t <> [] -> 1 <= L ->
  exists lines : list jsstring,
    wrapByChars text B L = join (str "\N") lines
    /\ Forall (fun line => len line <= B \/ SPACE ∉ line) lines.
Proof.
  intros t Hne HL. exists (wrapLines t B L).
  split; [apply wrapByChars_lines; assumption | ].
  pose proof (trim_collapse_tidy (toString (orElse text (JString [])))) as Ht.
  fold t in Ht.
  destruct (wrapLines_shape t B L Ht Hne) as (lws & _ & -> & Hg & _ & Hin & _).
  apply Forall_fmap, Forall_forall. intros ws Hws.
  rewrite Forall_forall in Hg, Hin.
  destruct (Hin ws Hws) as [Hfit | Hone]; [left; exact Hfit | right].
  destruct (Hg ws Hws) as [_ Hgw].
  destruct ws as [ | w [ | ? ?]]; try discriminate Hone.
  apply Forall_cons in Hgw as [Hw _]. simpl.
  pose proof (goodWord_no_space w Hw) as Hns. rewrite Forall_forall in Hns.
  intros Hsp. exact (Hns SPACE Hsp eq_refl).
Qed.

Lemma wrapByChars_line_budget_witness :
  exists lines : list jsstring,
    wrapByChars (JString (str "a bb extraordinary cc dd")) 6 4
    = join (str "\N") lines
    /\ Forall (fun line => len line <= 6 \/ SPACE ∉ line) lines.
Proof.
  apply (wrapByChars_line_budget (JString (str "a bb extraordinary cc dd")) 6 4).
  - vm_compute. discriminate.
  - lia.
Defined.

Lemma join_split (t : jsstring) : lineOf (split SPACE t) = t.
Proof.
  unfold lineOf. induction t as [ | c r IH]; [reflexivity | ].
  pose proof (split_not_nil r) as Hne. simpl split.
  destruct (c =? SPACE)%N eqn:Hc.
  - apply N.eqb_eq in Hc. subst c.
    destruct (split SPACE r) as [ | w ws]; [congruence | ].
    change (join (str " ") ([] :: w :: ws)) with (SPACE :: join (str " ") (w :: ws)).
    rewrite IH. reflexivity.
  - destruct (split SPACE r) as [ | w ws]; [congruence | ].
    rewrite <- IH. destruct ws; reflexivity.
Qed.

Lemma len_lineOf_app (a b : list jsstring) :
  len (lineOf a) <= len (lineOf (a ++ b)).
Proof.
  unfold len, lineOf. destruct a as [ | x a]; [simpl; lia | ].
  destruct b as [ | y b]; [rewrite app_nil_r; lia | ].
  rewrite join_app, length_app by discriminate. lia.
Qed.

Lemma wrapLoop_fits (B L : Z) (lines : list jsstring) (words : list jsstring) :
  Forall goodWord words ->
  forall cws : list jsstring,
    Forall goodWord cws ->
    len (lineOf (cws ++ words)) <= B ->
    wrapLoop B L words lines (lineOf cws) = (lines, lineOf (cws ++ words)).
Proof.
  induction 1 as [ | w words Hw Hwords IH]; intros cws Hcws Hfit.
  - rewrite app_nil_r. reflexivity.
  - rewrite wrapLoop_cons.
    match goal with
    | |- context [len ?cand <=? _] => assert (cand = lineOf (cws ++ [w])) as ->
    end.
    { rewrite (lineOf_nonEmpty cws Hcws). unfold lineOf.
      destruct cws as [ | a cws]; [reflexivity | ].
      rewrite bool_decide_eq_true_2 by discriminate.
      rewrite join_snoc by discriminate. reflexivity. }
    replace (cws ++ w :: words) with ((cws ++ [w]) ++ words) in *
      by (rewrite <- app_assoc; reflexivity).
    pose proof (len_lineOf_app (cws ++ [w]) words) as Hmono.
    destruct (Z.leb_spec (len (lineOf (cws ++ [w]))) B) as [_ | Hno]; [ | lia].
    apply IH; [ | exact Hfit].
    apply Forall_app. split; [exact Hcws | constructor; [exact Hw | constructor]].
Qed.

Lemma wrapByChars_fits (text : jsval) (B L : Z) :
  let t := trim (collapseWhiteSpace (toString (orElse text (JString [])))) in
  len t <= B -> wrapByChars text B L = t.
Proof.
  intros t Hfit. unfold wrapByChars. fold t.
  pose proof (trim_collapse_tidy (toString (orElse text (JString [])))) as Ht.
  fold t in Ht.
  destruct t as [ | c r] eqn:Et; [reflexivity | ].
  simpl negb. cbv iota.
  assert (c :: r <> []) as Hne by discriminate.
  pose proof (split_tidy (c :: r) Ht Hne) as Hwords.
  assert (wrapLines (c :: r) B L = if 0 <? L then [c :: r] else []) as ->.
  { unfold wrapLines.
    change (wrapLoop B L (split SPACE (c :: r)) [] [])
      with (wrapLoop B L (split SPACE (c :: r)) [] (lineOf [])).
    rewrite (wrapLoop_fits B L [] (split SPACE (c :: r)) Hwords []);
      [ | apply List.Forall_nil | rewrite app_nil_l, join_split; exact Hfit].
    rewrite app_nil_l, join_split. simpl nonEmpty. cbn [andb].
    change (Z.of_nat (length (@nil jsstring))) with 0.
    destruct (0 <? L); [ | reflexivity].
    rewrite <- (join_split (c :: r)) at 1.
    rewrite countWords_lineOf by exact Hwords.
    change (countWords (join (str " ") [])) with 0%nat.
    rewrite drop_all. reflexivity. }
  destruct (0 <? L); reflexivity.
Qed.

(** X11: a text that, once its white space is collapsed and trimmed, is
    within the budget of one line is returned as that collapsed and trimmed
    text, whatever the maximum number of lines. *)
Theorem wrapByChars_short_text (text : jsval) (B L : Z) :
  let t := trim (collapseWhiteSpace (toString (orElse text (JString [])))) in
  len t <= B -> wrapByChars text B L = t.
Proof.
  apply wrapByChars_fits.
Qed.

Lemma wrapByChars_short_text_witness :
  wrapByChars (JString (str "  New   drop ")) 12 6 = str "New drop".
Proof.
  apply (wrapByChars_short_text (JString (str "  New   drop ")) 12 6).
  vm_compute. discriminate.
Defined.

(** X12: when the text has fewer words than the maximum number of lines,
    the wrapper drops none of them, however small the budget: the words of
    its lines are, in order, all the words of the text. *)
Theorem wrapByChars_few_words (text : jsval) (B L : Z) :
  let t := trim (collapseWhiteSpace (toString (orElse text (JString [])))) in
  Z.of_nat (length (wordsOf t)) < L ->
  exists lines : list jsstring,
    wrapByChars text B L = join (str "\N") lines
    /\ concat (wordsOf <$> lines) = wordsOf t.
Proof.
  intros t Hfew.
  pose proof (trim_collapse_tidy (toString (orElse text (JString [])))) as Ht.
  fold t in Ht.
  destruct (decide (t = [])) as [He | Hne].
  - exists []. unfold wrapByChars. fold t. rewrite He. split; reflexivity.
  - assert (wordsOf t = split SPACE t) as Hall
        by (apply filter_goodWords, split_tidy; assumption).
    rewrite Hall in *.
    destruct (wrapLines_shape t B L Ht Hne)
      as (lws & dropped & Hlines & Hlws & Hsplit & _ & _ & Hkept & _).
    pose proof (split_not_nil t) as Hsome.
    assert (1 <= L) as HL by (destruct (split SPACE t); [congruence | simpl in Hfew; lia]).
    exists (lineOf <$> lws). split.
    + rewrite <- Hlines. apply wrapByChars_lines; assumption.
    + rewrite Hsplit, (Hkept Hfew), app_nil_r. f_equal.
      rewrite <- list_fmap_compose.
      clear -Hlws. induction Hlws as [ | l lws [_ Hl] _ IH]; [reflexivity | ].
      rewrite fmap_cons, IH. f_equal. apply wordsOf_lineOf, Hl.
Qed.

Lemma wrapByChars_few_words_witness :
  exists lines : list jsstring,
    wrapByChars (JString (str "extraordinary offer today")) 3 4 = join (str "\N") lines
    /\ concat (wordsOf <$> lines) = [str "extraordinary"; str "offer"; str "today"].
Proof.
  apply (wrapByChars_few_words (JString (str "extraordinary offer today")) 3 4).
  vm_compute. reflexivity.
Defined.

(** ** The word wrapper: what is kept and what is dropped *)

(** C2, amended: for every input string, every per-line budget B and every
    maximum line count L >= 1, the text returned by the wrapper is made of
    lines joined by the line-break token; no line is empty, there is one
    at least when the text is not blank and there are L at most; their
    words are, in order, an initial run of the words of the collapsed and
    trimmed input; every line is within the budget unless it is a single
    word, and is full: the first word of the next line did not fit it.
    Words are dropped only after L lines, from the first one that does not
    fit the budget of the last line on: they are not absorbed into an
    oversized last line. *)
Theorem wrapByChars_greedy_prefix (s : jsstring) (B L : Z) :
  1 <= L ->
  let t := trim (collapseWhiteSpace s) in
  exists (lines : list (list jsstring)) (dropped : list jsstring),
    wrapByChars (JString s) B L = join (str "\N") (lineOf <$> lines)
    /\ wordsOf t = concat lines ++ dropped
    /\ Forall (fun ws => ws <> []) lines
    /\ (t <> [] -> lines <> [])
    /\ Z.of_nat (length lines) <= L
    /\ Forall (lineWithin B) lines
    /\ greedy B lines
    /\ (forall w dropped', dropped = w :: dropped' ->
          Z.of_nat (length lines) = L
          /\ exists l, last lines = Some l /\ overflows B l w).
Proof.
  intros HL t.
  pose proof (trim_collapse_tidy s) as Ht. fold t in Ht.
  destruct (decide (t = [])) as [He | Hne].
  - exists [], []. unfold wrapByChars. rewrite toString_orElse_string.
    fold t. rewrite He. simpl.
    conjuncts; try reflexivity; try constructor; try congruence; try lia.
  - destruct (wrapLines_shape t B L Ht Hne)
      as (lws & dropped & Hlines & Hlws & Hsplit & Hin & Hcount & _ & Hgreedy & Hdrop).
    exists lws, dropped.
    assert (wordsOf t = split SPACE t) as ->
        by (apply filter_goodWords, split_tidy; assumption).
    specialize (Hcount HL).
    conjuncts; try assumption.
    + rewrite <- Hlines.
      pose proof (wrapByChars_lines (JString s) B L) as H.
      rewrite toString_orElse_string in H. apply H; assumption.
    + eapply Forall_impl; [exact Hlws | ]. intros ws [Hws _]. exact Hws.
    + intros _ ->. simpl in Hcount. lia.
    + lia.
    + apply Hdrop, HL.
Qed.

Lemma wrapByChars_greedy_prefix_witness :
  exists (lines : list (list jsstring)) (dropped : list jsstring),
    wrapByChars (JString (str " aaa  bbb ccc ")) 3 2
    = join (str "\N") (lineOf <$> lines)
    /\ [str "aaa"; str "bbb"; str "ccc"] = concat lines ++ dropped
    /\ Z.of_nat (length lines) <= 2.
Proof.
  destruct (wrapByChars_greedy_prefix (str " aaa  bbb ccc ") 3 2)
    as (lines & dropped & H1 & H2 & _ & _ & H5 & _).
  - lia.
  - exists lines, dropped. split; [exact H1 | split; [exact H2 | exact H5]].
Defined.

(** ** The escaping of cue text *)

Lemma collapseFrom_fixed (s : jsstring) :
  noDoubleSpace s -> onlySpaces s ->
  forall inRun : bool,
    (inRun = true -> noLeadingSpace s) -> collapseFrom inRun s = s.
Proof.
  induction s as [ | c r IH]; intros Hd Ho inRun Hlead; [reflexivity | ].
  destruct Hd as [Hnext Hd]. apply Forall_cons in Ho as [Hc Ho]. simpl.
  destruct (isWhiteSpace c) eqn:Hws.
  - destruct inRun.
    + specialize (Hlead eq_refl). simpl in Hlead. congruence.
    + f_equal; [symmetry; apply Hc; reflexivity | ].
      apply IH; [exact Hd | exact Ho | intros _; apply Hnext; reflexivity].
  - f_equal. apply IH; [exact Hd | exact Ho | discriminate].
Qed.

Lemma tidy_fixed (t : jsstring) : tidy t -> trim (collapseWhiteSpace t) = t.
Proof.
  intros [Hl Ht Hd Ho]. unfold collapseWhiteSpace.
  rewrite collapseFrom_fixed by (assumption || discriminate).
  apply trim_fixed; assumption.
Qed.

Lemma noDoubleSpace_word_app (w x : jsstring) :
  spaceFree w -> noDoubleSpace x -> noDoubleSpace (w ++ x).
Proof.
  induction 1 as [ | c w Hc _ IH]; intros Hx; [exact Hx | ].
  simpl. split; [congruence | apply IH, Hx].
Qed.

Section Replace.

Variable f : N -> jsstring.
Hypothesis f_space : forall c, isWhiteSpace c = true -> f c = [c].
Hypothesis f_word : forall c, isWhiteSpace c = false -> f c <> [] /\ spaceFree (f c).

Lemma flat_map_lead (s : jsstring) :
  noLeadingSpace s -> noLeadingSpace (flat_map f s).
Proof.
  destruct s as [ | c r]; [trivial | ]. simpl. intros Hc.
  destruct (f_word c Hc) as [Hne Hall].
  destruct (f c) as [ | x w]; [congruence | ].
  apply Forall_cons in Hall as [Hx _]. exact Hx.
Qed.

Lemma flat_map_trail (s : jsstring) :
  noTrailingSpace s -> noTrailingSpace (flat_map f s).
Proof.
  destruct s as [ | c r _] using rev_ind; [trivial | ].
  unfold noTrailingSpace. rewrite last_snoc. intros Hc.
  rewrite flat_map_app. simpl. rewrite app_nil_r.
  destruct (f_word c Hc) as [Hne Hall].
  destruct (f c) as [ | x w _] using rev_ind; [congruence | ].
  rewrite app_assoc, last_snoc.
  apply Forall_app in Hall as [_ Hx]. apply Forall_cons in Hx as [Hx _]. exact Hx.
Qed.

Lemma flat_map_double (s : jsstring) :
  noDoubleSpace s -> noDoubleSpace (flat_map f s).
Proof.
  induction s as [ | c r IH]; [trivial | ]. intros [Hnext Hd]. simpl flat_map.
  destruct (isWhiteSpace c) eqn:Hws.
  - rewrite (f_space c Hws). simpl.
    split; [intros _; apply flat_map_lead, Hnext; reflexivity | apply IH, Hd].
  - apply noDoubleSpace_word_app; [apply f_word, Hws | apply IH, Hd].
Qed.

Lemma flat_map_only (s : jsstring) :
  onlySpaces s -> onlySpaces (flat_map f s).
Proof.
  unfold onlySpaces. induction 1 as [ | c r Hc _ IH]; [constructor | ].
  simpl. apply Forall_app. split; [ | exact IH].
  destruct (isWhiteSpace c) eqn:Hws.
  - rewrite (f_space c Hws). constructor; [intros _; apply Hc; reflexivity | constructor].
  - eapply Forall_impl; [apply f_word, Hws | ].
    intros x Hx Hx'. simpl in Hx. congruence.
Qed.

Lemma flat_map_tidy (s : jsstring) : tidy s -> tidy (flat_map f s).
Proof.
  intros [Hl Ht Hd Ho]. constructor.
  - apply flat_map_lead, Hl.
  - apply flat_map_trail, Ht.
  - apply flat_map_double, Hd.
  - apply flat_map_only, Ho.
Qed.

End Replace.

Lemma replaceAll_tidy (c : N) (by_ s : jsstring) :
  isWhiteSpace c = false -> by_ <> [] -> spaceFree by_ ->
  tidy s -> tidy (replaceAll c by_ s).
Proof.
  intros Hc Hne Hby. unfold replaceAll. apply flat_map_tidy; intros x Hx.
  - destruct (N.eqb_spec x c) as [-> | _]; [congruence | reflexivity].
  - destruct (x =? c)%N; [split; assumption | ].
    split; [discriminate | constructor; [exact Hx | constructor]].
Qed.

Lemma assEscape_tidy (t : jsval) : tidy (assEscape t).
Proof.
  unfold assEscape.
  repeat (apply replaceAll_tidy;
          [reflexivity | discriminate | repeat constructor | ]).
  apply trim_collapse_tidy.
Qed.

Lemma flat_map_flat_map {A B C : Type} (f : A -> list B) (g : B -> list C) (s : list A) :
  flat_map g (flat_map f s) = flat_map (fun x => flat_map g (f x)) s.
Proof.
  induction s as [ | x s IH]; [reflexivity | ].
  simpl. rewrite flat_map_app, IH. reflexivity.
Qed.

(** The three replacements in one pass. *)
Lemma escape_one_pass (s : jsstring) :
  replaceAll 125 (str "\}") (replaceAll 123 (str "\{") (replaceAll 92 (str "\\") s))
  = flat_map escapeUnit s.
Proof.
  unfold replaceAll. rewrite !flat_map_flat_map.
  apply flat_map_ext. intros x. unfold escapeUnit.
  destruct (N.eqb_spec x 92) as [-> | H1]; [reflexivity | ].
  destruct (N.eqb_spec x 123) as [-> | H2]; [reflexivity | ].
  destruct (N.eqb_spec x 125) as [-> | H3]; [reflexivity | ].
  simpl. rewrite (proj2 (N.eqb_neq x 123) H2). simpl.
  rewrite (proj2 (N.eqb_neq x 125) H3). reflexivity.
Qed.

Lemma escapeUnit_cases (c : N) :
  (escapeUnit c = [92%N; c] /\ (c = 92%N \/ c = 123%N \/ c = 125%N))
  \/ (escapeUnit c = [c] /\ c <> 92%N /\ c <> 123%N /\ c <> 125%N).
Proof.
  unfold escapeUnit.
  destruct (N.eqb_spec c 92); [left; simpl; tauto | ].
  destruct (N.eqb_spec c 123); [left; simpl; tauto | ].
  destruct (N.eqb_spec c 125); [left; simpl; tauto | ].
  right. simpl. tauto.
Qed.

Lemma escaped_brace (s before after : jsstring) (c : N) :
  flat_map escapeUnit s = before ++ c :: after ->
  c = 123%N \/ c = 125%N ->
  exists before', before = before' ++ [92%N].
Proof.
  intros Heq Hc. revert before Heq.
  induction s as [ | x s IH]; intros before Heq.
  - destruct before; discriminate.
  - change (flat_map escapeUnit (x :: s))
      with (escapeUnit x ++ flat_map escapeUnit s) in Heq.
    destruct (escapeUnit_cases x) as [[Hu Hx] | [Hu Hx]];
      rewrite Hu in Heq; simpl in Heq.
    + destruct before as [ | b0 [ | b1 before]]; simpl in Heq.
      * injection Heq as <- _. destruct Hc; discriminate.
      * injection Heq as <- _ _. exists []. reflexivity.
      * injection Heq as <- <- Heq. destruct (IH before Heq) as [b' ->].
        exists (92%N :: x :: b'). reflexivity.
    + destruct before as [ | b0 before]; simpl in Heq.
      * injection Heq as -> _. destruct Hc; tauto.
      * injection Heq as <- Heq. destruct (IH before Heq) as [b' ->].
        exists (x :: b'). reflexivity.
Qed.

Lemma escape_injective (a b : jsstring) :
  flat_map escapeUnit a = flat_map escapeUnit b -> a = b.
Proof.
  revert b. induction a as [ | x a IH]; intros [ | y b] Heq;
    cbn [flat_map] in Heq.
  - reflexivity.
  - destruct (escapeUnit_cases y) as [[Hy _] | [Hy _]]; rewrite Hy in Heq; discriminate.
  - destruct (escapeUnit_cases x) as [[Hx _] | [Hx _]]; rewrite Hx in Heq; discriminate.
  - destruct (escapeUnit_cases x) as [[Hx Hsx] | [Hx Hnx]];
      destruct (escapeUnit_cases y) as [[Hy Hsy] | [Hy Hny]];
      rewrite Hx, Hy in Heq; simpl in Heq.
    + injection Heq as -> Heq. f_equal. apply IH, Heq.
    + injection Heq as <- _. tauto.
    + injection Heq as -> _. tauto.
    + injection Heq as -> Heq. f_equal. apply IH, Heq.
Qed.

Lemma collapse_replaceNewlines_aux (n : nat) :
  forall (s : jsstring) (inRun : bool),
    (length s <= n)%nat ->
    collapseFrom inRun (replaceNewlines s) = collapseFrom inRun s.
Proof.
  induction n as [ | n IH]; intros s inRun Hn.
  - destruct s; [reflexivity | simpl in Hn; lia].
  - destruct s as [ | c r]; [reflexivity | ].
    simpl in Hn.
    destruct (N.eqb_spec c 13) as [-> | Hc13].
    + destruct r as [ | d r].
      * reflexivity.
      * destruct (N.eqb_spec d 10) as [-> | Hd10].
        -- change (replaceNewlines (13%N :: 10%N :: r)) with (SPACE :: replaceNewlines r).
           change (collapseFrom inRun (13%N :: 10%N :: r))
             with (if inRun then collapseFrom true r else SPACE :: collapseFrom true r).
           change (collapseFrom inRun (SPACE :: replaceNewlines r))
             with (if inRun then collapseFrom true (replaceNewlines r)
                   else SPACE :: collapseFrom true (replaceNewlines r)).
           simpl in Hn. rewrite IH by lia. reflexivity.
        -- assert (replaceNewlines (13%N :: d :: r) = 13%N :: replaceNewlines (d :: r)) as ->.
           { simpl. destruct d as [ | p]; [reflexivity | ].
             do 4 (destruct p; try reflexivity). congruence. }
           change (collapseFrom inRun (13%N :: ?x))
             with (if inRun then collapseFrom true x else SPACE :: collapseFrom true x).
           rewrite IH by lia. reflexivity.
    + assert (replaceNewlines (c :: r)
              = if (c =? 10)%N then SPACE :: replaceNewlines r
                else c :: replaceNewlines r) as ->.
      { simpl. destruct c as [ | p]; [reflexivity | ].
        do 4 (destruct p; try reflexivity). congruence. }
      destruct (N.eqb_spec c 10) as [-> | Hc10].
      * change (collapseFrom inRun (10%N :: r))
          with (if inRun then collapseFrom true r else SPACE :: collapseFrom true r).
        change (collapseFrom inRun (SPACE :: replaceNewlines r))
          with (if inRun then collapseFrom true (replaceNewlines r)
                else SPACE :: collapseFrom true (replaceNewlines r)).
        rewrite IH by lia. reflexivity.
      * simpl. rewrite !IH by lia. reflexivity.
Qed.

Lemma collapse_replaceNewlines (s : jsstring) :
  collapseWhiteSpace (replaceNewlines s) = collapseWhiteSpace s.
Proof.
  apply (collapse_replaceNewlines_aux (length s)). reflexivity.
Qed.

(** X13: an escaped text is already collapsed and trimmed (the escape
    sequences hold no white space): the white-space normalisation with
    which the wrapper starts leaves it unchanged. *)
Theorem assEscape_is_normalized (t : jsval) :
  trim (collapseWhiteSpace (assEscape t)) = assEscape t.
Proof.
  apply tidy_fixed, assEscape_tidy.
Qed.

(** X14: in an escaped text every brace comes right after a backslash. *)
Theorem assEscape_braces_escaped (t : jsval) (before after : jsstring) (c : N) :
  assEscape t = before ++ c :: after ->
  c = 123%N \/ c = 125%N ->
  exists before', before = before' ++ [92%N].
Proof.
  unfold assEscape. rewrite escape_one_pass. apply escaped_brace.
Qed.

Lemma assEscape_braces_escaped_witness :
  exists before', str "50% " ++ [92%N] = before' ++ [92%N].
Proof.
  apply (assEscape_braces_escaped (JString (str " 50%  {off} "))
           (str "50% " ++ [92%N]) (str "off\}") 123).
  - vm_compute. reflexivity.
  - left. reflexivity.
Defined.

(** X15: escaping loses nothing but white space: two texts with the same
    escaped form are equal once their white space is collapsed and
    trimmed. *)
Theorem assEscape_injective (a b : jsval) :
  assEscape a = assEscape b ->
  trim (collapseWhiteSpace (toString (orElse a (JString []))))
  = trim (collapseWhiteSpace (toString (orElse b (JString [])))).
Proof.
  unfold assEscape. rewrite !escape_one_pass, !collapse_replaceNewlines.
  apply escape_injective.
Qed.

Lemma assEscape_injective_witness :
  trim (collapseWhiteSpace (toString (orElse (JString (str "a  {b}")) (JString []))))
  = trim (collapseWhiteSpace (toString (orElse (JString (str " a {b} ")) (JString [])))).
Proof.
  apply (assEscape_injective (JString (str "a  {b}")) (JString (str " a {b} "))).
  vm_compute. reflexivity.
Defined.

(** X16: the replacement of line breaks is subsumed by the collapse of white
    space: the escaped text is the collapsed and trimmed text with a
    backslash put before every backslash and brace, so the escape and the
    wrapper normalise a text the same way. *)
Theorem assEscape_one_pass (t : jsval) :
  assEscape t
  = flat_map escapeUnit (trim (collapseWhiteSpace (toString (orElse t (JString []))))).
Proof.
  unfold assEscape. rewrite escape_one_pass, collapse_replaceNewlines. reflexivity.
Qed.

(** ** Cue times *)

Lemma digits_spaceFree (d : Decimal.uint) :
  spaceFree (str (DecimalString.NilEmpty.string_of_uint d)).
Proof.
  induction d; simpl; constructor; (reflexivity || assumption).
Qed.

Lemma digitsOf_spaceFree (n : N) : spaceFree (digitsOf n).
Proof.
  unfold digitsOf, DecimalString.NilZero.string_of_uint.
  destruct (N.to_uint n);
    first [ solve [repeat constructor] | apply digits_spaceFree ].
Qed.

Lemma pad2_spaceFree (n : Z) : spaceFree (pad2 n).
Proof.
  unfold pad2. pose proof (digitsOf_spaceFree (Z.to_N n)) as H.
  destruct (digitsOf (Z.to_N n)) as [ | a [ | b l]]; simpl.
  - repeat constructor.
  - constructor; [reflexivity | exact H].
  - exact H.
Qed.

Lemma spaceFree_app (a b : jsstring) :
  spaceFree a -> spaceFree b -> spaceFree (a ++ b).
Proof.
  apply Forall_app_2.
Qed.

Lemma msToAssTime_spaceFree (ms : Z) : spaceFree (msToAssTime ms).
Proof.
  unfold msToAssTime.
  apply spaceFree_app; [apply digitsOf_spaceFree | ].
  apply spaceFree_app; [repeat constructor | ].
  apply spaceFree_app; [apply pad2_spaceFree | ].
  apply spaceFree_app; [repeat constructor | ].
  apply spaceFree_app; [apply pad2_spaceFree | ].
  apply spaceFree_app; [repeat constructor | apply pad2_spaceFree].
Qed.

Lemma pad2_length (n : Z) : 0 <= n < 100 -> length (pad2 n) = 2%nat.
Proof.
  intros Hn.
  assert (forallb (fun k => Nat.eqb (length (pad2 (Z.of_nat k))) 2) (seq 0 100) = true)
    as Hall by (vm_compute; reflexivity).
  rewrite List.forallb_forall in Hall. specialize (Hall (Z.to_nat n)).
  rewrite Z2Nat.id in Hall by lia. apply Nat.eqb_eq, Hall, List.in_seq. lia.
Qed.

(** X17: a cue time is printed as hours, minutes, seconds and hundredths,
    the last three on two digits each and below 60, 60 and 100; together
    they are the time in milliseconds cut down to a whole number of
    hundredths of a second, and zero for a negative time. *)
Theorem msToAssTime_fields (ms : Z) :
  exists hh mm ss cc : Z,
    msToAssTime ms
    = digitsOf (Z.to_N hh) ++ str ":" ++ pad2 mm ++ str ":" ++ pad2 ss
        ++ str "." ++ pad2 cc
    /\ 0 <= hh /\ 0 <= mm < 60 /\ 0 <= ss < 60 /\ 0 <= cc < 100
    /\ ((hh * 60 + mm) * 60 + ss) * 100 + cc = Z.max 0 ms / 10
    /\ length (pad2 mm) = 2%nat /\ length (pad2 ss) = 2%nat
    /\ length (pad2 cc) = 2%nat.
Proof.
  unfold msToAssTime. set (cs := Z.max 0 ms / 10).
  assert (0 <= cs) as Hcs by (apply Z.div_pos; lia).
  exists (cs / 360000), ((cs mod 360000) / 6000), ((cs mod 6000) / 100), (cs mod 100).
  assert (0 <= cs / 360000
          /\ 0 <= (cs mod 360000) / 6000 < 60
          /\ 0 <= (cs mod 6000) / 100 < 60
          /\ 0 <= cs mod 100 < 100
          /\ ((cs / 360000 * 60 + (cs mod 360000) / 6000) * 60
              + (cs mod 6000) / 100) * 100 + cs mod 100 = cs) as Harith.
  { clearbody cs. Z.to_euclidean_division_equations. lia. }
  destruct Harith as (Hh & Hm & Hs & Hc & Hsum).
  split; [reflexivity | ].
  split; [exact Hh | ]. split; [exact Hm | ]. split; [exact Hs | ].
  split; [exact Hc | ]. split; [exact Hsum | ].
  split; [apply pad2_length; lia | ].
  split; apply pad2_length; lia.
Qed.

(** ** The cue lines *)

Lemma spaceFree_onlySpaces (s : jsstring) : spaceFree s -> onlySpaces s.
Proof.
  intros H. eapply Forall_impl; [exact H | ].
  intros c Hc Hc'. simpl in Hc. congruence.
Qed.

Lemma onlySpaces_no_break (s : jsstring) : onlySpaces s -> 10%N ∉ s.
Proof.
  intros H Hin. unfold onlySpaces in H. rewrite Forall_forall in H.
  specialize (H _ Hin eq_refl). discriminate H.
Qed.

Lemma onlySpaces_join (sep : jsstring) (ws : list jsstring) :
  onlySpaces sep -> Forall onlySpaces ws -> onlySpaces (join sep ws).
Proof.
  intros Hsep. induction 1 as [ | a ws Ha Hws IH]; [constructor | ].
  destruct ws as [ | b ws]; [exact Ha | ].
  change (join sep (a :: b :: ws)) with (a ++ sep ++ join sep (b :: ws)).
  apply Forall_app_2; [exact Ha | ].
  apply Forall_app_2; [exact Hsep | exact IH].
Qed.

Lemma goodLine_onlySpaces (ws : list jsstring) :
  goodLine ws -> onlySpaces (lineOf ws).
Proof.
  intros [_ Hws]. apply onlySpaces_join.
  - constructor; [intros _; reflexivity | constructor].
  - eapply Forall_impl; [exact Hws | ].
    intros w [_ Hw]. apply spaceFree_onlySpaces, Hw.
Qed.

Lemma wrapByChars_onlySpaces (text : jsval) (B L : Z) :
  onlySpaces (wrapByChars text B L).
Proof.
  unfold wrapByChars.
  pose proof (trim_collapse_tidy (toString (orElse text (JString [])))) as Ht.
  set (t := trim (collapseWhiteSpace (toString (orElse text (JString []))))) in *.
  destruct (decide (t = [])) as [-> | Hne]; [constructor | ].
  destruct t as [ | c r] eqn:Et; [congruence | ].
  simpl negb. cbv iota.
  destruct (bool_decide _); [apply Ht | ].
  destruct (wrapLines_shape (c :: r) B L Ht Hne) as (lws & _ & -> & Hlws & _).
  apply onlySpaces_join.
  - apply spaceFree_onlySpaces. repeat constructor.
  - apply Forall_fmap. eapply Forall_impl; [exact Hlws | ].
    intros ws Hws. apply goodLine_onlySpaces, Hws.
Qed.

Lemma dialogue_body (slideTag : jsstring) (i : nat) (c : caption) :
  10%N ∉ slideTag ->
  exists body, dialogue slideTag i c = body ++ LF /\ 10%N ∉ body.
Proof.
  intros Htag.
  pose proof (onlySpaces_no_break _
                (spaceFree_onlySpaces _ (msToAssTime_spaceFree (start_ms c)))) as Hs.
  pose proof (onlySpaces_no_break _
                (spaceFree_onlySpaces _ (msToAssTime_spaceFree (end_ms c)))) as He.
  assert (forall B L, 10%N ∉ wrapByChars (JString (assEscape (JString (text c)))) B L)
    as Hw by (intros B L; apply onlySpaces_no_break, wrapByChars_onlySpaces).
  unfold dialogue. destruct i as [ | i]; rewrite !app_assoc;
    eexists; (split; [reflexivity | ]);
    rewrite !not_elem_of_app; repeat split;
    try assumption; try apply Hw;
    apply (bool_decide_unpack _); vm_compute; exact I.
Qed.

(** X18: the subtitle file gets one event per caption, and every event is
    one line: written after a slide tag that holds no line feed, the text
    of an event has its only line feed at its end, whatever the caption
    text holds. *)
Theorem dialogues_one_line_each (slideTag : jsstring) (scaledCaptions : list caption) :
  10%N ∉ slideTag ->
  length (dialogues slideTag scaledCaptions) = length scaledCaptions
  /\ Forall (fun d => exists body, d = body ++ LF /\ 10%N ∉ body)
       (dialogues slideTag scaledCaptions).
Proof.
  intros Htag. unfold dialogues. split; [apply length_imap | ].
  apply Forall_lookup. intros i d Hd.
  rewrite list_lookup_imap in Hd.
  destruct (scaledCaptions !! i) as [c | ]; [ | discriminate].
  injection Hd as <-. apply dialogue_body, Htag.
Qed.

Lemma dialogues_one_line_each_witness :
  length (dialogues (str "{\fad(150,150)}")
            [Caption 0 1500 [78; 101; 119; 10; 100; 114; 111; 112]%N;
             Caption 1500 3000 (str "Only today")]) = 2%nat
  /\ Forall (fun d => exists body, d = body ++ LF /\ 10%N ∉ body)
       (dialogues (str "{\fad(150,150)}")
          [Caption 0 1500 [78; 101; 119; 10; 100; 114; 111; 112]%N;
           Caption 1500 3000 (str "Only today")]).
Proof.
  apply (dialogues_one_line_each (str "{\fad(150,150)}")
           [Caption 0 1500 [78; 101; 119; 10; 100; 114; 111; 112]%N;
            Caption 1500 3000 (str "Only today")]).
  apply (bool_decide_unpack _). vm_compute. exact I.
Defined.

(** X19: a caption whose escaped text is within the budget of one line (12
    code units for the first caption, 18 for the others) is written into
    its event unbroken, as the escaped text. *)
Theorem dialogue_short_caption (slideTag : jsstring) (i : nat) (c : caption) :
  len (assEscape (JString (text c)))
  <= (if i is O then titleMaxCharsPerLine else capMaxCharsPerLine) ->
  dialogue slideTag i c
  = str "Dialogue: 0," ++ msToAssTime (start_ms c) ++ str ","
      ++ msToAssTime (end_ms c)
      ++ (if i is O then str ",Title,,0,0,0,," else str ",Caption,,0,0,0,,")
      ++ slideTag ++ assEscape (JString (text c)) ++ LF.
Proof.
  intros Hfit. unfold dialogue.
  destruct i as [ | i];
    rewrite wrapByChars_fits;
    rewrite toString_orElse_string, tidy_fixed by apply assEscape_tidy;
    (reflexivity || exact Hfit).
Qed.

Lemma dialogue_short_caption_witness :
  dialogue (str "{\fad(150,150)}") 1 (Caption 1500 3000 (str " Only  {today} "))
  = str "Dialogue: 0,0:00:01.50,0:00:03.00,Caption,,0,0,0,,{\fad(150,150)}Only \{today\}"
      ++ LF.
Proof.
  rewrite (dialogue_short_caption (str "{\fad(150,150)}") 1
             (Caption 1500 3000 (str " Only  {today} "))).
  - vm_compute. reflexivity.
  - vm_compute. discriminate.
Defined.

(** ** Braces in the cue text *)

Lemma bracesGuarded_app (a b : jsstring) :
  bracesGuarded a -> bracesGuarded b -> bracesGuarded (a ++ b).
Proof.
  intros Ha Hb before after c Heq Hc.
  apply List.app_eq_app in Heq as [l [[Hl1 Hl2] | [Hl1 Hl2]]].
  - destruct l as [ | c' l].
    + rewrite app_nil_l in Hl2. symmetry in Hl2.
      destruct (Hb [] after c Hl2 Hc) as [b' Hb']. destruct b'; discriminate.
    + injection Hl2 as <- _. exact (Ha before l c Hl1 Hc).
  - destruct (Hb l after c Hl2 Hc) as [l' ->].
    exists (a ++ l'). rewrite Hl1, app_assoc. reflexivity.
Qed.

Lemma bracesGuarded_plain (s : jsstring) :
  Forall (fun c => c <> 123%N /\ c <> 125%N) s -> bracesGuarded s.
Proof.
  intros Hs before after c -> Hc. exfalso.
  apply Forall_app in Hs as [_ Hs]. apply Forall_cons in Hs as [[H1 H2] _].
  destruct Hc; contradiction.
Qed.

Lemma bracesGuarded_join (sep : jsstring) (ws : list jsstring) :
  bracesGuarded sep -> Forall bracesGuarded ws -> bracesGuarded (join sep ws).
Proof.
  intros Hsep. induction 1 as [ | a ws Ha Hws IH].
  - apply bracesGuarded_plain. constructor.
  - destruct ws as [ | b ws]; [exact Ha | ].
    change (join sep (a :: b :: ws)) with (a ++ sep ++ join sep (b :: ws)).
    apply bracesGuarded_app; [exact Ha | ].
    apply bracesGuarded_app; [exact Hsep | exact IH].
Qed.

Lemma split_elem_context (E w : jsstring) :
  w ∈ split SPACE E ->
  exists X Y, E = X ++ w ++ Y /\ (X = [] \/ exists X', X = X' ++ [SPACE]).
Proof.
  intros Hw. apply list_elem_of_split in Hw as (l1 & l2 & Hsplit).
  assert (exists Y, lineOf (w :: l2) = w ++ Y) as [Y HY].
  { destruct l2 as [ | b l2]; [exists []; symmetry; apply app_nil_r | ].
    eexists. reflexivity. }
  rewrite <- (join_split E), Hsplit.
  destruct l1 as [ | a l1].
  - exists [], Y. split; [exact HY | left; reflexivity].
  - exists (lineOf (a :: l1) ++ [SPACE]), Y. split; [ | right; eexists; reflexivity].
    unfold lineOf in *. rewrite join_app by discriminate.
    rewrite HY, <- !app_assoc. reflexivity.
Qed.

Lemma bracesGuarded_word (E w : jsstring) :
  bracesGuarded E -> w ∈ split SPACE E -> bracesGuarded w.
Proof.
  intros HE Hw p q c -> Hc.
  destruct (split_elem_context E _ Hw) as (X & Y & HEq & HX).
  rewrite <- app_assoc, app_assoc in HEq. simpl in HEq.
  destruct (HE (X ++ p) (q ++ Y) c HEq Hc) as [b' Hb'].
  destruct p as [ | x p _] using rev_ind.
  - exfalso. rewrite app_nil_r in Hb'.
    destruct HX as [-> | [X' ->]].
    + destruct b'; discriminate.
    + apply app_inj_tail in Hb' as [_ Hb']. discriminate.
  - rewrite app_assoc in Hb'. apply app_inj_tail in Hb' as [_ ->].
    exists p. reflexivity.
Qed.

Lemma wrapped_bracesGuarded (t : jsval) (B L : Z) :
  bracesGuarded (wrapByChars (JString (assEscape t)) B L).
Proof.
  assert (bracesGuarded (assEscape t)) as HE.
  { unfold assEscape. rewrite escape_one_pass.
    intros before after c. apply escaped_brace. }
  pose proof (assEscape_tidy t) as Ht.
  unfold wrapByChars.
  rewrite toString_orElse_string, (tidy_fixed _ Ht).
  destruct (assEscape t) as [ | c r] eqn:Et; [apply bracesGuarded_plain; constructor | ].
  simpl negb. cbv iota.
  destruct (bool_decide _); [exact HE | ].
  destruct (wrapLines_shape (c :: r) B L Ht ltac:(discriminate))
    as (lws & dropped & -> & _ & Hsplit & _).
  assert (Forall bracesGuarded (concat lws)) as Hwords.
  { apply Forall_forall. intros w Hw. apply (bracesGuarded_word (c :: r)); [exact HE | ].
    rewrite Hsplit. apply elem_of_app. left. exact Hw. }
  apply bracesGuarded_join.
  - apply bracesGuarded_plain. repeat constructor; discriminate.
  - apply Forall_fmap, Forall_forall. intros ws Hws.
    apply bracesGuarded_join.
    + apply bracesGuarded_plain. repeat constructor; discriminate.
    + apply Forall_forall. intros w Hw.
      rewrite Forall_forall in Hwords. apply Hwords.
      apply list_elem_of_In, in_concat. exists ws.
      split; apply list_elem_of_In; assumption.
Qed.

(** X20: in the wrapped text of a cue, that is the escaped caption text
    laid out by the wrapper, every brace still comes right after a
    backslash: neither dropping words nor breaking lines separates a brace
    from its backslash. *)
Theorem cue_braces_escaped (t : jsval) (B L : Z) (before after : jsstring) (c : N) :
  wrapByChars (JString (assEscape t)) B L = before ++ c :: after ->
  c = 123%N \/ c = 125%N ->
  exists before', before = before' ++ [92%N].
Proof.
  apply wrapped_bracesGuarded.
Qed.

Lemma cue_braces_escaped_witness :
  exists before', str "big\N" ++ [92%N] = before' ++ [92%N].
Proof.
  apply (cue_braces_escaped (JString (str "big {sale}")) 4 3
           (str "big\N" ++ [92%N]) (str "sale\}") 123).
  - vm_compute. reflexivity.
  - left. reflexivity.
Defined.
